(** * zenn-like-md-to-html: the export pipeline of [src/exportPage.ts]

    A shallow embedding of the second (current) variant of the extension's
    export code: [getDocumentTitle], the pieces of [buildHtml] (table of
    contents, block scanner, image rewriting, formatting fallback), the
    output path of [exportPage] and the folder tree and navigation menu of
    [exportWorkspace].

    JavaScript strings are modelled as lists of code units restricted to
    the range 0..255 (type [ascii]); every library function below
    ([trim], [toLowerCase], [encodeURIComponent], the character classes of
    regular expressions) is given with its behaviour on that range.

    Regular expressions are not re-implemented by hand one by one: the
    file contains a small backtracking matcher that follows the
    continuation-passing semantics of ECMA-262 (section 22.2.2), and every
    regular expression literal of the source is transcribed as a term of
    type [regex]. *)

From Stdlib Require Import Ascii String Arith Bool Lia PeanoNat List Permutation
  DecimalString.
Import ListNotations.

Local Open Scope char_scope.
Local Open Scope nat_scope.
Local Open Scope list_scope.

(** ** JavaScript strings *)

Module JsString.

Definition jsstring := list ascii.

Definition code (c : ascii) : nat := nat_of_ascii c.

Definition hexval (c : ascii) : option nat :=
  let n := code c in
  if (48 <=? n) && (n <=? 57) then Some (n - 48)
  else if (97 <=? n) && (n <=? 102) then Some (n - 87)
  else if (65 <=? n) && (n <=? 70) then Some (n - 55)
  else None.

(** [js] reads a literal written with the escapes of a JavaScript string
    literal: backslash followed by n, r, t, backslash, or xHH. *)
Fixpoint unescape (s : list ascii) : jsstring :=
  match s with
  | "\" :: "n" :: r => ascii_of_nat 10 :: unescape r
  | "\" :: "r" :: r => ascii_of_nat 13 :: unescape r
  | "\" :: "t" :: r => ascii_of_nat 9 :: unescape r
  | "\" :: "\" :: r => "\" :: unescape r
  | "\" :: "x" :: h :: l :: r =>
      match hexval h, hexval l with
      | Some a, Some b => ascii_of_nat (16 * a + b) :: unescape r
      | _, _ => "\" :: "x" :: h :: l :: unescape r
      end
  | c :: r => c :: unescape r
  | [] => []
  end.

Definition js (s : string) : jsstring := unescape (list_ascii_of_string s).

Definition str (s : string) : jsstring := list_ascii_of_string s.

Fixpoint eqb (a b : jsstring) : bool :=
  match a, b with
  | [], [] => true
  | x :: a', y :: b' => Ascii.eqb x y && eqb a' b'
  | _, _ => false
  end.

(** [s.startsWith(p)] *)
Fixpoint startsWith (p s : jsstring) : bool :=
  match p, s with
  | [], _ => true
  | x :: p', y :: s' => Ascii.eqb x y && startsWith p' s'
  | _ :: _, [] => false
  end.

(** [s.endsWith(p)] *)
Definition endsWith (p s : jsstring) : bool :=
  startsWith (rev p) (rev s).

(** [s.slice(a, b)] and [s.slice(a)] for non-negative indices. *)
Definition slice (s : jsstring) (a b : nat) : jsstring :=
  firstn (b - a) (skipn a s).

Definition sliceFrom (s : jsstring) (a : nat) : jsstring := skipn a s.

(** White space and line terminators of ECMA-262 below code unit 256:
    TAB, LF, VT, FF, CR, SP and NBSP. *)
Definition isWhiteSpace (c : ascii) : bool :=
  let n := code c in
  ((9 <=? n) && (n <=? 13)) || (n =? 32) || (n =? 160).

Definition isLineTerminator (c : ascii) : bool :=
  let n := code c in (n =? 10) || (n =? 13).

Fixpoint trimStart (s : jsstring) : jsstring :=
  match s with
  | c :: r => if isWhiteSpace c then trimStart r else s
  | [] => []
  end.

Definition trimEnd (s : jsstring) : jsstring := rev (trimStart (rev s)).

(** [s.trim()] *)
Definition trim (s : jsstring) : jsstring := trimEnd (trimStart s).

(** [s.toLowerCase()] on code units below 256: A-Z and the Latin-1
    capitals U+00C0..U+00DE other than the multiplication sign. *)
Definition lowerChar (c : ascii) : ascii :=
  let n := code c in
  if (65 <=? n) && (n <=? 90) then ascii_of_nat (n + 32)
  else if (192 <=? n) && (n <=? 222) && negb (n =? 215) then ascii_of_nat (n + 32)
  else c.

Definition toLowerCase (s : jsstring) : jsstring := map lowerChar s.

Definition upperChar (c : ascii) : ascii :=
  let n := code c in
  if (97 <=? n) && (n <=? 122) then ascii_of_nat (n - 32)
  else if (224 <=? n) && (n <=? 254) && negb (n =? 247) then ascii_of_nat (n - 32)
  else c.

(** [s.toUpperCase()] for strings without U+00B5, U+00DF and U+00FF, whose
    upper-case forms lie outside the modelled range. *)
Definition toUpperCase (s : jsstring) : jsstring := map upperChar s.

Definition hexDigit (n : nat) : ascii :=
  if n <? 10 then ascii_of_nat (48 + n) else ascii_of_nat (55 + n).

Definition percent (b : nat) : jsstring :=
  ["%"; hexDigit (b / 16); hexDigit (b mod 16)].

Definition isUriUnreserved (c : ascii) : bool :=
  let n := code c in
  ((65 <=? n) && (n <=? 90)) || ((97 <=? n) && (n <=? 122)) ||
  ((48 <=? n) && (n <=? 57)) ||
  existsb (Ascii.eqb c) ["-"; "_"; "."; "!"; "~"; "*"; "'"; "("; ")"].

(** [encodeURIComponent(s)]: unreserved characters are kept, every other
    code unit is written as the percent-escaped bytes of its UTF-8 form. *)
Definition encodeChar (c : ascii) : jsstring :=
  let n := code c in
  if isUriUnreserved c then [c]
  else if n <? 128 then percent n
  else percent (192 + n / 64) ++ percent (128 + n mod 64).

Definition encodeURIComponent (s : jsstring) : jsstring :=
  flat_map encodeChar s.

(** [list.join(sep)] *)
Fixpoint join (sep : jsstring) (l : list jsstring) : jsstring :=
  match l with
  | [] => []
  | [x] => x
  | x :: r => x ++ sep ++ join sep r
  end.

(** [s.indexOf(p)] as an option, and the split it induces. *)
Fixpoint indexOf (p s : jsstring) : option nat :=
  if startsWith p s then Some 0
  else match s with
       | [] => None
       | _ :: r => option_map S (indexOf p r)
       end.

(** [s.includes(p)] *)
Definition includes (p s : jsstring) : bool :=
  match indexOf p s with Some _ => true | None => false end.

End JsString.

Import JsString.

(** ** Regular expressions

    The matcher follows ECMA-262: a pattern is compiled to a function of a
    match state and a continuation; alternatives are tried left to right and
    a quantifier either tries one more iteration first (greedy) or the
    continuation first (lazy). *)

Module Regex.

Inductive regex : Type :=
| Eps : regex
| Chr : (ascii -> bool) -> regex
| Seq : regex -> regex -> regex
| Alt : regex -> regex -> regex
| Rep : bool -> nat -> option nat -> regex -> regex
| Group : nat -> regex -> regex
| Backref : nat -> regex
| Bol : regex
| Eol : regex
| NegLook : regex -> regex.

(** The state of a match: the code units before the current position, in
    reverse order, the code units from the current position on, and the
    captures recorded so far. *)
Record mstate : Type := MState {
  before : list ascii;
  after : list ascii;
  caps : list (nat * jsstring)
}.

Definition cont := mstate -> option mstate.

Fixpoint getCap (n : nat) (c : list (nat * jsstring)) : option jsstring :=
  match c with
  | [] => None
  | (m, v) :: r => if m =? n then Some v else getCap n r
  end.

Definition clearCaps (ns : list nat) (c : list (nat * jsstring)) :
  list (nat * jsstring) :=
  filter (fun e => negb (existsb (Nat.eqb (fst e)) ns)) c.

Definition setCap (n : nat) (v : jsstring) (c : list (nat * jsstring)) :
  list (nat * jsstring) :=
  (n, v) :: clearCaps [n] c.

(** The numbers of the capturing groups inside a pattern. *)
Fixpoint groupsOf (r : regex) : list nat :=
  match r with
  | Seq a b | Alt a b => groupsOf a ++ groupsOf b
  | Rep _ _ _ a | NegLook a => groupsOf a
  | Group n a => n :: groupsOf a
  | _ => []
  end.

(** The code units consumed between two states of one match. *)
Definition consumed (st st' : mstate) : jsstring :=
  rev (firstn (length (before st') - length (before st)) (before st')).

Fixpoint advance (s : jsstring) (st : mstate) : option mstate :=
  match s with
  | [] => Some st
  | c :: s' =>
      match after st with
      | d :: aft =>
          if Ascii.eqb c d
          then advance s' (MState (d :: before st) aft (caps st))
          else None
      | [] => None
      end
  end.

Definition decr (mx : option nat) : option nat := option_map pred mx.

(** RepeatMatcher of ECMA-262.  [step] is the matcher of the quantified
    atom; an iteration that is not required and consumes nothing fails. *)
Fixpoint repeatMatcher (step : mstate -> cont -> option mstate)
  (inner : list nat) (greedy : bool) (fuel : nat) (mn : nat) (mx : option nat)
  (x : mstate) (c : cont) {struct fuel} : option mstate :=
  match fuel with
  | 0 => None
  | S fuel' =>
      match mx with
      | Some 0 => c x
      | _ =>
          let d : cont := fun y =>
            if (mn =? 0) && (length (after y) =? length (after x)) then None
            else repeatMatcher step inner greedy fuel' (pred mn) (decr mx) y c in
          let xr := MState (before x) (after x) (clearCaps inner (caps x)) in
          if negb (mn =? 0) then step xr d
          else if greedy then
            match step xr d with
            | Some z => Some z
            | None => c x
            end
          else
            match c x with
            | Some z => Some z
            | None => step xr d
            end
      end
  end.

Section Matcher.

(** The [m] flag. *)
Variable multiline : bool.

Fixpoint run (r : regex) (x : mstate) (c : cont) {struct r} : option mstate :=
  match r with
  | Eps => c x
  | Chr p =>
      match after x with
      | ch :: aft =>
          if p ch then c (MState (ch :: before x) aft (caps x)) else None
      | [] => None
      end
  | Seq a b => run a x (fun y => run b y c)
  | Alt a b =>
      match run a x c with
      | Some z => Some z
      | None => run b x c
      end
  | Rep greedy mn mx a =>
      repeatMatcher (run a) (groupsOf a) greedy
        (S (S (mn + length (after x)))) mn mx x c
  | Group n a =>
      run a x (fun y =>
        c (MState (before y) (after y) (setCap n (consumed x y) (caps y))))
  | Backref n =>
      match getCap n (caps x) with
      | None => c x
      | Some s =>
          match advance s x with
          | Some y => c y
          | None => None
          end
      end
  | Bol =>
      match before x with
      | [] => c x
      | ch :: _ => if multiline && isLineTerminator ch then c x else None
      end
  | Eol =>
      match after x with
      | [] => c x
      | ch :: _ => if multiline && isLineTerminator ch then c x else None
      end
  | NegLook a =>
      match run a x (fun y => Some y) with
      | Some _ => None
      | None => c x
      end
  end.

(** The first position at or after the current one where the pattern
    matches: the start index and the final state. *)
Fixpoint search (r : regex) (bef aft : list ascii) {struct aft} :
  option (nat * mstate) :=
  match run r (MState bef aft []) (fun y => Some y) with
  | Some y => Some (length bef, y)
  | None =>
      match aft with
      | [] => None
      | ch :: aft' => search r (ch :: bef) aft'
      end
  end.

End Matcher.

(** A regular expression object: pattern and flags. *)
Record regexp : Type := RegExp {
  pattern : regex;
  flagG : bool;
  flagM : bool
}.

(** The result of [exec]: [index], [m[0]], the captures and the end index. *)
Record jsmatch : Type := JsMatch {
  index : nat;
  matched : jsstring;
  groups : list (nat * jsstring);
  endIndex : nat
}.

Definition group (n : nat) (m : jsmatch) : option jsstring :=
  getCap n (groups m).

(** RegExpBuiltinExec started at [lastIndex]. *)
Definition execFrom (re : regexp) (s : jsstring) (lastIndex : nat) :
  option jsmatch :=
  if length s <? lastIndex then None
  else
    match search (flagM re) (pattern re)
            (rev (firstn lastIndex s)) (skipn lastIndex s) with
    | None => None
    | Some (i, y) =>
        Some (JsMatch i (rev (firstn (length (before y) - i) (before y)))
                (caps y) (length (before y)))
    end.

(** [re.exec(s)] for an object with [lastIndex] state: without the [g]
    flag the search starts at 0 and [lastIndex] is left alone; with it the
    search starts at [lastIndex], which becomes the end of the match, or 0
    when there is none. *)
Definition exec (re : regexp) (s : jsstring) (lastIndex : nat) :
  option jsmatch * nat :=
  if flagG re then
    match execFrom re s lastIndex with
    | Some m => (Some m, endIndex m)
    | None => (None, 0)
    end
  else (execFrom re s 0, lastIndex).

(** [re.test(s)] for a regular expression without the [g] flag. *)
Definition test (re : regexp) (s : jsstring) : bool :=
  match execFrom re s 0 with Some _ => true | None => false end.

(** [s.match(re)] for a regular expression without the [g] flag. *)
Definition matchRe (re : regexp) (s : jsstring) : option jsmatch :=
  execFrom re s 0.

(** All matches of a global regular expression, as [replace] and [split]
    enumerate them: after an empty match the search resumes one code unit
    further. *)
Fixpoint allMatches (re : regexp) (s : jsstring) (fuel from : nat) :
  list jsmatch :=
  match fuel with
  | 0 => []
  | S fuel' =>
      match execFrom re s from with
      | None => []
      | Some m =>
          let next := if endIndex m =? index m then S (endIndex m)
                      else endIndex m in
          m :: allMatches re s fuel' next
      end
  end.

(** The result of replacing the listed matches, read left to right from
    position [pos], by what [f] returns for each. *)
Fixpoint substitute (f : jsmatch -> jsstring) (s : jsstring) (pos : nat)
  (ms : list jsmatch) : jsstring :=
  match ms with
  | [] => skipn pos s
  | m :: ms' =>
      slice s pos (index m) ++ f m ++ substitute f s (endIndex m) ms'
  end.

(** [s.replace(re, f)] with a replacement function (a replacement string
    without dollar patterns is the constant function). *)
Definition replaceWith (re : regexp) (f : jsmatch -> jsstring) (s : jsstring) :
  jsstring :=
  if flagG re then substitute f s 0 (allMatches re s (S (length s)) 0)
  else
    match execFrom re s 0 with
    | None => s
    | Some m => substitute f s 0 [m]
    end.

Definition replace (re : regexp) (by_ : jsstring) (s : jsstring) : jsstring :=
  replaceWith re (fun _ => by_) s.

(** [s.split(re)] without a limit, for a separator that matches no empty
    string. *)
Fixpoint splitAt (s : jsstring) (pos : nat) (ms : list jsmatch) :
  list jsstring :=
  match ms with
  | [] => [skipn pos s]
  | m :: ms' => slice s pos (index m) :: splitAt s (endIndex m) ms'
  end.

Definition split (re : regexp) (s : jsstring) : list jsstring :=
  splitAt s 0 (allMatches re s (S (length s)) 0).

(** *** Pattern syntax *)

Definition only (c : ascii) : ascii -> bool := Ascii.eqb c.
Definition except (c : ascii) : ascii -> bool := fun d => negb (Ascii.eqb c d).
Definition oneOf (l : list ascii) : ascii -> bool :=
  fun d => existsb (fun c => Ascii.eqb c d) l.
(** [.] without the [s] flag *)
Definition dot : ascii -> bool := fun d => negb (isLineTerminator d).
(** [[\s\S]] *)
Definition anyChar : ascii -> bool := fun _ => true.
(** [\s], [\d], [\w] *)
Definition space : ascii -> bool := isWhiteSpace.
Definition digit : ascii -> bool :=
  fun d => (48 <=? code d) && (code d <=? 57).
Definition word : ascii -> bool :=
  fun d => let n := code d in
    ((65 <=? n) && (n <=? 90)) || ((97 <=? n) && (n <=? 122)) ||
    ((48 <=? n) && (n <=? 57)) || (n =? 95).

Fixpoint lit (s : jsstring) : regex :=
  match s with
  | [] => Eps
  | [c] => Chr (only c)
  | c :: s' => Seq (Chr (only c)) (lit s')
  end.

Fixpoint seq (l : list regex) : regex :=
  match l with
  | [] => Eps
  | [r] => r
  | r :: l' => Seq r (seq l')
  end.

Definition star (r : regex) := Rep true 0 None r.
Definition plus (r : regex) := Rep true 1 None r.
Definition opt (r : regex) := Rep true 0 (Some 1) r.
Definition lazyStar (r : regex) := Rep false 0 None r.
Definition lazyPlus (r : regex) := Rep false 1 None r.
Definition atLeast (n : nat) (r : regex) := Rep true n None r.
Definition between (n m : nat) (r : regex) := Rep true n (Some m) r.

End Regex.

Import Regex.

(** ** Node's [path] module, POSIX flavour

    [path] is a platform library, not code of the extension.  The functions
    are given on path segments; [resolve] needs the working directory of the
    process, which is a parameter ([cwd], as the list of its segments). *)

Module Path.

Definition sep : jsstring := ["/"].

(** The segments between slashes: [p.split('/')]. *)
Fixpoint splitSep (p : jsstring) : list jsstring :=
  match p with
  | [] => [[]]
  | c :: p' =>
      if Ascii.eqb c "/" then [] :: splitSep p'
      else match splitSep p' with
           | s :: l => (c :: s) :: l
           | [] => [[c]]
           end
  end.

Definition dotdot : jsstring := ["."; "."].

(** normalizeString: empty and "." segments vanish, ".." removes the segment
    before it when there is one that is not ".." itself.  [acc] is the
    result so far, last segment first. *)
Fixpoint normalizeSegs (allowAboveRoot : bool) (acc : list jsstring)
  (segs : list jsstring) : list jsstring :=
  match segs with
  | [] => rev acc
  | s :: segs' =>
      if JsString.eqb s [] || JsString.eqb s ["."] then
        normalizeSegs allowAboveRoot acc segs'
      else if JsString.eqb s dotdot then
        match acc with
        | a :: acc' =>
            if JsString.eqb a dotdot
            then normalizeSegs allowAboveRoot (dotdot :: acc) segs'
            else normalizeSegs allowAboveRoot acc' segs'
        | [] =>
            if allowAboveRoot
            then normalizeSegs allowAboveRoot [dotdot] segs'
            else normalizeSegs allowAboveRoot [] segs'
        end
      else normalizeSegs allowAboveRoot (s :: acc) segs'
  end.

Definition isAbsolute (p : jsstring) : bool := startsWith ["/"] p.

(** [path.normalize(p)] *)
Definition normalize (p : jsstring) : jsstring :=
  match p with
  | [] => ["."]
  | _ =>
      let abs := isAbsolute p in
      let trailing := endsWith ["/"] p in
      let body := join sep (normalizeSegs (negb abs) [] (splitSep p)) in
      match body with
      | [] => if abs then ["/"] else if trailing then ["."; "/"] else ["."]
      | _ =>
          let body' := if trailing then body ++ ["/"] else body in
          if abs then "/" :: body' else body'
      end
  end.

(** [path.join(a, b)] *)
Definition join2 (a b : jsstring) : jsstring :=
  match a, b with
  | [], [] => ["."]
  | [], _ => normalize b
  | _, [] => normalize a
  | _, _ => normalize (a ++ sep ++ b)
  end.

(** [path.resolve(p)] as the segments of the absolute result. *)
Definition resolveSegs (cwd : list jsstring) (p : jsstring) : list jsstring :=
  if isAbsolute p then normalizeSegs false [] (splitSep p)
  else normalizeSegs false (rev cwd) (splitSep p).

Fixpoint dropCommon (a b : list jsstring) : list jsstring * list jsstring :=
  match a, b with
  | x :: a', y :: b' =>
      if JsString.eqb x y then dropCommon a' b' else (a, b)
  | _, _ => (a, b)
  end.

(** [path.relative(from, to)] *)
Definition relative (cwd : list jsstring) (from to : jsstring) : jsstring :=
  if JsString.eqb from to then []
  else
    let (f, t) := dropCommon (resolveSegs cwd from) (resolveSegs cwd to) in
    join sep (map (fun _ => dotdot) f ++ t).

Fixpoint dirnameScan (r : list ascii) (matchedSlash : bool) : option nat :=
  match r with
  | [] => None
  | c :: r' =>
      if Ascii.eqb c "/" then
        if negb matchedSlash then Some (S (length r'))
        else dirnameScan r' matchedSlash
      else dirnameScan r' false
  end.

(** [path.dirname(p)] *)
Definition dirname (p : jsstring) : jsstring :=
  match p with
  | [] => ["."]
  | c :: tl =>
      let hasRoot := Ascii.eqb c "/" in
      match dirnameScan (rev tl) true with
      | None => if hasRoot then ["/"] else ["."]
      | Some e => if hasRoot && (e =? 1) then ["/"; "/"] else slice p 0 e
      end
  end.

Fixpoint dropSlashes (r : list ascii) : list ascii :=
  match r with
  | c :: r' => if Ascii.eqb c "/" then dropSlashes r' else r
  | [] => []
  end.

Fixpoint takeSegment (r : list ascii) : list ascii :=
  match r with
  | c :: r' => if Ascii.eqb c "/" then [] else c :: takeSegment r'
  | [] => []
  end.

(** [path.basename(p)] *)
Definition basename (p : jsstring) : jsstring :=
  rev (takeSegment (dropSlashes (rev p))).

End Path.

(** ** The export code of [src/exportPage.ts] *)

Module ExportPage.

Definition LF : ascii := ascii_of_nat 10.
Definition CR : ascii := ascii_of_nat 13.
Definition ESC : ascii := ascii_of_nat 27.
Definition hash : ascii := "#".
Definition backtick : ascii := "`".

(** *** getDocumentTitle *)

(** [/\n|\r/g] *)
Definition lineBreakRegex : regexp :=
  RegExp (Alt (Chr (only LF)) (Chr (only CR))) true false.

(** [/^#{1,6} /] *)
Definition atxRegex : regexp :=
  RegExp (seq [Bol; between 1 6 (Chr (only hash)); Chr (only " ")]) false false.

(** [/<!--(.*?)-->/g] *)
Definition commentRegex : regexp :=
  RegExp (seq [lit (str "<!--"); Group 1 (lazyStar (Chr dot)); lit (str "-->")])
    true false.

(** [/^#+/] *)
Definition leadingHashesRegex : regexp :=
  RegExp (Seq Bol (plus (Chr (only hash)))) false false.

(** [/#+$/] *)
Definition trailingHashesRegex : regexp :=
  RegExp (Seq (plus (Chr (only hash))) Eol) false false.

(** The predicate given to [find]. *)
Definition isAtxHeading (lineText : jsstring) : bool :=
  startsWith [hash] lineText && test atxRegex lineText.

(** The two assignments to [title] in the branch where a line was found. *)
Definition cleanTitle (title : jsstring) : jsstring :=
  let title := replace commentRegex [] title in
  trim (replace trailingHashesRegex []
          (replace leadingHashesRegex [] (trim title))).

Definition untitled : jsstring := str "Untitled".

(** The body of [getDocumentTitle] for a document with text [text].  A
    string is truthy when it is not empty. *)
Definition documentTitle (text : jsstring) : jsstring :=
  match find isAtxHeading (split lineBreakRegex text) with
  | Some (c :: l) => cleanTitle (c :: l)
  | _ => untitled
  end.

(** [getDocumentTitle(doc)]: [undefined] without a document. *)
Definition getDocumentTitle (doc : option jsstring) : option jsstring :=
  option_map documentTitle doc.

(** *** buildHtml: the table of contents *)

(** [/^```[\s\S]*?```/g] and [/^:::[\s\S]*?:::/g] *)
Definition leadingFenceRegex (delim : jsstring) : regexp :=
  RegExp (seq [Bol; lit delim; lazyStar (Chr anyChar); lit delim]) true false.

(** [/^#{2,6} /] *)
Definition tocLineRegex : regexp :=
  RegExp (seq [Bol; between 2 6 (Chr (only hash)); Chr (only " ")]) false false.

Definition markdownTextWithoutCodeBlock (markdownText : jsstring) : jsstring :=
  replace (leadingFenceRegex (str ":::")) []
    (replace (leadingFenceRegex (str "```")) [] markdownText).

(** [tocStringList] after the [unshift]. *)
Definition tocStringList (markdownText : jsstring) : list jsstring :=
  (str "# " ++ documentTitle markdownText)
  :: filter (test tocLineRegex)
       (split lineBreakRegex (markdownTextWithoutCodeBlock markdownText)).

(** One heading of the table of contents.  The objects are shared between
    [tocString], [tocStack] and the [children] arrays of their parents, so
    they live in a store and are referred to by their index in it. *)
Record headerObject : Type := HeaderObject {
  header : jsstring;
  headerLevel : nat;
  headerText : jsstring;
  headerId : jsstring;
  headerIdEncoded : jsstring;
  children : list nat
}.

(** [/ /g] and [/`/g] *)
Definition spaceRegex : regexp := RegExp (Chr (only " ")) true false.
Definition backtickRegex : regexp := RegExp (Chr (only backtick)) true false.

(** [header.match(/^#+/)?.[0].length || 0] *)
Definition headerLevelOf (header : jsstring) : nat :=
  match matchRe leadingHashesRegex header with
  | Some m => length (matched m)
  | None => 0
  end.

Definition headerTextOf (header : jsstring) : jsstring :=
  trim (replace trailingHashesRegex [] (replace leadingHashesRegex [] header)).

Definition headerIdOf (headerText : jsstring) : jsstring :=
  toLowerCase (replace spaceRegex ["-"] headerText).

Definition headerIdEncodedOf (headerId : jsstring) : jsstring :=
  encodeURIComponent (replace backtickRegex [] headerId).

Definition newHeaderObject (header : jsstring) : headerObject :=
  let headerText := headerTextOf header in
  let headerId := headerIdOf headerText in
  HeaderObject header (headerLevelOf header) headerText headerId
    (headerIdEncodedOf headerId) [].

(** The exception raised by reading a property of [undefined]. *)
Inductive jsError : Type := TypeError.

(** The state of the loop: the store of objects, [tocString] and
    [tocStack].  A JavaScript array may have holes, so the stack holds
    options. *)
Record tocState : Type := TocState {
  store : list headerObject;
  tocString : list nat;
  tocStack : list (option nat)
}.

(** [a[i]]: [undefined] for a hole and beyond the end. *)
Definition arrayGet (a : list (option nat)) (i : nat) : option nat :=
  match nth_error a i with
  | Some (Some v) => Some v
  | _ => None
  end.

Fixpoint replaceNth {A : Type} (l : list A) (i : nat) (v : A) : list A :=
  match l, i with
  | [], _ => []
  | _ :: l', 0 => v :: l'
  | x :: l', S i' => x :: replaceNth l' i' v
  end.

(** [a[i] = v]: an index beyond the end extends the array with holes. *)
Definition arraySet (a : list (option nat)) (i : nat) (v : nat) :
  list (option nat) :=
  if i <? length a then replaceNth a i (Some v)
  else a ++ repeat None (i - length a) ++ [Some v].

(** [parent.children.push(r)] on the object at [p] of the store. *)
Definition pushChild (st : list headerObject) (p r : nat) : list headerObject :=
  match nth_error st p with
  | Some o =>
      replaceNth st p
        (HeaderObject (header o) (headerLevel o) (headerText o) (headerId o)
           (headerIdEncoded o) (children o ++ [r]))
  | None => st
  end.

(** One iteration of the loop over [tocStringList]. *)
Definition tocStep (s : tocState) (header : jsstring) : jsError + tocState :=
  let o := newHeaderObject header in
  let r := length (store s) in
  let st := store s ++ [o] in
  match headerLevel o with
  | 1 => inr (TocState st (tocString s ++ [r]) [Some r])
  | 0 => inl TypeError
  | S (S k) =>
      match arrayGet (tocStack s) k with
      | None => inl TypeError
      | Some parent =>
          inr (TocState (pushChild st parent r) (tocString s)
                 (arraySet (tocStack s) (S k) r))
      end
  end.

Fixpoint tocLoop (s : tocState) (l : list jsstring) : jsError + tocState :=
  match l with
  | [] => inr s
  | h :: l' =>
      match tocStep s h with
      | inl e => inl e
      | inr s' => tocLoop s' l'
      end
  end.

(** The construction of [tocString] and [tocStack] from [tocStringList]. *)
Definition buildToc (tocStringList : list jsstring) : jsError + tocState :=
  if length tocStringList <=? 2 then inr (TocState [] [] [])
  else tocLoop (TocState [] [] []) tocStringList.

(** The tree a reference of the store stands for. *)
#[warnings="-register-all"]
Inductive tocTree : Type :=
| TocNode : headerObject -> list tocTree -> tocTree.

Fixpoint allSome {A : Type} (l : list (option A)) : option (list A) :=
  match l with
  | [] => Some []
  | None :: _ => None
  | Some x :: l' => option_map (cons x) (allSome l')
  end.

Fixpoint treeOf (fuel : nat) (st : list headerObject) (r : nat) :
  option tocTree :=
  match fuel with
  | 0 => None
  | S fuel' =>
      match nth_error st r with
      | None => None
      | Some o =>
          option_map (TocNode o) (allSome (map (treeOf fuel' st) (children o)))
      end
  end.

(** The roots of [tocString] as trees. *)
Definition tocTrees (s : tocState) : option (list tocTree) :=
  allSome (map (treeOf (S (length (store s))) (store s)) (tocString s)).



(** *** buildHtml: the block scanner *)

(** The values given to [markdownBlock.type]. *)
Inductive blockType : Type := plain | code | callout | unknown.

Record markdownBlock : Type := MarkdownBlock {
  text : jsstring;
  type : blockType
}.

(** [/(:{3,}|`{3,})(?:(.*$)\n)?([\s\S]*?)(?:(?:\n\1)|$)/m] *)
Definition codeBlockRegex : regexp :=
  RegExp
    (seq [Group 1 (Alt (atLeast 3 (Chr (only ":")))
                       (atLeast 3 (Chr (only backtick))));
          opt (Seq (Group 2 (Seq (star (Chr dot)) Eol)) (Chr (only LF)));
          Group 3 (lazyStar (Chr anyChar));
          Alt (Seq (Chr (only LF)) (Backref 1)) Eol])
    false true.

Definition blockTypeOf (codeBlock : jsstring) : blockType :=
  if startsWith (str "```") codeBlock then code
  else if startsWith (str ":::") codeBlock then callout
  else unknown.

(** The [while] loop over [codeBlockRegex.exec(markdownTextTarget)]: the
    list of blocks pushed so far and the value of [markdownTextTarget].
    The result is the list at the exit of the loop together with what is
    left in [markdownTextTarget] at that point. *)
Fixpoint blockLoop (fuel : nat) (markdownBlockList : list markdownBlock)
  (markdownTextTarget : jsstring) : option (list markdownBlock * jsstring) :=
  match fuel with
  | 0 => None
  | S fuel' =>
      match fst (exec codeBlockRegex markdownTextTarget 0) with
      | None => Some (markdownBlockList, markdownTextTarget)
      | Some m =>
          let plainText := slice markdownTextTarget 0 (index m) in
          let codeBlock := matched m in
          blockLoop fuel'
            (markdownBlockList ++
               [MarkdownBlock plainText plain;
                MarkdownBlock codeBlock (blockTypeOf codeBlock)])
            (sliceFrom markdownTextTarget (index m + length codeBlock))
      end
  end.

(** Every iteration removes at least three code units from the target, so
    the length of the text bounds the number of iterations. *)
Definition scanBlocks (markdownText : jsstring) :
  option (list markdownBlock * jsstring) :=
  blockLoop (S (length markdownText)) [] markdownText.

(** [markdownBlockList] after the loop. *)
Definition markdownBlockList (markdownText : jsstring) :
  option (list markdownBlock) :=
  option_map fst (scanBlocks markdownText).

(** The loop that builds [markdownTextReconstructed]. *)
Definition reconstruct (l : list markdownBlock) : jsstring :=
  fold_left (fun acc b => acc ++ text b) l [].

(** *** buildHtml: image references *)

Definition placeholderPrefix : jsstring := str "./TOBE_BASE64_IMGPATH_".
Definition placeholderSuffix : jsstring := str "_TO_BE_BASE64_IMGPATH".

(** [imgRegex], with the flags [gm].  In the order of the literal: [^],
    [!\[], group 1 [[^\]]*], [\]\(], the negative lookahead
    [(?!\.\/TOBE_BASE64_IMGPATH_)], group 2 [[^)]+], the optional
    [(?:\s*=\s*(\d+)x(\d+))?], [\)] and [$]. *)
Definition imgRegex : regexp :=
  RegExp
    (seq [Bol; lit (str "![");
          Group 1 (star (Chr (except "]")));
          lit (str "](");
          NegLook (lit placeholderPrefix);
          Group 2 (plus (Chr (except ")")));
          opt (seq [star (Chr space); Chr (only "="); star (Chr space);
                    Group 3 (plus (Chr digit)); Chr (only "x");
                    Group 4 (plus (Chr digit))]);
          Chr (only ")"); Eol])
    true true.

(** [m[n]] inside a template literal. *)
Definition capture (n : nat) (m : jsmatch) : jsstring :=
  match group n m with
  | Some v => v
  | None => str "undefined"
  end.

Definition isLocalSrc (imgSrc : jsstring) : bool :=
  negb (startsWith (str "http://") imgSrc) &&
  negb (startsWith (str "https://") imgSrc) &&
  negb (startsWith (str "data:image/") imgSrc) &&
  negb (startsWith (str "data:application/") imgSrc).

Definition imgReplacedOf (imgAlt imgSrc : jsstring) : jsstring :=
  str "![" ++ imgAlt ++ str "](" ++ placeholderPrefix ++ imgSrc
    ++ placeholderSuffix ++ str ")".

Definition splice (s : jsstring) (m : jsmatch) (by_ : jsstring) : jsstring :=
  slice s 0 (index m) ++ by_ ++ sliceFrom s (index m + length (matched m)).

(** The variables the inner [while] loop reads and writes: the text of the
    block, the local [markdownTextTarget], [imgSrcList] and
    [imgRegex.lastIndex]. *)
Record imgState : Type := ImgState {
  blockText : jsstring;
  target : jsstring;
  imgSrcList : list jsstring;
  lastIndex : nat
}.

Fixpoint imgLoop (fuel : nat) (s : imgState) : option imgState :=
  match fuel with
  | 0 => None
  | S fuel' =>
      match exec imgRegex (target s) (lastIndex s) with
      | (None, li) => Some (ImgState (blockText s) (target s) (imgSrcList s) li)
      | (Some imgMatch, li) =>
          let imgSrc := capture 2 imgMatch in
          let imgAlt := capture 1 imgMatch in
          if isLocalSrc imgSrc then
            let imgReplaced := imgReplacedOf imgAlt imgSrc in
            imgLoop fuel'
              (ImgState (splice (blockText s) imgMatch imgReplaced)
                 (splice (target s) imgMatch imgReplaced)
                 (imgSrcList s ++ [imgSrc]) li)
          else imgLoop fuel' (ImgState (blockText s) (target s) (imgSrcList s) li)
      end
  end.

(** The body of the [for] loop for one block.  A match starts at the
    beginning of a line after the end of the previous match, and the
    replacement adds no line, so there are at most as many iterations as
    the block has code units, plus the last one. *)
Definition rewriteBlock (b : markdownBlock) (srcs : list jsstring) (li : nat) :
  option (markdownBlock * list jsstring * nat) :=
  match type b with
  | plain | callout =>
      match imgLoop (S (S (length (text b)))) (ImgState (text b) (text b) srcs li) with
      | Some s => Some (MarkdownBlock (blockText s) (type b), imgSrcList s, lastIndex s)
      | None => None
      end
  | _ => Some (b, srcs, li)
  end.

(** The [for] loop over [markdownBlockList]: the rewritten list and
    [imgSrcList]. *)
Fixpoint rewriteBlocks (l : list markdownBlock) (srcs : list jsstring)
  (li : nat) : option (list markdownBlock * list jsstring) :=
  match l with
  | [] => Some ([], srcs)
  | b :: l' =>
      match rewriteBlock b srcs li with
      | None => None
      | Some (b', srcs', li') =>
          match rewriteBlocks l' srcs' li' with
          | None => None
          | Some (l'', srcs'') => Some (b' :: l'', srcs'')
          end
      end
  end.

(** The rewrite step of a render: it starts with an empty [imgSrcList] and
    a fresh [imgRegex]. *)
Definition rewriteImages (l : list markdownBlock) :
  option (list markdownBlock * list jsstring) :=
  rewriteBlocks l [] 0.

(** *** buildHtml: the formatting step *)

(** What [await format(...)] does: it yields the formatted page, or throws
    a value [e] whose [message] is a string (an [Error]), or throws a value
    for which [e.message.replace] is no function (a string, a number,
    [undefined], an object without message). *)
Inductive formatResult : Type :=
| Formatted : jsstring -> formatResult
| Throws : jsstring -> formatResult
| ThrowsValue : formatResult.

(** [/\u001b\[\d+m/g] *)
Definition ansiRegex : regexp :=
  RegExp (seq [Chr (only ESC); Chr (only "["); plus (Chr digit); Chr (only "m")])
    true false.

Section FormatStep.

Variable format : jsstring -> formatResult.
Variables warningPrefix warningMiddle : jsstring.

(** Lines 1448-1468: the final [html] and the warnings shown, given the
    warnings shown before the step.  The [catch] block evaluates
    [e.message.replace(...)] before it shows the warning: when that is no
    call of a string method the block itself throws a [TypeError], nothing
    is shown and [buildHtml] returns nothing. *)
Definition formatStep (title zennHtml : jsstring) (shown : list jsstring) :
  jsError + jsstring * list jsstring :=
  match format zennHtml with
  | Formatted html => inr (html, shown)
  | Throws message =>
      let warningMessage :=
        warningPrefix ++ title ++ warningMiddle ++ [LF; LF]
          ++ replace ansiRegex [] message in
      inr (zennHtml, shown ++ [warningMessage])
  | ThrowsValue => inl TypeError
  end.

End FormatStep.

(** *** exportPage: the output path *)

(** [/\.\w+?$/] *)
Definition extensionRegex : regexp :=
  RegExp (seq [Chr (only "."); lazyPlus (Chr word); Eol]) false false.

(** [/^([cdefghij]):\\/] *)
Definition driveRegex : regexp :=
  RegExp (seq [Bol; Group 1 (Chr (oneOf (str "cdefghij"))); Chr (only ":");
               Chr (only "\")])
    false false.

Definition dotHtml : jsstring := str ".html".

(** Lines 1496-1502, from the value [outPath] has after line 1495. *)
Definition deriveOutPath (outPath : jsstring) : jsstring :=
  let outPath := replace extensionRegex dotHtml outPath in
  let outPath :=
    replaceWith driveRegex
      (fun m => toUpperCase (capture 1 m) ++ [":"; "\"]) outPath in
  if negb (endsWith dotHtml outPath) then outPath ++ dotHtml else outPath.

(** Line 1495: an empty [outFolder] is falsy. *)
Definition initialOutPath (outFolder : option jsstring) (fileName : jsstring) :
  jsstring :=
  match outFolder with
  | Some (c :: f) => Path.join2 (c :: f) (Path.basename fileName)
  | _ => fileName
  end.

Definition outPathOf (outFolder : option jsstring) (fileName : jsstring) :
  jsstring :=
  deriveOutPath (initialOutPath outFolder fileName).

(** *** exportWorkspace: the folder tree *)

Record FileObject : Type := mkFileObject {
  fileName : jsstring;
  title : jsstring;
  filePath : jsstring
}.

#[warnings="-register-all"]
Inductive FolderObject : Type :=
| mkFolderObject (folderPath folderName folderNameAlias : jsstring)
    (folderObjectList : list FolderObject) (fileObjectList : list FileObject).

Definition folderPath (f : FolderObject) : jsstring :=
  match f with mkFolderObject p _ _ _ _ => p end.
Definition folderName (f : FolderObject) : jsstring :=
  match f with mkFolderObject _ n _ _ _ => n end.
Definition folderNameAlias (f : FolderObject) : jsstring :=
  match f with mkFolderObject _ _ a _ _ => a end.
Definition folderObjectList (f : FolderObject) : list FolderObject :=
  match f with mkFolderObject _ _ _ l _ => l end.
Definition fileObjectList (f : FolderObject) : list FileObject :=
  match f with mkFolderObject _ _ _ _ l => l end.

(** The folder of the list found by [find], updated in place by [upd], or
    a new folder pushed at the end when there is none.  A folder object is
    referred to by the list of its parent only, so updating it through
    [folderObjectPointer] is updating it where it is in the tree. *)
Fixpoint updateFolder (name : jsstring) (fresh : FolderObject)
  (upd : FolderObject -> FolderObject) (l : list FolderObject) :
  list FolderObject :=
  match l with
  | [] => [upd fresh]
  | f :: l' =>
      if JsString.eqb (folderName f) name then upd f :: l'
      else f :: updateFolder name fresh upd l'
  end.

(** The inner loop over [markdownFilePathList], from index [j] on, with
    [folderObjectPointer] at [folder]. *)
Fixpoint addFile (file : FileObject) (segs : list jsstring)
  (folder : FolderObject) : FolderObject :=
  match segs with
  | [] => folder
  | [_] =>
      mkFolderObject (folderPath folder) (folderName folder)
        (folderNameAlias folder) (folderObjectList folder)
        (fileObjectList folder ++ [file])
  | name :: segs' =>
      let fresh :=
        mkFolderObject (Path.join2 (folderPath folder) name) name name [] [] in
      mkFolderObject (folderPath folder) (folderName folder)
        (folderNameAlias folder)
        (updateFolder name fresh (addFile file segs') (folderObjectList folder))
        (fileObjectList folder)
  end.

Section Workspace.

(** The working directory of the process, for [path.relative]. *)
Variable cwd : list jsstring.

(** The text [workspace.openTextDocument] gives for a path. *)
Variable openTextDocument : jsstring -> jsstring.

(** [getDocumentTitle(doc) || 'Untitled'] *)
Definition titleOrUntitled (doc : jsstring) : jsstring :=
  match getDocumentTitle (Some doc) with
  | Some (c :: t) => c :: t
  | _ => untitled
  end.

(** The loop over the sorted [markdownFileList]. *)
Definition buildFolderObject (rootPath : jsstring)
  (markdownFileList : list jsstring) : FolderObject :=
  fold_left
    (fun folderObject file =>
       let markdownFilePath := Path.relative cwd rootPath file in
       let markdownFilePathList := Path.splitSep markdownFilePath in
       let fileObject :=
         mkFileObject (Path.basename markdownFilePath)
           (titleOrUntitled (openTextDocument file)) markdownFilePath in
       addFile fileObject markdownFilePathList folderObject)
    markdownFileList
    (mkFolderObject [] (Path.basename rootPath) (str "root") [] []).

(** *** exportWorkspace: the navigation menu *)

Definition dq : jsstring := [ascii_of_nat 34].

(** [/\\/g] and [/\.md$/] *)
Definition backslashRegex : regexp := RegExp (Chr (only "\")) true false.
Definition mdRegex : regexp :=
  RegExp (seq [Chr (only "."); Chr (only "m"); Chr (only "d"); Eol]) false false.

Definition fileHrefOf (relativeTargetFilePath : jsstring) (f : FileObject) :
  jsstring :=
  replace mdRegex dotHtml
    (replace backslashRegex ["/"]
       (Path.relative cwd (Path.dirname relativeTargetFilePath) (filePath f))).

(** The [li] element of a file. *)
Definition fileItem (relativeTargetFilePath : jsstring) (f : FileObject) :
  jsstring :=
  let fileHref := fileHrefOf relativeTargetFilePath f in
  if JsString.eqb relativeTargetFilePath (filePath f) then
    str "<li class=" ++ dq ++ str "file active" ++ dq ++ str "><a href=" ++ dq
      ++ fileHref ++ dq ++ str ">" ++ title f ++ str "</a></li>"
  else
    str "<li class=" ++ dq ++ str "file" ++ dq ++ str "><a href=" ++ dq
      ++ fileHref ++ dq ++ str ">" ++ title f ++ str "</a></li>".

Definition folderHrefOf (relativeTargetFilePath : jsstring)
  (folderObjectNext : FolderObject) : jsstring :=
  Path.relative cwd (Path.dirname relativeTargetFilePath)
    (folderPath folderObjectNext).

(** The opening of the [li] element of a folder. *)
Definition folderItemOpen (relativeTargetFilePath : jsstring)
  (folderObjectNext : FolderObject) : jsstring :=
  let relativeTargetFolderPath := Path.dirname relativeTargetFilePath in
  let folderHref := folderHrefOf relativeTargetFilePath folderObjectNext in
  if JsString.eqb (folderPath folderObjectNext) relativeTargetFolderPath then
    str "<li class=" ++ dq ++ str "folder active" ++ dq ++ str "><a href=" ++ dq
      ++ folderHref ++ dq ++ str ">" ++ folderNameAlias folderObjectNext
      ++ str "</a>"
  else
    str "<li class=" ++ dq ++ str "folder" ++ dq ++ str "><a href=" ++ dq
      ++ folderHref ++ dq ++ str ">" ++ folderNameAlias folderObjectNext
      ++ str "</a>".

Fixpoint recursiveFileNavigationHtmlFactory (folderObject : FolderObject)
  (relativeTargetFilePath : jsstring) (fileNavigationHtmlString : jsstring)
  {struct folderObject} : jsstring :=
  match folderObject with
  | mkFolderObject _ _ _ folders files =>
      let fileNavigationHtmlString :=
        fold_left
          (fun acc fileObject => acc ++ fileItem relativeTargetFilePath fileObject)
          files fileNavigationHtmlString in
      (fix folderLoop (l : list FolderObject) (acc : jsstring) : jsstring :=
         match l with
         | [] => acc
         | folderObjectNext :: l' =>
             folderLoop l'
               (acc ++ folderItemOpen relativeTargetFilePath folderObjectNext
                  ++ str "<ul>"
                  ++ recursiveFileNavigationHtmlFactory folderObjectNext
                       relativeTargetFilePath []
                  ++ str "</ul>" ++ str "</li>")
         end) folders fileNavigationHtmlString
  end.

End Workspace.

End ExportPage.

Import ExportPage.

(** ** An example workspace *)

(** The workspace of the example: the root [/ws] holds [a/b/y.md],
    [a/x.md] and [z.md]; the text of every document is a level-1 heading
    with its file name. *)
Definition exampleCwd : list jsstring := [js "ws"].
Definition exampleRoot : jsstring := js "/ws".
Definition exampleFiles : list jsstring :=
  map js ["/ws/a/b/y.md"; "/ws/a/x.md"; "/ws/z.md"]%string.
Definition exampleOpen (p : jsstring) : jsstring :=
  js "# " ++ Path.basename p.
Definition exampleTree : FolderObject :=
  buildFolderObject exampleCwd exampleOpen exampleRoot exampleFiles.
Definition exampleNavigation : jsstring :=
  recursiveFileNavigationHtmlFactory exampleCwd exampleTree (js "a/b/y.md") [].

(** ** The output path in the words of the specification *)

Definition isExtension (e : jsstring) : bool :=
  match e with
  | [] => false
  | _ => forallb word e
  end.

(** The trailing extension, a dot followed to the end of the path by word
    characters, replaced by [.html]. *)
Fixpoint replaceExtensionSpec (p : jsstring) : jsstring :=
  match p with
  | [] => []
  | c :: p' =>
      if Ascii.eqb "." c && isExtension p' then dotHtml
      else c :: replaceExtensionSpec p'
  end.

(** The drive letter of a path that starts with one of the letters c to j,
    a colon and a backslash, in upper case. *)
Definition upperDriveSpec (p : jsstring) : jsstring :=
  match p with
  | d :: c1 :: c2 :: rest =>
      if oneOf (str "cdefghij") d && Ascii.eqb ":" c1 && Ascii.eqb "\" c2
      then upperChar d :: ":" :: "\" :: rest
      else p
  | _ => p
  end.

Definition deriveOutPathSpec (p : jsstring) : jsstring :=
  let q := upperDriveSpec (replaceExtensionSpec p) in
  if endsWith dotHtml q then q else q ++ dotHtml.

(** ** Notions used in the proofs *)

(** A quantified character class, by recursion on the text. *)
Fixpoint repChr (p : ascii -> bool) (greedy : bool) (mn : nat)
  (mx : option nat) (bef aft : list ascii) (cs : list (nat * jsstring))
  (c : cont) {struct aft} : option mstate :=
  match mx with
  | Some 0 => c (MState bef aft cs)
  | _ =>
      let more :=
        match aft with
        | ch :: aft' =>
            if p ch then repChr p greedy (pred mn) (decr mx) (ch :: bef) aft' cs c
            else None
        | [] => None
        end in
      if negb (mn =? 0) then more
      else if greedy then
        match more with
        | Some z => Some z
        | None => c (MState bef aft cs)
        end
      else
        match c (MState bef aft cs) with
        | Some z => Some z
        | None => more
        end
  end.

(** Continuations that agree on the states at or after the current position
    give the same result. *)
Definition agreeFrom (x : mstate) (c1 c2 : cont) : Prop :=
  forall y, length (after y) <= length (after x) -> c1 y = c2 y.

(** [reach x y]: [y] is a position of the same string at or after [x]. *)
Definition reach (x y : mstate) : Prop :=
  exists w, before y = rev w ++ before x /\ after x = w ++ after y.

Definition reaches (step : mstate -> cont -> option mstate) : Prop :=
  forall x c z, step x c = Some z -> exists y, reach x y /\ c y = Some z.

(** A lower bound on the number of code units a pattern consumes. *)
Fixpoint minLen (r : regex) : nat :=
  match r with
  | Chr _ => 1
  | Seq a b => minLen a + minLen b
  | Alt a b => Nat.min (minLen a) (minLen b)
  | Rep _ mn None a => mn * minLen a
  | Rep _ mn (Some k) a => Nat.min mn k * minLen a
  | Group _ a => minLen a
  | _ => 0
  end.

Definition reachesBy (n : nat) (step : mstate -> cont -> option mstate) : Prop :=
  forall x c z, step x c = Some z ->
    exists y, reach x y /\ length (before x) + n <= length (before y) /\
              c y = Some z.

Definition repBound (mn : nat) (mx : option nat) : nat :=
  match mx with
  | None => mn
  | Some k => Nat.min mn k
  end.

(** The number of leading code units in a class. *)
Fixpoint countWhile (p : ascii -> bool) (s : jsstring) : nat :=
  match s with
  | ch :: s' => if p ch then S (countWhile p s') else 0
  | [] => 0
  end.

(** A pattern is local when a match at a position depends on the text from
    that position only; [lenAt] gives the length of the match there. *)

(** The first match at or after the start of a text: offset and length. *)
Fixpoint firstMatch (lenAt : jsstring -> option nat) (aft : jsstring) :
  option (nat * nat) :=
  match lenAt aft with
  | Some n => Some (0, n)
  | None =>
      match aft with
      | [] => None
      | _ :: aft' =>
          match firstMatch lenAt aft' with
          | Some (k, n) => Some (S k, n)
          | None => None
          end
      end
  end.

(** Replacing every match, left to right: [skip] code units of the current
    match are still to be dropped. *)
Fixpoint replaceGo (lenAt : jsstring -> option nat) (by_ : jsstring)
  (skip : nat) (aft : jsstring) : jsstring :=
  match aft with
  | [] => []
  | c :: aft' =>
      match skip with
      | S k => replaceGo lenAt by_ k aft'
      | 0 =>
          match lenAt aft with
          | Some n => by_ ++ replaceGo lenAt by_ (n - 1) aft'
          | None => c :: replaceGo lenAt by_ 0 aft'
          end
      end
  end.

(** Splitting at every match; [cur] is the current piece, last code unit
    first. *)
Fixpoint splitGo (lenAt : jsstring -> option nat) (skip : nat)
  (cur aft : jsstring) : list jsstring :=
  match aft with
  | [] => [rev cur]
  | c :: aft' =>
      match skip with
      | S k => splitGo lenAt k cur aft'
      | 0 =>
          match lenAt aft with
          | Some n => rev cur :: splitGo lenAt (n - 1) [] aft'
          | None => splitGo lenAt 0 (c :: cur) aft'
          end
      end
  end.

(** Replacing and splitting by repeated search of the first match. *)
Fixpoint replaceFM (lenAt : jsstring -> option nat) (by_ : jsstring)
  (fuel : nat) (aft : jsstring) : jsstring :=
  match fuel with
  | 0 => aft
  | S fuel' =>
      match firstMatch lenAt aft with
      | None => aft
      | Some (k, n) =>
          firstn k aft ++ by_ ++ replaceFM lenAt by_ fuel' (skipn (k + n) aft)
      end
  end.

Fixpoint splitFM (lenAt : jsstring -> option nat) (fuel : nat)
  (aft : jsstring) : list jsstring :=
  match fuel with
  | 0 => [aft]
  | S fuel' =>
      match firstMatch lenAt aft with
      | None => [aft]
      | Some (k, n) => firstn k aft :: splitFM lenAt fuel' (skipn (k + n) aft)
      end
  end.

(** Lines of a text *)

(** ** Lines *)
Definition isLineBreak (c : ascii) : bool := Ascii.eqb LF c || Ascii.eqb CR c.

(** The lines of a text, cut at every LF and every CR. *)
Fixpoint splitLines (cur s : jsstring) : list jsstring :=
  match s with
  | [] => [rev cur]
  | c :: s' =>
      if isLineBreak c then rev cur :: splitLines [] s'
      else splitLines (c :: cur) s'
  end.

Definition lines (s : jsstring) : list jsstring := splitLines [] s.

Definition noLineBreak (l : jsstring) : bool :=
  forallb (fun c => negb (isLineBreak c)) l.

Definition lineBreakAt (aft : jsstring) : option nat :=
  match aft with
  | c :: _ => if isLineBreak c then Some 1 else None
  | [] => None
  end.

(** What may follow a line: nothing or a line break. *)
Definition endsLine (rest : jsstring) : bool :=
  match rest with
  | [] => true
  | c :: _ => isLineBreak c
  end.


(** Every filled slot of the stack was written by a heading of the level
    of the slot. *)
Definition stackFrom (levels : list nat) (st : list (option nat)) : Prop :=
  forall k v, arrayGet st k = Some v -> In (S k) levels.

(** The length of a colour sequence at the start of a text: ESC, an
    opening bracket, one or more digits and the letter m. *)
Definition sgrAt (aft : jsstring) : option nat :=
  match aft with
  | e :: b :: rest =>
      let d := countWhile digit rest in
      if Ascii.eqb ESC e && Ascii.eqb "[" b && (1 <=? d)
         && startsWith ["m"] (skipn d rest)
      then Some (d + 3) else None
  | _ => None
  end.

(** The text without its colour sequences, read left to right. *)
Definition removeSgr (s : jsstring) : jsstring := replaceGo sgrAt [] 0 s.

(** A relative path without a ".." segment. *)
Definition isPlain (p : jsstring) : bool :=
  negb (Path.isAbsolute p)
  && forallb (fun s => negb (JsString.eqb s Path.dotdot)) (Path.splitSep p).

(** What follows the negative lookahead in [imgRegex]. *)
Definition imgTail : regex :=
  seq [Group 2 (plus (Chr (except ")")));
       opt (seq [star (Chr space); Chr (only "="); star (Chr space);
                 Group 3 (plus (Chr digit)); Chr (only "x");
                 Group 4 (plus (Chr digit))]);
       Chr (only ")"); Eol].

(** Lines 1707-1708 of [exportWorkspace]: the output path of a document of
    the workspace. *)
Definition workspaceOutPath (outFolder : option jsstring)
  (markdownFilePath : jsstring) : jsstring :=
  replace extensionRegex dotHtml
    (match outFolder with
     | Some (c :: f) => Path.join2 (c :: f) (Path.basename markdownFilePath)
     | _ => markdownFilePath
     end).

(** [parent.children.push(r)] on one object. *)
Definition addChild (o : headerObject) (r : nat) : headerObject :=
  HeaderObject (header o) (headerLevel o) (headerText o) (headerId o)
    (headerIdEncoded o) (children o ++ [r]).

(** The objects of the store respect the levels: a child is one level below
    its parent and was created after it. *)
Definition levelsOk (st : list headerObject) : Prop :=
  forall p o c, nth_error st p = Some o -> In c (children o) ->
    p < c /\ exists oc, nth_error st c = Some oc /\
                        headerLevel oc = S (headerLevel o).

(** The slot [k] of the stack holds an object of level [k + 1]. *)
Definition stackOk (st : list headerObject) (stack : list (option nat)) : Prop :=
  forall k v, arrayGet stack k = Some v ->
    exists o, nth_error st v = Some o /\ headerLevel o = S k.

(** The table of contents of the four lines of the example. *)
Definition exampleTocLines : list jsstring :=
  map js ["# Title"; "## A"; "### A1"; "## B"]%string.

Definition exampleToc : tocState :=
  Eval vm_compute in
    match buildToc exampleTocLines with
    | inr s => s
    | inl _ => TocState [] [] []
    end.

(** No heading is more than one level below the one before it; [prev] is
    the level of the heading before. *)
Fixpoint nested (prev : nat) (levels : list nat) : bool :=
  match levels with
  | [] => true
  | n :: r => (2 <=? n) && (n <=? S prev) && nested n r
  end.

(** A list of lines that starts with a level-1 heading and goes down by at
    most one level at a time. *)
Definition wellNested (l : list jsstring) : bool :=
  match map headerLevelOf l with
  | 1 :: r => nested 1 r
  | _ => false
  end.

(** The slots below [n] are filled. *)
Definition filledBelow (n : nat) (stack : list (option nat)) : Prop :=
  forall k, k < n -> arrayGet stack k <> None.

Definition repOk (mn : nat) (mx : option nat) : Prop :=
  match mx with
  | Some m => mn <= m
  | None => True
  end.

(** Lines 52-54 of the first variant of [buildHtml]: the heading lines of
    levels 1 to 4 of the raw text, without a synthetic title. *)
Definition legacyAtxRegex : regexp :=
  RegExp (seq [Bol; between 1 4 (Chr (only hash)); Chr (only " ")]) false false.

Definition legacyTocStringList (text : jsstring) : list jsstring :=
  filter (fun lineText => startsWith [hash] lineText && test legacyAtxRegex lineText)
    (split lineBreakRegex text).

(** The optional size of [imgRegex]. *)
Definition imgSize : regex :=
  Seq (star (Chr space))
    (seq [Chr (only "="); star (Chr space); Group 3 (plus (Chr digit));
          Chr (only "x"); Group 4 (plus (Chr digit))]).

(** A text on one line. *)
Definition oneLine (s : jsstring) : bool :=
  forallb (fun c => negb (isLineTerminator c)) s.

(** The markdown of an image reference. *)
Definition imgReference (alt src : jsstring) : jsstring :=
  str "![" ++ alt ++ str "](" ++ src ++ str ")".

(** A text without a run of three colons or three backticks. *)
Definition delimiterFree (s : jsstring) : bool :=
  negb (includes (str ":::") s) && negb (includes (str "```") s).

(** A block of type code that starts with three backticks or of type
    callout that starts with three colons. *)
Definition fenced (b : markdownBlock) : bool :=
  match type b with
  | code => startsWith (str "```") (text b)
  | callout => startsWith (str ":::") (text b)
  | _ => false
  end.

(** A block of type plain. *)
Definition isPlainBlock (b : markdownBlock) : bool :=
  match type b with plain => true | _ => false end.

(** A list made of pairs: a plain block without delimiter, then a fenced
    block. *)
Fixpoint blockPairs (l : list markdownBlock) : bool :=
  match l with
  | [] => true
  | p :: f :: l' =>
      isPlainBlock p && delimiterFree (text p) && fenced f && blockPairs l'
  | _ => false
  end.

(** The files of a folder tree, in the order of the navigation menu: the
    files of the folder, then those of its folders. *)
Fixpoint allFiles (f : FolderObject) : list FileObject :=
  match f with
  | mkFolderObject _ _ _ folders files =>
      files ++
      (fix go (l : list FolderObject) : list FileObject :=
         match l with
         | [] => []
         | g :: l' => allFiles g ++ go l'
         end) folders
  end.

(** [folderObjectList.find(folderObject => folderObject.folderName === name)] *)
Fixpoint findFolder (name : jsstring) (l : list FolderObject) :
  option FolderObject :=
  match l with
  | [] => None
  | f :: l' => if JsString.eqb (folderName f) name then Some f
               else findFolder name l'
  end.

(** The folder reached from [f] through the folders named in [names]. *)
Fixpoint descend (names : list jsstring) (f : FolderObject) :
  option FolderObject :=
  match names with
  | [] => Some f
  | n :: names' =>
      match findFolder n (folderObjectList f) with
      | Some g => descend names' g
      | None => None
      end
  end.

(** The file object made for a document of the workspace. *)
Definition fileObjectOf (cwd : list jsstring)
  (openTextDocument : jsstring -> jsstring) (rootPath file : jsstring) :
  FileObject :=
  mkFileObject (Path.basename (Path.relative cwd rootPath file))
    (titleOrUntitled (openTextDocument file))
    (Path.relative cwd rootPath file).

(** No two folders of a folder have the same name, at any depth. *)
Fixpoint uniqueNames (f : FolderObject) : Prop :=
  match f with
  | mkFolderObject _ _ _ folders _ =>
      NoDup (map folderName folders) /\
      (fix go (l : list FolderObject) : Prop :=
         match l with
         | [] => True
         | g :: l' => uniqueNames g /\ go l'
         end) folders
  end.

(** Induction on a folder tree. *)
Fixpoint FolderObject_nested_ind (P : FolderObject -> Prop)
  (H : forall p n a folders files,
         Forall P folders -> P (mkFolderObject p n a folders files))
  (f : FolderObject) : P f :=
  match f with
  | mkFolderObject p n a folders files =>
      H p n a folders files
        ((fix go (l : list FolderObject) : Forall P l :=
            match l with
            | [] => Forall_nil P
            | g :: l' =>
                Forall_cons g (FolderObject_nested_ind P H g) (go l')
            end) folders)
  end.

(** The [li] element of a folder with the menu of its content. *)
Definition folderItem (cwd : list jsstring) (target : jsstring)
  (g : FolderObject) : jsstring :=
  folderItemOpen cwd target g ++ str "<ul>"
    ++ recursiveFileNavigationHtmlFactory cwd g target []
    ++ str "</ul>" ++ str "</li>".

(** [framed G x y]: [y] is a position at or after [x] and the captures of the
    groups outside [G] are those of [x]. *)
Definition framed (G : list nat) (x y : mstate) : Prop :=
  reach x y /\ forall n, ~ In n G -> getCap n (caps y) = getCap n (caps x).

(** A matcher that changes the captures of the groups in [G] only. *)
Definition frames (G : list nat) (step : mstate -> cont -> option mstate) :
  Prop :=
  forall x c z, step x c = Some z -> exists y, framed G x y /\ c y = Some z.

(** The number of line terminators of a text. *)
Definition lineBreaks (s : jsstring) : nat :=
  length (filter isLineTerminator s).

(** 1 when [^] holds with the [m] flag after the code units [bef] (in
    reverse order), 0 otherwise. *)
Definition bolb (bef : list ascii) : nat :=
  match bef with
  | [] => 1
  | c :: _ => if isLineTerminator c then 1 else 0
  end.

(** The number of positions from [p] to the end of [t] where a line
    starts. *)
Definition lineStartsAt (t : jsstring) (p : nat) : nat :=
  bolb (rev (firstn p t)) + lineBreaks (skipn p t).

(** The same for a [lastIndex] that may lie beyond the end of the text,
    where [exec] fails at once. *)
Definition lineStartsFrom (t : jsstring) (p : nat) : nat :=
  if length t <? p then 0 else lineStartsAt t p.

(** The entries of [tocString] are headings of level 1. *)
Definition rootsOk (st : list headerObject) (roots : list nat) : Prop :=
  forall r, In r roots ->
    exists o, nth_error st r = Some o /\ headerLevel o = 1.

(** A tree whose root has level [d] and in which every child is one level
    below its parent. *)
Fixpoint depthIs (d : nat) (t : tocTree) : Prop :=
  match t with
  | TocNode o l =>
      headerLevel o = d /\
      (fix go (l : list tocTree) : Prop :=
         match l with
         | [] => True
         | t' :: l' => depthIs (S d) t' /\ go l'
         end) l
  end.

(** A text whose last code unit, if it has one, is outside the class. *)
Definition endsWithout (p : ascii -> bool) (s : jsstring) : bool :=
  match rev s with
  | d :: _ => negb (p d)
  | [] => true
  end.

(** A title that the clean-up leaves alone: it is not empty, has no white
    space at either end and does not end with a hash. *)
Definition plainTitle (t : jsstring) : bool :=
  match t, rev t with
  | c :: _, d :: _ =>
      negb (isWhiteSpace c) && negb (isWhiteSpace d)
      && negb (Ascii.eqb hash d)
  | _, _ => false
  end.

(** The decimal digits of a number, as a template literal writes it. *)
Definition numberToString (n : nat) : jsstring :=
  list_ascii_of_string (NilZero.string_of_uint (Nat.to_uint n)).

(** Line 1264 of [tocBody]: the opening of the [li] element of a heading,
    with the value of [tocLevel]. *)
Definition tocItemOpen (tocLevel : nat) (tocObject : headerObject) : jsstring :=
  str "<li class=" ++ dq ++ str "toc-level-" ++ numberToString tocLevel ++ dq
    ++ str "><a href=" ++ dq ++ str "#" ++ headerIdEncoded tocObject ++ dq
    ++ str " title=" ++ dq ++ header tocObject ++ dq ++ str ">"
    ++ headerText tocObject ++ str "</a>".

(** [tocBody], lines 1259-1275, on the tree a heading object stands for.
    The variable [tocLevel] of the enclosing function is read and written
    by every call: the result is the string and the value of [tocLevel]
    at the return. *)
Fixpoint tocBody (tocObject : tocTree) (tocLevel : nat) : jsstring * nat :=
  match tocObject with
  | TocNode o children =>
      let tocHtmlString := tocItemOpen tocLevel o in
      match children with
      | [] => (tocHtmlString ++ str "</li>", tocLevel)
      | _ :: _ =>
          let (tocHtmlString, tocLevel) :=
            (fix childLoop (l : list tocTree) (acc : jsstring) (lvl : nat) :
               jsstring * nat :=
               match l with
               | [] => (acc, lvl)
               | child :: l' =>
                   let (s, lvl') := tocBody child lvl in
                   childLoop l' (acc ++ s) lvl'
               end) children (tocHtmlString ++ str "<ul>") (S tocLevel) in
          (tocHtmlString ++ str "</ul>" ++ str "</li>", pred tocLevel)
      end
  end.

(** Lines 1276-1279: the loop over [tocString]. *)
Fixpoint tocHtmlStringOf (tocString : list tocTree) (acc : jsstring)
  (tocLevel : nat) : jsstring * nat :=
  match tocString with
  | [] => (acc, tocLevel)
  | t :: l =>
      let (s, tocLevel') := tocBody t tocLevel in
      tocHtmlStringOf l (acc ++ s) tocLevel'
  end.

(** The entry of a heading with the level of the heading as its class. *)
Fixpoint tocEntry (t : tocTree) : jsstring :=
  match t with
  | TocNode o children =>
      tocItemOpen (headerLevel o) o
        ++ match children with
           | [] => []
           | _ :: _ => str "<ul>" ++ flat_map tocEntry children ++ str "</ul>"
           end
        ++ str "</li>"
  end.

(** Induction on a tree of headings. *)
Fixpoint tocTree_nested_ind (P : tocTree -> Prop)
  (H : forall o l, Forall P l -> P (TocNode o l)) (t : tocTree) : P t :=
  match t with
  | TocNode o l =>
      H o l
        ((fix go (l : list tocTree) : Forall P l :=
            match l with
            | [] => Forall_nil P
            | c :: l' => Forall_cons c (tocTree_nested_ind P H c) (go l')
            end) l)
  end.

(** ** The title of a document in the words of the specification *)










(** * Properties *)

(** ** Strings *)

Lemma jseqb_spec (a b : jsstring) : reflect (a = b) (JsString.eqb a b).
Proof.
  revert b; induction a as [|x a IH]; intros [|y b]; simpl;
    try (constructor; congruence).
  destruct (Ascii.eqb_spec x y) as [->|N]; simpl.
  - destruct (IH b) as [->|N]; constructor; congruence.
  - constructor; congruence.
Qed.

Lemma jseqb_refl (a : jsstring) : JsString.eqb a a = true.
Proof. destruct (jseqb_spec a a); congruence. Qed.

(** ** The matcher *)

Lemma clearCaps_nil cs : clearCaps [] cs = cs.
Proof.
  unfold clearCaps. induction cs as [|e cs IH]; simpl; [reflexivity|].
  f_equal; exact IH.
Qed.

Lemma repeatMatcher_S step inner greedy fuel mn mx x c :
  repeatMatcher step inner greedy (S fuel) mn mx x c
  = match mx with
    | Some 0 => c x
    | _ =>
        let d : cont := fun y =>
          if (mn =? 0) && (length (after y) =? length (after x)) then None
          else repeatMatcher step inner greedy fuel (pred mn) (decr mx) y c in
        let xr := MState (before x) (after x) (clearCaps inner (caps x)) in
        if negb (mn =? 0) then step xr d
        else if greedy then
          match step xr d with
          | Some z => Some z
          | None => c x
          end
        else
          match c x with
          | Some z => Some z
          | None => step xr d
          end
    end.
Proof. reflexivity. Qed.

Lemma repeatMatcher_Chr m p greedy :
  forall aft fuel mn mx bef cs c,
    length aft < fuel ->
    repeatMatcher (run m (Chr p)) [] greedy fuel mn mx (MState bef aft cs) c
    = repChr p greedy mn mx bef aft cs c.
Proof.
  induction aft as [|ch aft IH]; intros fuel mn mx bef cs c Hf;
    (destruct fuel as [|fuel]; [inversion Hf|]);
    rewrite repeatMatcher_S; cbn [before after caps]; rewrite clearCaps_nil.
  - destruct mx as [[|k]|]; reflexivity.
  - cbn [repChr run after before caps].
    assert (E : (length aft =? length (ch :: aft)) = false)
      by (apply Nat.eqb_neq; simpl; lia).
    rewrite E, andb_false_r.
    simpl in Hf.
    destruct mx as [[|k]|]; [reflexivity| |];
      (destruct (p ch); [rewrite IH by lia|]; reflexivity).
Qed.

Lemma run_Rep m greedy mn mx a x c :
  run m (Rep greedy mn mx a) x c
  = repeatMatcher (run m a) (groupsOf a) greedy
      (S (S (mn + length (after x)))) mn mx x c.
Proof. reflexivity. Qed.

Lemma run_Seq m a b x c :
  run m (Seq a b) x c = run m a x (fun y => run m b y c).
Proof. reflexivity. Qed.

Lemma run_Alt m a b x c :
  run m (Alt a b) x c
  = match run m a x c with
    | Some z => Some z
    | None => run m b x c
    end.
Proof. reflexivity. Qed.

Lemma run_Group m n a x c :
  run m (Group n a) x c
  = run m a x (fun y =>
      c (MState (before y) (after y) (setCap n (consumed x y) (caps y)))).
Proof. reflexivity. Qed.

Lemma run_NegLook m a x c :
  run m (NegLook a) x c
  = match run m a x (fun y => Some y) with
    | Some _ => None
    | None => c x
    end.
Proof. reflexivity. Qed.

Lemma run_Bol m x c :
  run m Bol x c
  = match before x with
    | [] => c x
    | ch :: _ => if m && isLineTerminator ch then c x else None
    end.
Proof. reflexivity. Qed.

Lemma run_Rep_Chr m p greedy mn mx x c :
  run m (Rep greedy mn mx (Chr p)) x c
  = repChr p greedy mn mx (before x) (after x) (caps x) c.
Proof.
  rewrite run_Rep; destruct x as [bef aft cs]; cbn [groupsOf before after caps].
  apply repeatMatcher_Chr; lia.
Qed.

Lemma advance_length s : forall x y,
  advance s x = Some y -> length (after y) <= length (after x).
Proof.
  induction s as [|ch s IH]; intros x y H; simpl in H.
  - inversion H; subst; lia.
  - destruct (after x) as [|d aft] eqn:E; [discriminate|].
    destruct (Ascii.eqb ch d); [|discriminate].
    apply IH in H; simpl in *; lia.
Qed.

Lemma repeatMatcher_ext step inner greedy :
  (forall x c1 c2, agreeFrom x c1 c2 -> step x c1 = step x c2) ->
  forall fuel mn mx x c1 c2,
    agreeFrom x c1 c2 ->
    repeatMatcher step inner greedy fuel mn mx x c1
    = repeatMatcher step inner greedy fuel mn mx x c2.
Proof.
  intros Hstep; induction fuel as [|fuel IH]; intros mn mx x c1 c2 H;
    [reflexivity|].
  rewrite !repeatMatcher_S.
  assert (Hx : c1 x = c2 x) by (apply H; lia).
  assert (Hd : step (MState (before x) (after x) (clearCaps inner (caps x)))
                 (fun y => if (mn =? 0) && (length (after y) =? length (after x))
                           then None
                           else repeatMatcher step inner greedy fuel (pred mn)
                                  (decr mx) y c1)
               = step (MState (before x) (after x) (clearCaps inner (caps x)))
                 (fun y => if (mn =? 0) && (length (after y) =? length (after x))
                           then None
                           else repeatMatcher step inner greedy fuel (pred mn)
                                  (decr mx) y c2)).
  { apply Hstep; intros y Hy; cbn [after] in Hy.
    destruct ((mn =? 0) && (length (after y) =? length (after x)));
      [reflexivity|].
    apply IH; intros z Hz; apply H; lia. }
  cbv zeta; rewrite Hd, Hx; reflexivity.
Qed.

Lemma run_ext m r :
  forall x c1 c2, agreeFrom x c1 c2 -> run m r x c1 = run m r x c2.
Proof.
  induction r as [|p|a IHa b IHb|a IHa b IHb|g mn mx a IHa|n a IHa|n| | |a IHa];
    intros x c1 c2 H.
  - apply H; lia.
  - simpl; destruct (after x) as [|ch aft] eqn:E; [reflexivity|].
    destruct (p ch); [|reflexivity].
    apply H; simpl; rewrite E; simpl; lia.
  - simpl; apply IHa; intros y Hy; apply IHb; intros z Hz; apply H; lia.
  - simpl; rewrite (IHa x c1 c2 H), (IHb x c1 c2 H); reflexivity.
  - rewrite !run_Rep; apply repeatMatcher_ext; assumption.
  - simpl; apply IHa; intros y Hy; apply H; simpl; lia.
  - simpl; destruct (getCap n (caps x)); [|apply H; lia].
    destruct (advance j x) as [y|] eqn:E; [|reflexivity].
    apply H; eapply advance_length; eassumption.
  - simpl; destruct (before x); [apply H; lia|].
    destruct (m && isLineTerminator a); [apply H; lia|reflexivity].
  - simpl; destruct (after x); [apply H; lia|].
    destruct (m && isLineTerminator a); [apply H; lia|reflexivity].
  - simpl; destruct (run m a x (fun y => Some y)); [reflexivity|apply H; lia].
Qed.

(** Beyond the bound that [run] uses, the fuel of a quantifier does not
    matter: the matcher never stops for lack of fuel. *)
Lemma repeatMatcher_fuel m a inner greedy :
  forall fuel1 fuel2 mn mx x c,
    mn + length (after x) < fuel1 ->
    mn + length (after x) < fuel2 ->
    repeatMatcher (run m a) inner greedy fuel1 mn mx x c
    = repeatMatcher (run m a) inner greedy fuel2 mn mx x c.
Proof.
  induction fuel1 as [|fuel1 IH]; intros fuel2 mn mx x c H1 H2; [lia|].
  destruct fuel2 as [|fuel2]; [lia|].
  rewrite !repeatMatcher_S.
  assert (Hd : run m a (MState (before x) (after x) (clearCaps inner (caps x)))
                 (fun y => if (mn =? 0) && (length (after y) =? length (after x))
                           then None
                           else repeatMatcher (run m a) inner greedy fuel1 (pred mn)
                                  (decr mx) y c)
               = run m a (MState (before x) (after x) (clearCaps inner (caps x)))
                 (fun y => if (mn =? 0) && (length (after y) =? length (after x))
                           then None
                           else repeatMatcher (run m a) inner greedy fuel2 (pred mn)
                                  (decr mx) y c)).
  { apply run_ext; intros y Hy; cbn [after] in Hy.
    destruct (mn =? 0) eqn:Emn; cbn [andb].
    - destruct (length (after y) =? length (after x)) eqn:El; [reflexivity|].
      apply Nat.eqb_eq in Emn; apply Nat.eqb_neq in El; subst mn.
      apply IH; simpl in *; lia.
    - apply Nat.eqb_neq in Emn; apply IH; lia. }
  cbv zeta; rewrite Hd; reflexivity.
Qed.

Lemma reach_refl x : reach x x.
Proof. exists []; split; reflexivity. Qed.

Lemma reach_trans x y z : reach x y -> reach y z -> reach x z.
Proof.
  intros [w1 [B1 A1]] [w2 [B2 A2]]; exists (w1 ++ w2); split.
  - rewrite B2, B1, rev_app_distr, app_assoc; reflexivity.
  - rewrite A1, A2, app_assoc; reflexivity.
Qed.

Lemma reach_caps x y cs cs' :
  reach x y ->
  reach (MState (before x) (after x) cs) (MState (before y) (after y) cs').
Proof. intros [w H]; exists w; exact H. Qed.

Lemma reach_length x y :
  reach x y ->
  length (before x) <= length (before y) /\
  length (after y) <= length (after x) /\
  length (before y) + length (after y) = length (before x) + length (after x).
Proof.
  intros [w [B A]]; rewrite B, A, !length_app, length_rev; lia.
Qed.

Lemma advance_reach s : forall x y, advance s x = Some y -> reach x y.
Proof.
  induction s as [|ch s IH]; intros x y H; simpl in H.
  - inversion H; subst; apply reach_refl.
  - destruct (after x) as [|d aft] eqn:E; [discriminate|].
    destruct (Ascii.eqb ch d); [|discriminate].
    apply IH in H; eapply reach_trans; [|exact H].
    exists [d]; split; [reflexivity|exact E].
Qed.

Lemma repeatMatcher_reach step inner greedy :
  reaches step ->
  forall fuel mn mx, reaches (repeatMatcher step inner greedy fuel mn mx).
Proof.
  intros Hstep; induction fuel as [|fuel IH]; intros mn mx x c z H;
    [discriminate H|].
  rewrite repeatMatcher_S in H.
  assert (Hc : c x = Some z -> exists y, reach x y /\ c y = Some z)
    by (intros E; exists x; split; [apply reach_refl|exact E]).
  assert (Hs : forall d0,
             d0 = (fun y => if (mn =? 0) && (length (after y) =? length (after x))
                            then None
                            else repeatMatcher step inner greedy fuel (pred mn)
                                   (decr mx) y c) ->
             step (MState (before x) (after x) (clearCaps inner (caps x))) d0
             = Some z ->
             exists y, reach x y /\ c y = Some z).
  { intros d0 -> E; apply Hstep in E; destruct E as [y [R E]].
    destruct ((mn =? 0) && (length (after y) =? length (after x)));
      [discriminate|].
    apply IH in E; destruct E as [y' [R' E]]; exists y'; split; [|exact E].
    eapply reach_trans; [|exact R'].
    destruct R as [w HR]; exists w; exact HR. }
  cbv zeta in H.
  destruct mx as [[|k]|]; [apply Hc; exact H| |];
    (destruct (negb (mn =? 0)); [eapply Hs; [reflexivity|exact H]|];
     destruct greedy;
     [ match type of H with
       | match ?s with _ => _ end = _ =>
           destruct s as [z'|] eqn:E;
           [inversion H; subst z'; eapply Hs; [reflexivity|exact E]
           |apply Hc; exact H]
       end
     | destruct (c x) as [z'|] eqn:E;
       [inversion H; subst z'; exists x; split; [apply reach_refl|exact E]
       |eapply Hs; [reflexivity|exact H]] ]).
Qed.

Lemma run_reach m r : reaches (run m r).
Proof.
  induction r as [|p|a IHa b IHb|a IHa b IHb|g mn mx a IHa|n a IHa|n| | |a IHa];
    intros x c z H.
  - exists x; split; [apply reach_refl|exact H].
  - simpl in H; destruct (after x) as [|ch aft] eqn:E; [discriminate|].
    destruct (p ch); [|discriminate].
    eexists; split; [|exact H].
    exists [ch]; split; [reflexivity|exact E].
  - simpl in H; apply IHa in H; destruct H as [y [R H]].
    apply IHb in H; destruct H as [y' [R' H]].
    exists y'; split; [eapply reach_trans; eassumption|exact H].
  - simpl in H; destruct (run m a x c) as [z'|] eqn:E.
    + inversion H; subst z'; apply IHa; exact E.
    + apply IHb; exact H.
  - rewrite run_Rep in H; eapply repeatMatcher_reach; eassumption.
  - simpl in H; apply IHa in H; destruct H as [y [R H]].
    eexists; split; [|exact H].
    destruct R as [w HR]; exists w; exact HR.
  - simpl in H; destruct (getCap n (caps x)) as [s|];
      [|exists x; split; [apply reach_refl|exact H]].
    destruct (advance s x) as [y|] eqn:E; [|discriminate].
    exists y; split; [eapply advance_reach; eassumption|exact H].
  - simpl in H; exists x; split; [apply reach_refl|].
    destruct (before x); [exact H|].
    destruct (m && isLineTerminator a); [exact H|discriminate].
  - simpl in H; exists x; split; [apply reach_refl|].
    destruct (after x); [exact H|].
    destruct (m && isLineTerminator a); [exact H|discriminate].
  - simpl in H; exists x; split; [apply reach_refl|].
    destruct (run m a x (fun y => Some y)); [discriminate|exact H].
Qed.

Lemma search_S m r bef ch aft :
  search m r bef (ch :: aft)
  = match run m r (MState bef (ch :: aft) []) (fun y => Some y) with
    | Some y => Some (length bef, y)
    | None => search m r (ch :: bef) aft
    end.
Proof. reflexivity. Qed.

Lemma search_nil m r bef :
  search m r bef []
  = match run m r (MState bef [] []) (fun y => Some y) with
    | Some y => Some (length bef, y)
    | None => None
    end.
Proof. reflexivity. Qed.

Lemma search_sound m r : forall aft bef i y,
  search m r bef aft = Some (i, y) ->
  exists k, k <= length aft /\ i = length bef + k /\
    reach (MState (rev (firstn k aft) ++ bef) (skipn k aft) []) y.
Proof.
  induction aft as [|ch aft IH]; intros bef i y H.
  - simpl in H.
    destruct (run m r (MState bef [] []) (fun y => Some y)) as [z|] eqn:E;
      [|discriminate].
    inversion H; subst; exists 0; split; [lia|split; [lia|]].
    apply run_reach in E; destruct E as [y' [R E]]; inversion E; subst; exact R.
  - rewrite search_S in H.
    destruct (run m r (MState bef (ch :: aft) []) (fun y => Some y)) as [z|] eqn:E.
    + inversion H; subst; exists 0; split; [simpl; lia|split; [lia|]].
      apply run_reach in E; destruct E as [y' [R E]]; inversion E; subst; exact R.
    + apply IH in H; destruct H as [k [Hk [Hi R]]].
      exists (S k); split; [simpl; lia|split; [simpl in *; lia|]].
      simpl; rewrite <- app_assoc; exact R.
Qed.

Lemma execFrom_sound re s i m :
  execFrom re s i = Some m ->
  i <= index m /\ index m <= endIndex m /\ endIndex m <= length s /\
  matched m = slice s (index m) (endIndex m).
Proof.
  unfold execFrom; destruct (length s <? i) eqn:Hi; [discriminate|].
  apply Nat.ltb_ge in Hi.
  destruct (search (flagM re) (pattern re) (rev (firstn i s)) (skipn i s))
    as [[j y]|] eqn:E; [|discriminate].
  intros H; inversion H; subst m; clear H; cbn [index endIndex matched].
  apply search_sound in E; destruct E as [k [Hk [Hj [w [B A]]]]].
  cbn [before after] in B, A.
  rewrite length_rev, length_firstn, Nat.min_l in Hj by exact Hi.
  rewrite length_skipn in Hk.
  rewrite skipn_skipn in A.
  assert (Hb : length (before y) = length w + j).
  { rewrite B, !length_app, !length_rev, !length_firstn, length_skipn.
    rewrite (Nat.min_l k) by lia; rewrite (Nat.min_l i) by lia; lia. }
  assert (Hs : length s = i + k + length w + length (after y)).
  { rewrite <- (firstn_skipn (k + i) s) at 1.
    rewrite A, !length_app, length_firstn, Nat.min_l by lia; lia. }
  split; [lia|split; [lia|split; [lia|]]].
  unfold slice; subst j; rewrite Hb.
  replace (length w + (i + k) - (i + k)) with (length w) by lia.
  rewrite (Nat.add_comm i k), A, B.
  rewrite firstn_app, length_rev, Nat.sub_diag, firstn_O, app_nil_r.
  rewrite firstn_all2 by (rewrite length_rev; lia).
  rewrite rev_involutive, firstn_app, Nat.sub_diag, firstn_O, app_nil_r.
  rewrite firstn_all2 by lia; reflexivity.
Qed.

Lemma execFrom_length re s i m :
  execFrom re s i = Some m -> endIndex m = index m + length (matched m).
Proof.
  intros H; apply execFrom_sound in H; destruct H as [_ [H1 [H2 H3]]].
  rewrite H3; unfold slice; rewrite length_firstn, length_skipn; lia.
Qed.

Lemma repeatMatcher_reachesBy step inner greedy n :
  reachesBy n step ->
  forall fuel mn mx,
    reachesBy (repBound mn mx * n) (repeatMatcher step inner greedy fuel mn mx).
Proof.
  intros Hstep; induction fuel as [|fuel IH]; intros mn mx x c z H;
    [discriminate H|].
  destruct (mn =? 0) eqn:Emn.
  - apply Nat.eqb_eq in Emn; subst mn.
    eapply repeatMatcher_reach in H.
    + destruct H as [y [R H]]; exists y; split; [exact R|split; [|exact H]].
      apply reach_length in R.
      destruct mx; simpl; lia.
    + intros x0 c0 z0 H0; apply Hstep in H0; destruct H0 as [y [R [_ H0]]].
      exists y; split; assumption.
  - rewrite repeatMatcher_S in H.
    destruct mx as [[|k]|].
    + exists x; split; [apply reach_refl|split; [|exact H]].
      simpl; rewrite Nat.min_0_r; simpl; lia.
    + cbv zeta in H; rewrite Emn in H; cbn [negb andb] in H.
      apply Hstep in H; destruct H as [y [R [L H]]]; cbn [before] in L.
      apply IH in H; destruct H as [y' [R' [L' H]]].
      exists y'; split; [|split; [|exact H]].
      * eapply reach_trans; [|exact R'].
        destruct R as [w HR]; exists w; exact HR.
      * apply Nat.eqb_neq in Emn; destruct mn as [|mn]; [lia|].
        cbn [repBound decr option_map pred] in *.
        rewrite <- Nat.succ_min_distr; simpl; lia.
    + cbv zeta in H; rewrite Emn in H; cbn [negb andb] in H.
      apply Hstep in H; destruct H as [y [R [L H]]]; cbn [before] in L.
      apply IH in H; destruct H as [y' [R' [L' H]]].
      exists y'; split; [|split; [|exact H]].
      * eapply reach_trans; [|exact R'].
        destruct R as [w HR]; exists w; exact HR.
      * apply Nat.eqb_neq in Emn; destruct mn as [|mn]; [lia|].
        cbn [repBound decr option_map pred] in *; simpl; lia.
Qed.

Lemma run_minLen m r : reachesBy (minLen r) (run m r).
Proof.
  induction r as [|p|a IHa b IHb|a IHa b IHb|g mn mx a IHa|n a IHa|n| | |a IHa];
    try (intros x c z H; apply run_reach in H; destruct H as [y [R H]];
         exists y; split; [exact R|split; [|exact H]];
         apply reach_length in R; simpl; lia).
  - intros x c z H; simpl in H.
    destruct (after x) as [|ch aft] eqn:E; [discriminate|].
    destruct (p ch); [|discriminate].
    eexists; split; [|split; [|exact H]]; [|simpl; lia].
    exists [ch]; split; [reflexivity|exact E].
  - intros x c z H; simpl in H.
    apply IHa in H; destruct H as [y [R [L H]]].
    apply IHb in H; destruct H as [y' [R' [L' H]]].
    exists y'; split; [eapply reach_trans; eassumption|split; [|exact H]].
    simpl; lia.
  - intros x c z H; simpl in H.
    destruct (run m a x c) as [z'|] eqn:E.
    + inversion H; subst z'; apply IHa in E; destruct E as [y [R [L E]]].
      exists y; split; [exact R|split; [|exact E]]; simpl; lia.
    + apply IHb in H; destruct H as [y [R [L H]]].
      exists y; split; [exact R|split; [|exact H]]; simpl; lia.
  - intros x c z H; rewrite run_Rep in H.
    eapply repeatMatcher_reachesBy in H; [|exact IHa].
    destruct mx; exact H.
  - intros x c z H; simpl in H.
    apply IHa in H; destruct H as [y [R [L H]]].
    eexists; split; [|split; [|exact H]]; [|simpl; exact L].
    destruct R as [w HR]; exists w; exact HR.
Qed.

Lemma execFrom_minLen re s i m :
  execFrom re s i = Some m -> minLen (pattern re) <= length (matched m).
Proof.
  intros H; pose proof H as HL; apply execFrom_length in HL.
  unfold execFrom in H; destruct (length s <? i); [discriminate|].
  destruct (search (flagM re) (pattern re) (rev (firstn i s)) (skipn i s))
    as [[j y]|] eqn:E; [|discriminate].
  inversion H; subst m; clear H; cbn [index endIndex matched] in *.
  revert E HL; generalize (rev (firstn i s)) (skipn i s); intros bef aft.
  revert bef j; induction aft as [|ch aft IH]; intros bef j E HL.
  - simpl in E.
    destruct (run (flagM re) (pattern re) (MState bef [] []) (fun y => Some y))
      as [z|] eqn:Ez; [|discriminate].
    inversion E; subst; apply run_minLen in Ez.
    destruct Ez as [y' [_ [L Ey]]]; inversion Ey; subst; cbn [before] in L; lia.
  - rewrite search_S in E.
    destruct (run (flagM re) (pattern re) (MState bef (ch :: aft) [])
                (fun y => Some y)) as [z|] eqn:Ez.
    + inversion E; subst; apply run_minLen in Ez.
      destruct Ez as [y' [_ [L Ey]]]; inversion Ey; subst; cbn [before] in L; lia.
    + eapply IH; eassumption.
Qed.

Lemma run_lit_fail m : forall d x c,
  startsWith d (after x) = false -> run m (lit d) x c = None.
Proof.
  induction d as [|ch d IH]; intros x c H; [discriminate H|].
  destruct x as [bef aft cs]; cbn [after] in H.
  destruct aft as [|a aft].
  - destruct d; reflexivity.
  - cbn [startsWith] in H.
    destruct d as [|ch' d].
    + cbn [lit run after]; unfold only.
      destruct (Ascii.eqb ch a); [discriminate H|reflexivity].
    + change (lit (ch :: ch' :: d)) with (Seq (Chr (only ch)) (lit (ch' :: d))).
      cbn [run after before caps]; unfold only at 1.
      destruct (Ascii.eqb ch a); [|reflexivity].
      apply IH; exact H.
Qed.

Lemma search_bol_not_start r : forall aft b bef,
  search false (Seq Bol r) (b :: bef) aft = None.
Proof.
  induction aft as [|ch aft IH]; intros b bef.
  - reflexivity.
  - rewrite search_S; cbn [run before andb]; apply IH.
Qed.

Lemma advance_app : forall d bef rest cs,
  advance d (MState bef (d ++ rest) cs) = Some (MState (rev d ++ bef) rest cs).
Proof.
  induction d as [|ch d IH]; intros bef rest cs; [reflexivity|].
  cbn [advance app after before caps]; rewrite Ascii.eqb_refl, IH.
  cbn [rev]; rewrite <- app_assoc; reflexivity.
Qed.

Lemma run_lit m : forall d x c,
  run m (lit d) x c
  = match advance d x with
    | Some y => c y
    | None => None
    end.
Proof.
  induction d as [|ch d IH]; intros x c; [reflexivity|].
  destruct x as [bef aft cs].
  destruct d as [|ch' d].
  - cbn [lit run advance after before caps]; unfold only.
    destruct aft as [|a aft]; [reflexivity|].
    destruct (Ascii.eqb ch a); reflexivity.
  - change (lit (ch :: ch' :: d)) with (Seq (Chr (only ch)) (lit (ch' :: d))).
    cbn [run after before caps]; unfold only at 1.
    destruct aft as [|a aft]; [reflexivity|].
    cbn [advance after before caps].
    destruct (Ascii.eqb ch a); [apply IH|reflexivity].
Qed.

(** A quantified class fails when the continuation fails at every position
    the class can reach. *)
Lemma repChr_all_fail p greedy : forall aft mn mx bef cs c,
  (forall j, j <= countWhile p aft ->
     c (MState (rev (firstn j aft) ++ bef) (skipn j aft) cs) = None) ->
  repChr p greedy mn mx bef aft cs c = None.
Proof.
  induction aft as [|ch aft IH]; intros mn mx bef cs c H.
  - pose proof (H 0 (Nat.le_0_l _)) as H0; cbn in H0.
    cbn [repChr]; rewrite H0.
    destruct mx as [[|k]|]; try reflexivity;
      destruct (negb (mn =? 0)); try reflexivity; destruct greedy; reflexivity.
  - pose proof (H 0 (Nat.le_0_l _)) as H0; cbn in H0.
    assert (M : (if p ch
                 then repChr p greedy (pred mn) (decr mx) (ch :: bef) aft cs c
                 else None) = None).
    { destruct (p ch) eqn:Ep; [|reflexivity].
      apply IH; intros j Hj.
      specialize (H (S j)); cbn [countWhile] in H; rewrite Ep in H.
      cbn [firstn skipn rev] in H; rewrite <- app_assoc in H.
      apply H; lia. }
    cbn [repChr]; rewrite M, H0.
    destruct mx as [[|k]|]; try reflexivity;
      destruct (negb (mn =? 0)); try reflexivity; destruct greedy; reflexivity.
Qed.

Lemma countWhile_app p : forall a c rest,
  forallb p a = true -> p c = false ->
  countWhile p (a ++ c :: rest) = length a.
Proof.
  induction a as [|x a IH]; intros c rest Ha Hc; simpl.
  - rewrite Hc; reflexivity.
  - simpl in Ha; apply andb_prop in Ha; destruct Ha as [Hx Ha].
    rewrite Hx, IH by assumption; reflexivity.
Qed.

Lemma startsWith_app d rest : startsWith d (d ++ rest) = true.
Proof.
  induction d as [|c d IH]; [reflexivity|].
  simpl; rewrite Ascii.eqb_refl; exact IH.
Qed.

Lemma allMatches_S re s fuel from :
  allMatches re s (S fuel) from
  = match execFrom re s from with
    | None => []
    | Some m =>
        m :: allMatches re s fuel
               (if endIndex m =? index m then S (endIndex m) else endIndex m)
    end.
Proof. reflexivity. Qed.

(** With the fuel [replace] and [split] give it, the enumeration of the
    matches never stops for lack of fuel: more fuel changes nothing. *)
Lemma allMatches_fuel re s : forall fuel1 fuel2 from,
  length s < fuel1 + from -> length s < fuel2 + from ->
  allMatches re s fuel1 from = allMatches re s fuel2 from.
Proof.
  assert (Out : forall fuel from, length s < from -> allMatches re s fuel from = []).
  { intros [|fuel] from H; [reflexivity|].
    rewrite allMatches_S; unfold execFrom.
    replace (length s <? from) with true
      by (symmetry; apply Nat.ltb_lt; exact H).
    reflexivity. }
  induction fuel1 as [|fuel1 IH]; intros fuel2 from H1 H2.
  - rewrite (Out fuel2) by lia; reflexivity.
  - destruct fuel2 as [|fuel2]; [rewrite (Out (S fuel1)) by lia; reflexivity|].
    rewrite !allMatches_S.
    destruct (execFrom re s from) as [m|] eqn:E; [|reflexivity].
    apply execFrom_sound in E; destruct E as [Ha [Hb _]].
    assert (Hn : from < (if endIndex m =? index m then S (endIndex m)
                         else endIndex m)).
    { destruct (Nat.eqb_spec (endIndex m) (index m)); lia. }
    f_equal; apply IH; lia.
Qed.

(** ** Global patterns that match locally *)

Section LocalPattern.

Variable re : regexp.
Variable lenAt : jsstring -> option nat.

Hypothesis run_local : forall bef aft,
  match run (flagM re) (pattern re) (MState bef aft []) (fun y => Some y) with
  | Some y =>
      exists n, lenAt aft = Some n /\ length (before y) = length bef + n
  | None => lenAt aft = None
  end.

Hypothesis lenAt_pos : forall aft n,
  lenAt aft = Some n -> 0 < n <= length aft.

Lemma search_local : forall aft bef,
  match search (flagM re) (pattern re) bef aft with
  | Some (i, y) =>
      exists k n, firstMatch lenAt aft = Some (k, n) /\ i = length bef + k /\
                  length (before y) = length bef + k + n
  | None => firstMatch lenAt aft = None
  end.
Proof.
  induction aft as [|c aft IH]; intros bef.
  - rewrite search_nil; pose proof (run_local bef []) as H.
    destruct (run (flagM re) (pattern re) (MState bef [] []) (fun y => Some y)).
    + destruct H as [n [H1 H2]]; exists 0, n; simpl; rewrite H1.
      split; [reflexivity|split; [lia|]].
      apply lenAt_pos in H1; simpl in H1; lia.
    + simpl; rewrite H; reflexivity.
  - rewrite search_S; pose proof (run_local bef (c :: aft)) as H.
    destruct (run (flagM re) (pattern re) (MState bef (c :: aft) [])
                (fun y => Some y)).
    + destruct H as [n [H1 H2]]; exists 0, n; cbn [firstMatch]; rewrite H1.
      split; [reflexivity|split; [lia|]].
      lia.
    + cbn [firstMatch]; rewrite H.
      specialize (IH (c :: bef)).
      destruct (search (flagM re) (pattern re) (c :: bef) aft) as [[i y]|].
      * destruct IH as [k [n [H1 [H2 H3]]]]; exists (S k), n; rewrite H1.
        cbn [length] in *; split; [reflexivity|split; lia].
      * rewrite IH; reflexivity.
Qed.

Lemma execFrom_local s from :
  from <= length s ->
  match execFrom re s from with
  | Some mt =>
      exists k n, firstMatch lenAt (skipn from s) = Some (k, n) /\
                  index mt = from + k /\ endIndex mt = from + k + n
  | None => firstMatch lenAt (skipn from s) = None
  end.
Proof.
  intros Hf; unfold execFrom.
  destruct (length s <? from) eqn:E; [apply Nat.ltb_lt in E; lia|].
  pose proof (search_local (skipn from s) (rev (firstn from s))) as H.
  destruct (search (flagM re) (pattern re) (rev (firstn from s)) (skipn from s))
    as [[i y]|]; [|exact H].
  destruct H as [k [n [H1 [H2 H3]]]]; exists k, n.
  rewrite length_rev, length_firstn, Nat.min_l in H2, H3 by lia.
  cbn [index endIndex]; split; [exact H1|split; lia].
Qed.

Lemma firstMatch_bounds : forall aft k n,
  firstMatch lenAt aft = Some (k, n) -> 0 < n /\ k + n <= length aft.
Proof.
  induction aft as [|c aft IH]; intros k n H; cbn [firstMatch] in H.
  - destruct (lenAt []) eqn:E; [|discriminate].
    inversion H; subst; apply lenAt_pos in E; simpl in *; lia.
  - destruct (lenAt (c :: aft)) eqn:E.
    + inversion H; subst; apply lenAt_pos in E; simpl in *; lia.
    + destruct (firstMatch lenAt aft) as [[k' n']|] eqn:E'; [|discriminate].
      inversion H; subst; destruct (IH _ _ eq_refl); simpl; lia.
Qed.

Lemma substitute_local by_ s : forall fuel from,
  from <= length s ->
  substitute (fun _ => by_) s from (allMatches re s fuel from)
  = replaceFM lenAt by_ fuel (skipn from s).
Proof.
  induction fuel as [|fuel IH]; intros from Hf; [reflexivity|].
  rewrite allMatches_S; cbn [replaceFM].
  pose proof (execFrom_local s from Hf) as H.
  destruct (execFrom re s from) as [mt|].
  - destruct H as [k [n [H1 [H2 H3]]]]; rewrite H1.
    pose proof (firstMatch_bounds _ _ _ H1) as [Hn Hk].
    rewrite length_skipn in Hk.
    replace (endIndex mt =? index mt) with false
      by (symmetry; apply Nat.eqb_neq; lia).
    cbn [substitute]; rewrite IH by lia.
    rewrite H2, H3; unfold slice.
    replace (from + k - from) with k by lia.
    rewrite skipn_skipn.
    replace (from + k + n) with (k + n + from) by lia; reflexivity.
  - rewrite H; reflexivity.
Qed.

Lemma splitAt_local s : forall fuel from,
  from <= length s ->
  splitAt s from (allMatches re s fuel from) = splitFM lenAt fuel (skipn from s).
Proof.
  induction fuel as [|fuel IH]; intros from Hf; [reflexivity|].
  rewrite allMatches_S; cbn [splitFM].
  pose proof (execFrom_local s from Hf) as H.
  destruct (execFrom re s from) as [mt|].
  - destruct H as [k [n [H1 [H2 H3]]]]; rewrite H1.
    pose proof (firstMatch_bounds _ _ _ H1) as [Hn Hk].
    rewrite length_skipn in Hk.
    replace (endIndex mt =? index mt) with false
      by (symmetry; apply Nat.eqb_neq; lia).
    cbn [splitAt]; rewrite IH by lia.
    rewrite H2, H3; unfold slice.
    replace (from + k - from) with k by lia.
    rewrite skipn_skipn.
    replace (from + k + n) with (k + n + from) by lia; reflexivity.
  - rewrite H; reflexivity.
Qed.

Lemma replaceGo_skip by_ : forall aft j,
  replaceGo lenAt by_ j aft = replaceGo lenAt by_ 0 (skipn j aft).
Proof.
  induction aft as [|c aft IH]; intros [|j]; try reflexivity.
  cbn [replaceGo skipn]; apply IH.
Qed.

Lemma replaceGo_firstMatch by_ : forall aft,
  replaceGo lenAt by_ 0 aft
  = match firstMatch lenAt aft with
    | None => aft
    | Some (k, n) =>
        firstn k aft ++ by_ ++ replaceGo lenAt by_ 0 (skipn (k + n) aft)
    end.
Proof.
  induction aft as [|c aft IH].
  - cbn [firstMatch]; destruct (lenAt []) eqn:E; [|reflexivity].
    apply lenAt_pos in E; simpl in E; lia.
  - cbn [firstMatch replaceGo]; destruct (lenAt (c :: aft)) eqn:E.
    + apply lenAt_pos in E; rewrite replaceGo_skip.
      destruct n as [|n]; [lia|].
      replace (S n - 1) with n by lia.
      cbn [firstn app Nat.add skipn]; reflexivity.
    + rewrite IH; destruct (firstMatch lenAt aft) as [[k n]|]; reflexivity.
Qed.

Lemma replaceFM_Go by_ : forall fuel aft,
  length aft < fuel -> replaceFM lenAt by_ fuel aft = replaceGo lenAt by_ 0 aft.
Proof.
  induction fuel as [|fuel IH]; intros aft H; [lia|].
  cbn [replaceFM]; rewrite replaceGo_firstMatch.
  destruct (firstMatch lenAt aft) as [[k n]|] eqn:E; [|reflexivity].
  apply firstMatch_bounds in E.
  rewrite IH; [reflexivity|rewrite length_skipn; lia].
Qed.

Lemma splitGo_skip : forall aft j cur,
  splitGo lenAt j cur aft = splitGo lenAt 0 cur (skipn j aft).
Proof.
  induction aft as [|c aft IH]; intros [|j] cur; try reflexivity.
  cbn [splitGo skipn]; apply IH.
Qed.

Lemma splitGo_firstMatch : forall aft cur,
  splitGo lenAt 0 cur aft
  = match firstMatch lenAt aft with
    | None => [rev cur ++ aft]
    | Some (k, n) =>
        (rev cur ++ firstn k aft) :: splitGo lenAt 0 [] (skipn (k + n) aft)
    end.
Proof.
  induction aft as [|c aft IH]; intros cur.
  - cbn [firstMatch]; destruct (lenAt []) eqn:E.
    + apply lenAt_pos in E; simpl in E; lia.
    + cbn [splitGo]; rewrite app_nil_r; reflexivity.
  - cbn [firstMatch splitGo]; destruct (lenAt (c :: aft)) eqn:E.
    + apply lenAt_pos in E; rewrite splitGo_skip.
      destruct n as [|n]; [lia|].
      replace (S n - 1) with n by lia.
      cbn [firstn app Nat.add skipn]; rewrite app_nil_r; reflexivity.
    + rewrite IH; cbn [rev].
      destruct (firstMatch lenAt aft) as [[k n]|];
        rewrite <- app_assoc; reflexivity.
Qed.

Lemma splitFM_Go : forall fuel aft,
  length aft < fuel -> splitFM lenAt fuel aft = splitGo lenAt 0 [] aft.
Proof.
  induction fuel as [|fuel IH]; intros aft H; [lia|].
  cbn [splitFM]; rewrite splitGo_firstMatch.
  destruct (firstMatch lenAt aft) as [[k n]|] eqn:E; [|reflexivity].
  apply firstMatch_bounds in E.
  rewrite IH; [reflexivity|rewrite length_skipn; lia].
Qed.

Hypothesis global : flagG re = true.

Lemma replace_local by_ s :
  replace re by_ s = replaceGo lenAt by_ 0 s.
Proof.
  unfold replace, replaceWith; rewrite global.
  rewrite substitute_local by lia.
  apply replaceFM_Go; simpl; lia.
Qed.

Lemma split_local s : split re s = splitGo lenAt 0 [] s.
Proof.
  unfold split; rewrite splitAt_local by lia.
  apply splitFM_Go; simpl; lia.
Qed.

End LocalPattern.


(** ** getDocumentTitle *)

Lemma run_lineBreak bef aft :
  match run (flagM lineBreakRegex) (pattern lineBreakRegex)
          (MState bef aft []) (fun y => Some y) with
  | Some y =>
      exists n, lineBreakAt aft = Some n /\ length (before y) = length bef + n
  | None => lineBreakAt aft = None
  end.
Proof.
  cbn [lineBreakRegex flagM pattern run after before caps].
  destruct aft as [|c aft]; [reflexivity|].
  unfold only, lineBreakAt, isLineBreak.
  destruct (Ascii.eqb LF c); cbn [orb].
  - exists 1; split; [reflexivity|simpl; lia].
  - destruct (Ascii.eqb CR c); [exists 1; split; [reflexivity|simpl; lia]
                               |reflexivity].
Qed.

Lemma lineBreakAt_pos aft n :
  lineBreakAt aft = Some n -> 0 < n <= length aft.
Proof.
  destruct aft as [|c aft]; simpl; [discriminate|].
  destruct (isLineBreak c); [|discriminate].
  intros H; inversion H; subst; simpl; lia.
Qed.

Lemma splitGo_lines : forall s cur,
  splitGo lineBreakAt 0 cur s = splitLines cur s.
Proof.
  induction s as [|c s IH]; intros cur; [reflexivity|].
  cbn [splitGo splitLines lineBreakAt].
  destruct (isLineBreak c); cbn [Nat.sub]; rewrite IH; reflexivity.
Qed.

Lemma split_lines s : split lineBreakRegex s = lines s.
Proof.
  rewrite (split_local lineBreakRegex lineBreakAt run_lineBreak
             lineBreakAt_pos).
  apply splitGo_lines.
Qed.

Lemma splitLines_line : forall l cur rest,
  noLineBreak l = true ->
  splitLines cur (l ++ rest) = splitLines (rev l ++ cur) rest.
Proof.
  induction l as [|c l IH]; intros cur rest H; [reflexivity|].
  cbn [noLineBreak forallb] in H; apply andb_prop in H; destruct H as [Hc Hl].
  cbn [app splitLines rev]; destruct (isLineBreak c); [discriminate|].
  rewrite IH by exact Hl; rewrite <- app_assoc; reflexivity.
Qed.

Lemma lines_first l rest :
  noLineBreak l = true -> endsLine rest = true ->
  exists ls, lines (l ++ rest) = l :: ls.
Proof.
  intros Hl Hr; unfold lines; rewrite splitLines_line by exact Hl.
  rewrite app_nil_r.
  destruct rest as [|c rest]; cbn [splitLines endsLine] in *.
  - rewrite rev_involutive; eexists; reflexivity.
  - rewrite Hr, rev_involutive; eexists; reflexivity.
Qed.


Lemma documentTitle_lines text :
  documentTitle text
  = match find isAtxHeading (lines text) with
    | Some l => cleanTitle l
    | None => untitled
    end.
Proof.
  unfold documentTitle; rewrite split_lines.
  destruct (find isAtxHeading (lines text)) as [[|c l]|] eqn:E; try reflexivity.
  apply find_some in E; destruct E as [_ E]; discriminate E.
Qed.


Lemma documentTitle_untitled text :
  forallb (fun l => negb (isAtxHeading l)) (lines text) = true ->
  documentTitle text = untitled.
Proof.
  intros H; rewrite documentTitle_lines.
  destruct (find isAtxHeading (lines text)) as [l|] eqn:E; [|reflexivity].
  apply find_some in E; destruct E as [Hin E].
  rewrite forallb_forall in H; apply H in Hin; rewrite E in Hin; discriminate.
Qed.


(** ** The block scanner *)

Lemma reconstruct_app : forall l acc,
  fold_left (fun a b => a ++ text b) l acc = acc ++ concat (map text l).
Proof.
  induction l as [|b l IH]; intros acc; simpl.
  - rewrite app_nil_r; reflexivity.
  - rewrite IH, app_assoc; reflexivity.
Qed.

Lemma reconstruct_concat l : reconstruct l = concat (map text l).
Proof. unfold reconstruct; rewrite reconstruct_app; reflexivity. Qed.

Lemma slice_cover s i e :
  i <= e -> slice s 0 i ++ slice s i e ++ skipn e s = s.
Proof.
  intros H; unfold slice; rewrite Nat.sub_0_r; simpl skipn.
  replace e with ((e - i) + i) at 2 by lia.
  rewrite <- skipn_skipn, firstn_skipn, firstn_skipn; reflexivity.
Qed.

Lemma blockLoop_S fuel acc t :
  blockLoop (S fuel) acc t
  = match execFrom codeBlockRegex t 0 with
    | None => Some (acc, t)
    | Some m =>
        blockLoop fuel
          (acc ++ [MarkdownBlock (slice t 0 (index m)) plain;
                   MarkdownBlock (matched m) (blockTypeOf (matched m))])
          (sliceFrom t (index m + length (matched m)))
    end.
Proof. reflexivity. Qed.

Lemma blockLoop_sound : forall fuel acc t l rest,
  blockLoop fuel acc t = Some (l, rest) ->
  reconstruct l ++ rest = reconstruct acc ++ t.
Proof.
  induction fuel as [|fuel IH]; intros acc t l rest H; [discriminate|].
  rewrite blockLoop_S in H.
  destruct (execFrom codeBlockRegex t 0) as [m|] eqn:E.
  - apply IH in H; rewrite H.
    pose proof E as HL; apply execFrom_length in HL.
    apply execFrom_sound in E; destruct E as [_ [H1 [_ H2]]].
    rewrite !reconstruct_concat, map_app, concat_app; simpl.
    rewrite app_nil_r, <- !app_assoc; f_equal.
    unfold sliceFrom; rewrite <- HL, H2 at 1.
    apply slice_cover; exact H1.
  - inversion H; subst; reflexivity.
Qed.

Lemma codeBlockRegex_minLen : minLen (pattern codeBlockRegex) = 3.
Proof. reflexivity. Qed.

Lemma blockLoop_total : forall fuel acc t,
  length t < fuel -> exists l rest, blockLoop fuel acc t = Some (l, rest).
Proof.
  induction fuel as [|fuel IH]; intros acc t H; [lia|].
  rewrite blockLoop_S.
  destruct (execFrom codeBlockRegex t 0) as [m|] eqn:E.
  - apply IH.
    pose proof E as HL; apply execFrom_minLen in HL.
    rewrite codeBlockRegex_minLen in HL.
    pose proof E as HE; apply execFrom_length in HE.
    apply execFrom_sound in E; destruct E as [_ [_ [HS _]]].
    unfold sliceFrom; rewrite length_skipn; lia.
  - eexists; eexists; reflexivity.
Qed.

(** The scanner always returns, and its blocks followed by what is left of
    the target at the exit of the loop are the text. *)
Lemma scanBlocks_reconstruct t :
  exists l rest, scanBlocks t = Some (l, rest) /\ reconstruct l ++ rest = t.
Proof.
  destruct (blockLoop_total (S (length t)) [] t) as [l [rest H]]; [lia|].
  exists l, rest; split; [exact H|].
  apply blockLoop_sound in H; exact H.
Qed.

Lemma repChr_too_short p greedy : forall aft mn bef cs c,
  countWhile p aft < mn -> repChr p greedy mn None bef aft cs c = None.
Proof.
  induction aft as [|ch aft IH]; intros mn bef cs c H;
    (destruct mn as [|mn]; [simpl in H; lia|]).
  - reflexivity.
  - simpl in *; destruct (p ch); [|reflexivity].
    apply IH; lia.
Qed.

Lemma startsWith3_count c s :
  startsWith [c; c; c] s = false -> countWhile (only c) s < 3.
Proof.
  unfold only; destruct s as [|x [|y [|z s]]]; simpl;
    repeat (match goal with |- context [Ascii.eqb ?a ?b] =>
                              destruct (Ascii.eqb a b) end; simpl);
    intros H; try discriminate; lia.
Qed.

Lemma codeBlockRegex_pattern :
  pattern codeBlockRegex
  = Seq (Group 1 (Alt (Rep true 3 None (Chr (only ":")))
                      (Rep true 3 None (Chr (only backtick)))))
      (seq [opt (Seq (Group 2 (Seq (star (Chr dot)) Eol)) (Chr (only LF)));
            Group 3 (lazyStar (Chr anyChar));
            Alt (Seq (Chr (only LF)) (Backref 1)) Eol]).
Proof. reflexivity. Qed.

Lemma run_codeBlock_no_delimiter x c :
  startsWith (str ":::") (after x) = false ->
  startsWith (str "```") (after x) = false ->
  run true (pattern codeBlockRegex) x c = None.
Proof.
  intros H1 H2.
  rewrite codeBlockRegex_pattern, run_Seq, run_Group, run_Alt, !run_Rep_Chr.
  rewrite !repChr_too_short; [reflexivity| |].
  - apply startsWith3_count; exact H2.
  - apply startsWith3_count; exact H1.
Qed.

Lemma indexOf_None p : forall s,
  indexOf p s = None ->
  startsWith p s = false /\ forall c s', s = c :: s' -> indexOf p s' = None.
Proof.
  intros s H; destruct s as [|c s']; simpl in H.
  - destruct (startsWith p []); [discriminate|]; split; [reflexivity|].
    intros; discriminate.
  - destruct (startsWith p (c :: s')); [discriminate|]; split; [reflexivity|].
    intros c0 s0 E; inversion E; subst.
    destruct (indexOf p s0); [discriminate|reflexivity].
Qed.

Lemma search_codeBlock_no_delimiter : forall aft bef,
  indexOf (str ":::") aft = None ->
  indexOf (str "```") aft = None ->
  search true (pattern codeBlockRegex) bef aft = None.
Proof.
  induction aft as [|ch aft IH]; intros bef H1 H2.
  - rewrite search_nil, run_codeBlock_no_delimiter; reflexivity.
  - rewrite search_S, run_codeBlock_no_delimiter.
    + apply IH; [eapply (proj2 (indexOf_None _ _ H1)) | eapply (proj2 (indexOf_None _ _ H2))]; reflexivity.
    + apply (proj1 (indexOf_None _ _ H1)).
    + apply (proj1 (indexOf_None _ _ H2)).
Qed.

(** C1 (fails on the code): the blocks pushed by the scanner do not add up to
    the input when text follows the last match.  The loop never pushes
    what is left in [markdownTextTarget] at its exit, so the blocks are the
    text without that rest: for a text without delimiter the list is empty
    and the reconstructed text is the empty string, and for a fenced block
    followed by a paragraph the paragraph is missing. *)
Theorem scanBlocks_loses_trailing_text :
  (forall t, exists l rest,
      scanBlocks t = Some (l, rest) /\ reconstruct l ++ rest = t)
  /\ option_map reconstruct (markdownBlockList (js "hello")) = Some []
  /\ option_map reconstruct (markdownBlockList (js "```\na\n```\nworld"))
     = Some (js "```\na\n```")
  /\ scanBlocks (js "```\na\n```\nworld")
     = Some ([MarkdownBlock [] plain; MarkdownBlock (js "```\na\n```") code],
             js "\nworld").
Proof.
  split; [exact scanBlocks_reconstruct|].
  split; [|split]; vm_compute; reflexivity.
Qed.

(** C2 (fails on the code): for every text without a run of three colons or
    three backticks the scanner produces no block at all, not one plain
    block holding the text. *)
Theorem scanBlocks_without_delimiter (t : jsstring) :
  includes (str ":::") t = false ->
  includes (str "```") t = false ->
  markdownBlockList t = Some []
  /\ markdownBlockList t <> Some [MarkdownBlock t plain].
Proof.
  unfold includes; intros H1 H2.
  destruct (indexOf (str ":::") t) eqn:E1; [discriminate|].
  destruct (indexOf (str "```") t) eqn:E2; [discriminate|].
  assert (E : markdownBlockList t = Some []).
  { unfold markdownBlockList, scanBlocks; rewrite blockLoop_S.
    unfold execFrom; simpl Nat.ltb; cbn [firstn skipn rev flagM codeBlockRegex].
    change (seq _) with (pattern codeBlockRegex).
    rewrite search_codeBlock_no_delimiter by assumption; reflexivity. }
  split; [exact E|rewrite E; discriminate].
Qed.

Lemma scanBlocks_without_delimiter_witness :
  markdownBlockList (js "hello") = Some []
  /\ markdownBlockList (js "hello") <> Some [MarkdownBlock (js "hello") plain].
Proof. apply scanBlocks_without_delimiter; reflexivity. Defined.

(** ** The table of contents *)

Lemma nth_error_replaceNth {A : Type} : forall (l : list A) i j v,
  nth_error (replaceNth l i v) j
  = if (j =? i) && (i <? length l) then Some v else nth_error l j.
Proof.
  induction l as [|x l IH]; intros i j v.
  - simpl; rewrite andb_false_r; reflexivity.
  - destruct i as [|i], j as [|j]; simpl; try reflexivity.
    rewrite IH; reflexivity.
Qed.

Lemma arrayGet_arraySet a i v j :
  arrayGet (arraySet a i v) j = if j =? i then Some v else arrayGet a j.
Proof.
  unfold arrayGet, arraySet.
  destruct (i <? length a) eqn:E.
  - rewrite nth_error_replaceNth, E, andb_true_r.
    destruct (j =? i); reflexivity.
  - apply Nat.ltb_ge in E.
    destruct (j =? i) eqn:Ej.
    + apply Nat.eqb_eq in Ej; subst j.
      rewrite nth_error_app2 by exact E.
      rewrite nth_error_app2 by (rewrite repeat_length; lia).
      rewrite repeat_length.
      replace (i - length a - (i - length a)) with 0 by lia; reflexivity.
    + apply Nat.eqb_neq in Ej.
      destruct (Nat.lt_ge_cases j (length a)) as [Hj|Hj].
      * rewrite nth_error_app1 by exact Hj; reflexivity.
      * rewrite nth_error_app2 by exact Hj.
        rewrite (proj2 (nth_error_None a j)) by exact Hj.
        destruct (Nat.lt_ge_cases (j - length a) (i - length a)) as [Hk|Hk].
        -- rewrite nth_error_app1 by (rewrite repeat_length; exact Hk).
           rewrite nth_error_repeat by exact Hk; reflexivity.
        -- rewrite nth_error_app2 by (rewrite repeat_length; exact Hk).
           rewrite repeat_length.
           destruct (j - length a - (i - length a)) as [|d] eqn:Ed; [lia|].
           simpl; destruct d; reflexivity.
Qed.

Lemma headerLevel_new h : headerLevel (newHeaderObject h) = headerLevelOf h.
Proof. reflexivity. Qed.

Lemma tocStep_stackFrom levels s h s' :
  stackFrom levels (tocStack s) ->
  tocStep s h = inr s' ->
  stackFrom (levels ++ [headerLevelOf h]) (tocStack s').
Proof.
  intros Hs H; unfold tocStep in H; rewrite headerLevel_new in H.
  destruct (headerLevelOf h) as [|[|k]] eqn:EL; [discriminate| |].
  - inversion H; subst s'; cbn [tocStack]; intros j v Hj.
    destruct j as [|[|j]]; simpl in Hj; try discriminate.
    apply in_or_app; right; left; reflexivity.
  - destruct (arrayGet (tocStack s) k) as [parent|]; [|discriminate].
    inversion H; subst s'; cbn [tocStack]; intros j v Hj.
    rewrite arrayGet_arraySet in Hj.
    destruct (j =? S k) eqn:Ej.
    + apply Nat.eqb_eq in Ej; subst j.
      apply in_or_app; right; left; reflexivity.
    + apply in_or_app; left; eapply Hs; exact Hj.
Qed.

Lemma tocLoop_stackFrom : forall l levels s s',
  stackFrom levels (tocStack s) ->
  tocLoop s l = inr s' ->
  stackFrom (levels ++ map headerLevelOf l) (tocStack s').
Proof.
  induction l as [|h l IH]; intros levels s s' Hs H; simpl in H.
  - inversion H; subst; rewrite app_nil_r; exact Hs.
  - destruct (tocStep s h) as [e|s1] eqn:E; [discriminate|].
    cbn [map]; replace (levels ++ headerLevelOf h :: map headerLevelOf l)
      with ((levels ++ [headerLevelOf h]) ++ map headerLevelOf l)
      by (rewrite <- app_assoc; reflexivity).
    eapply IH; [|exact H].
    eapply tocStep_stackFrom; eassumption.
Qed.

Lemma tocLoop_app : forall l1 l2 s,
  tocLoop s (l1 ++ l2)
  = match tocLoop s l1 with
    | inl e => inl e
    | inr s1 => tocLoop s1 l2
    end.
Proof.
  induction l1 as [|h l1 IH]; intros l2 s; [reflexivity|].
  simpl; destruct (tocStep s h); [reflexivity|apply IH].
Qed.

Lemma replace_leadingFence d text :
  startsWith d text = false ->
  replace (leadingFenceRegex d) [] text = text.
Proof.
  intros H; unfold replace, replaceWith; cbn [flagG leadingFenceRegex].
  change (RegExp _ true false) with (leadingFenceRegex d).
  assert (E : execFrom (leadingFenceRegex d) text 0 = None).
  { unfold execFrom; cbn [Nat.ltb Nat.leb firstn skipn rev flagM pattern
                            leadingFenceRegex seq].
    destruct text as [|a text].
    - rewrite search_nil; cbn [run before].
      rewrite run_lit_fail by exact H; reflexivity.
    - rewrite search_S; cbn [run before].
      rewrite run_lit_fail by exact H.
      rewrite search_bol_not_start; reflexivity. }
  rewrite allMatches_S, E; reflexivity.
Qed.

(** C3 (fails on the code): the build does not survive a skipped level.  In a
    list of more than two lines, a heading of level 3 or more that no
    heading of the level above precedes finds no parent in [tocStack], and
    the loop reads [children] of [undefined]: the build ends with a
    TypeError. *)
Theorem buildToc_skipped_level_throws
  (l1 : list jsstring) (h : jsstring) (l2 : list jsstring) :
  2 < length (l1 ++ h :: l2) ->
  3 <= headerLevelOf h ->
  forallb (fun x => negb (headerLevelOf x =? headerLevelOf h - 1)) l1 = true ->
  buildToc (l1 ++ h :: l2) = inl TypeError.
Proof.
  intros Hlen HD Hno; unfold buildToc.
  destruct (length (l1 ++ h :: l2) <=? 2) eqn:E;
    [apply Nat.leb_le in E; lia|].
  rewrite tocLoop_app.
  destruct (tocLoop (TocState [] [] []) l1) as [[]|s1] eqn:E1; [reflexivity|].
  apply (tocLoop_stackFrom l1 []) in E1;
    [|intros k v Hk; destruct k; discriminate Hk].
  cbn [tocLoop app] in *.
  unfold tocStep; rewrite headerLevel_new.
  destruct (headerLevelOf h) as [|[|k]] eqn:EL; [lia|lia|].
  destruct (arrayGet (tocStack s1) k) as [parent|] eqn:Ek; [|reflexivity].
  apply E1 in Ek; apply in_map_iff in Ek; destruct Ek as [x [Hx Hin]].
  rewrite forallb_forall in Hno; apply Hno in Hin.
  rewrite Hx in Hin; replace (S (S k) - 1) with (S k) in Hin by lia.
  rewrite Nat.eqb_refl in Hin; discriminate.
Qed.

Lemma buildToc_skipped_level_throws_witness :
  tocStringList (js "### A\n## B\n") = [js "# A"] ++ js "### A" :: [js "## B"]
  /\ buildToc ([js "# A"] ++ js "### A" :: [js "## B"]) = inl TypeError.
Proof.
  split; [vm_compute; reflexivity|].
  apply buildToc_skipped_level_throws;
    [simpl; lia | vm_compute; lia | reflexivity].
Defined.

(** C4 (fails on the code): the patterns that remove fenced and callout
    blocks have no [m] flag, so they only remove a block at the very start
    of the text.  For every text that does not start with a delimiter
    nothing is removed: every line of the raw text that matches the
    heading pattern is an entry of the list, also the lines inside fenced
    blocks. *)
Theorem tocStringList_keeps_fenced_heading (text : jsstring) :
  startsWith (str "```") text = false ->
  startsWith (str ":::") text = false ->
  tocStringList text
  = (str "# " ++ documentTitle text) :: filter (test tocLineRegex) (lines text).
Proof.
  intros H1 H2; unfold tocStringList, markdownTextWithoutCodeBlock.
  rewrite (replace_leadingFence (str "```") text H1).
  rewrite (replace_leadingFence (str ":::") text H2).
  rewrite split_lines; reflexivity.
Qed.

Lemma tocStringList_keeps_fenced_heading_witness :
  let text := js "## A\n```\n## inside\n```\n## B\n" in
  tocStringList text = map js ["# A"; "## A"; "## inside"; "## B"]%string
  /\ tocStringList text
     = (str "# " ++ documentTitle text)
       :: filter (test tocLineRegex) (lines text).
Proof.
  intros text; split; [vm_compute; reflexivity|].
  apply tocStringList_keeps_fenced_heading; reflexivity.
Defined.


(** ** Image references *)

Lemma imgRegex_pattern :
  pattern imgRegex
  = Seq Bol
      (Seq (lit (str "!["))
         (Seq (Group 1 (star (Chr (except "]"))))
            (Seq (lit (str "]("))
               (Seq (NegLook (lit placeholderPrefix)) imgTail)))).
Proof. reflexivity. Qed.

(** A reference whose source starts with the placeholder prefix is not
    matched. *)
Lemma imgRegex_rejects_placeholder bef alt rest c :
  forallb (except "]") alt = true ->
  run true (pattern imgRegex)
    (MState bef (str "![" ++ alt ++ str "](" ++ placeholderPrefix ++ rest) []) c
  = None.
Proof.
  intros Halt; rewrite imgRegex_pattern, run_Seq, run_Bol.
  assert (G :
    run true
      (Seq (lit (str "!["))
         (Seq (Group 1 (star (Chr (except "]"))))
            (Seq (lit (str "]("))
               (Seq (NegLook (lit placeholderPrefix)) imgTail))))
      (MState bef (str "![" ++ alt ++ str "](" ++ placeholderPrefix ++ rest) [])
      c = None).
  { rewrite run_Seq, run_lit, advance_app, run_Seq, run_Group.
    unfold star; rewrite run_Rep_Chr.
    apply repChr_all_fail; intros j Hj; cbv beta.
    cbn [before after caps] in *.
    change (str "](" ++ placeholderPrefix ++ rest)
      with ("]" :: "(" :: placeholderPrefix ++ rest) in *.
    rewrite countWhile_app in Hj by (exact Halt || reflexivity).
    rewrite run_Seq, run_lit.
    destruct (Nat.eq_dec j (length alt)) as [->|Hne].
    - rewrite skipn_app, skipn_all, Nat.sub_diag; cbn [skipn app].
      change ("]" :: "(" :: placeholderPrefix ++ rest)
        with (str "](" ++ placeholderPrefix ++ rest).
      rewrite (advance_app (str "](")).
      rewrite run_Seq, run_NegLook, run_lit, advance_app; reflexivity.
    - assert (Hlt : j < length alt) by lia.
      rewrite skipn_app.
      replace (j - length alt) with 0 by lia; cbn [skipn].
      destruct (skipn j alt) as [|a al] eqn:Es.
      + apply (f_equal (@length _)) in Es; rewrite length_skipn in Es.
        simpl in Es; lia.
      + assert (Ha : except "]" a = true).
        { rewrite forallb_forall in Halt; apply Halt.
          rewrite <- (firstn_skipn j alt), Es; apply in_or_app; right; left.
          reflexivity. }
        change (str "](") with ["]"; "("].
        cbn [app advance after before caps].
        unfold except in Ha; destruct (Ascii.eqb "]" a); [discriminate Ha|].
        reflexivity. }
  cbn [before]; destruct bef as [|p bef]; [exact G|].
  destruct (true && isLineTerminator p); [exact G|reflexivity].
Qed.

(** C7 (fails on the code): the rewrite is not idempotent.  A reference whose
    source starts with the placeholder prefix is indeed never matched, but
    when the source of a reference runs over a line break, the line after
    the break starts before [lastIndex] in the rewritten text and is
    skipped; a second pass finds it, rewrites it and records one more
    source. *)
Theorem rewriteImages_second_pass_rewrites :
  (forall bef alt rest c,
      forallb (except "]") alt = true ->
      run true (pattern imgRegex)
        (MState bef (str "![" ++ alt ++ str "](" ++ placeholderPrefix ++ rest) [])
        c = None)
  /\
  let b := MarkdownBlock (js "![a](x.png\n![b](images/screenshots/overview.png)") plain in
  let once := js "![a](./TOBE_BASE64_IMGPATH_x.png\n![b](images/screenshots/overview.png_TO_BE_BASE64_IMGPATH)" in
  let twice := js "![a](./TOBE_BASE64_IMGPATH_x.png\n![b](./TOBE_BASE64_IMGPATH_images/screenshots/overview.png_TO_BE_BASE64_IMGPATH_TO_BE_BASE64_IMGPATH)" in
  rewriteImages [b]
  = Some ([MarkdownBlock once plain],
          [js "x.png\n![b](images/screenshots/overview.png"])
  /\ rewriteImages [MarkdownBlock once plain]
     = Some ([MarkdownBlock twice plain],
             [js "images/screenshots/overview.png_TO_BE_BASE64_IMGPATH"])
  /\ twice <> once.
Proof.
  split; [exact imgRegex_rejects_placeholder|].
  intros b once twice; split; [|split]; vm_compute;
    [reflexivity | reflexivity | discriminate].
Qed.

(** ** The navigation menu *)

Lemma normalizeSegs_acc b : forall segs acc,
  forallb (fun s => negb (JsString.eqb s Path.dotdot)) segs = true ->
  Path.normalizeSegs b acc segs = rev acc ++ Path.normalizeSegs b [] segs.
Proof.
  induction segs as [|s segs IH]; intros acc H.
  - simpl; rewrite app_nil_r; reflexivity.
  - cbn [forallb] in H; apply andb_prop in H; destruct H as [Hs H].
    cbn [Path.normalizeSegs].
    destruct (JsString.eqb s [] || JsString.eqb s ["."]); [apply IH; exact H|].
    destruct (JsString.eqb s Path.dotdot); [discriminate Hs|].
    rewrite (IH (s :: acc) H), (IH [s] H); cbn [rev app].
    rewrite <- app_assoc; reflexivity.
Qed.

Lemma dropCommon_app : forall c a b,
  Path.dropCommon (c ++ a) (c ++ b) = Path.dropCommon a b.
Proof.
  induction c as [|x c IH]; intros a b; [reflexivity|].
  cbn [app Path.dropCommon]; rewrite jseqb_refl; apply IH.
Qed.

Lemma relative_plain cwd from to :
  isPlain from = true -> isPlain to = true ->
  Path.relative cwd from to = Path.relative [] from to.
Proof.
  unfold isPlain; intros Hf Ht.
  apply andb_prop in Hf; destruct Hf as [Af Sf].
  apply andb_prop in Ht; destruct Ht as [At St].
  unfold Path.relative, Path.resolveSegs.
  destruct (Path.isAbsolute from); [discriminate Af|].
  destruct (Path.isAbsolute to); [discriminate At|].
  rewrite (normalizeSegs_acc false _ (rev cwd) Sf).
  rewrite (normalizeSegs_acc false _ (rev cwd) St).
  rewrite rev_involutive, dropCommon_app; reflexivity.
Qed.

Lemma fileItem_plain cwd target f :
  isPlain (Path.dirname target) = true -> isPlain (filePath f) = true ->
  fileItem cwd target f = fileItem [] target f.
Proof.
  intros H1 H2; unfold fileItem, fileHrefOf.
  rewrite (relative_plain cwd _ _ H1 H2); reflexivity.
Qed.

Lemma folderItemOpen_plain cwd target f :
  isPlain (Path.dirname target) = true -> isPlain (folderPath f) = true ->
  folderItemOpen cwd target f = folderItemOpen [] target f.
Proof.
  intros H1 H2; unfold folderItemOpen, folderHrefOf.
  rewrite (relative_plain cwd _ _ H1 H2); reflexivity.
Qed.

Lemma exampleTree_any_cwd cwd :
  buildFolderObject cwd exampleOpen exampleRoot exampleFiles
  = mkFolderObject [] (js "ws") (js "root")
      [mkFolderObject (js "a") (js "a") (js "a")
         [mkFolderObject (js "a/b") (js "b") (js "b") []
            [mkFileObject (js "y.md") (js "y.md") (js "a/b/y.md")]]
         [mkFileObject (js "x.md") (js "x.md") (js "a/x.md")]]
      [mkFileObject (js "z.md") (js "z.md") (js "z.md")].
Proof. vm_compute; reflexivity. Qed.

Lemma exampleNavigation_any_cwd cwd :
  recursiveFileNavigationHtmlFactory cwd
    (buildFolderObject cwd exampleOpen exampleRoot exampleFiles)
    (js "a/b/y.md") []
  = js "<li class=\x22file\x22><a href=\x22../../z.html\x22>z.md</a></li>"
    ++ js "<li class=\x22folder\x22><a href=\x22..\x22>a</a><ul>"
    ++ js "<li class=\x22file\x22><a href=\x22../x.html\x22>x.md</a></li>"
    ++ js "<li class=\x22folder active\x22><a href=\x22\x22>b</a><ul>"
    ++ js "<li class=\x22file active\x22><a href=\x22y.html\x22>y.md</a></li>"
    ++ js "</ul></li></ul></li>".
Proof.
  rewrite exampleTree_any_cwd.
  cbn [recursiveFileNavigationHtmlFactory fold_left].
  rewrite !(fileItem_plain cwd) by reflexivity.
  rewrite !(folderItemOpen_plain cwd) by reflexivity.
  vm_compute; reflexivity.
Qed.

(** C5 (fails on the code): for the target [a/b/y.md] the folder [a] is not
    marked active; its item is the plain one. *)
Lemma navigation_grandparent_not_active :
  includes (js "<li class=\x22folder active\x22><a href=\x22..\x22>a</a>")
    exampleNavigation = false
  /\ includes (js "<li class=\x22folder\x22><a href=\x22..\x22>a</a>")
    exampleNavigation = true.
Proof. split; vm_compute; reflexivity. Qed.

(** C5 (as amended): for the target [a/b/y.md] the menu marks the folder
    [a/b] and the file [y.md] active, leaves the folder [a] and the files
    [x.md] and [z.md] unmarked, and links [z.md] as [../../z.html],
    whatever the working directory of the process; in general the item of a
    folder is the active one exactly when the path of the folder is the
    directory of the target. *)
Theorem navigation_marks_directory_of_target :
  (forall cwd : list jsstring,
      recursiveFileNavigationHtmlFactory cwd
        (buildFolderObject cwd exampleOpen exampleRoot exampleFiles)
        (js "a/b/y.md") []
      = js "<li class=\x22file\x22><a href=\x22../../z.html\x22>z.md</a></li>"
        ++ js "<li class=\x22folder\x22><a href=\x22..\x22>a</a><ul>"
        ++ js "<li class=\x22file\x22><a href=\x22../x.html\x22>x.md</a></li>"
        ++ js "<li class=\x22folder active\x22><a href=\x22\x22>b</a><ul>"
        ++ js "<li class=\x22file active\x22><a href=\x22y.html\x22>y.md</a></li>"
        ++ js "</ul></li></ul></li>")
  /\ forall (cwd : list jsstring) (target : jsstring) (f : FolderObject),
      startsWith (js "<li class=\x22folder active\x22>")
        (folderItemOpen cwd target f) = true
      <-> folderPath f = Path.dirname target.
Proof.
  split; [exact exampleNavigation_any_cwd|].
  intros cwd target f; unfold folderItemOpen.
  destruct (jseqb_spec (folderPath f) (Path.dirname target)) as [E|N].
  - split; [intros _; exact E | intros _; reflexivity].
  - split; [intros H; discriminate H | intros E; contradiction].
Qed.

(** ** The formatting step *)

Lemma countWhile_le p : forall s, countWhile p s <= length s.
Proof.
  induction s as [|c s IH]; simpl; [lia|].
  destruct (p c); simpl; lia.
Qed.

Lemma repChr_greedy_then p q :
  (forall c, p c = true -> Ascii.eqb q c = false) ->
  forall aft mn bef cs,
    match repChr p true mn None bef aft cs
            (fun y => run false (Chr (only q)) y (fun z => Some z)) with
    | Some z =>
        (mn <=? countWhile p aft)
        && startsWith [q] (skipn (countWhile p aft) aft) = true
        /\ length (before z) = length bef + countWhile p aft + 1
    | None =>
        (mn <=? countWhile p aft)
        && startsWith [q] (skipn (countWhile p aft) aft) = false
    end.
Proof.
  intros Hpq; induction aft as [|ch aft IH]; intros mn bef cs.
  - destruct mn; cbn; [reflexivity|reflexivity].
  - cbn [repChr countWhile decr option_map].
    destruct (p ch) eqn:Ep.
    + specialize (IH (pred mn) (ch :: bef) cs).
      destruct mn as [|mn]; cbn [negb Nat.eqb pred Nat.leb skipn] in *.
      * destruct (repChr p true 0 None (ch :: bef) aft cs
                    (fun y => run false (Chr (only q)) y (fun z => Some z))).
        -- destruct IH as [H1 H2]; split; [exact H1|].
           rewrite H2; simpl; lia.
        -- cbn [run after]; unfold only; rewrite (Hpq ch Ep); exact IH.
      * destruct (repChr p true mn None (ch :: bef) aft cs
                    (fun y => run false (Chr (only q)) y (fun z => Some z))).
        -- destruct IH as [H1 H2]; split; [exact H1|].
           rewrite H2; simpl; lia.
        -- exact IH.
    + destruct mn as [|mn]; cbn [negb Nat.eqb Nat.leb skipn andb];
        [|reflexivity].
      cbn [run after before caps startsWith]; unfold only.
      destruct (Ascii.eqb q ch); cbn [andb]; [|reflexivity].
      split; [reflexivity|simpl; lia].
Qed.

Lemma digit_not_m c : digit c = true -> Ascii.eqb "m" c = false.
Proof.
  intros H; destruct (Ascii.eqb_spec "m" c) as [<-|];
    [vm_compute in H; discriminate H|reflexivity].
Qed.

Lemma run_ansi bef aft :
  match run (flagM ansiRegex) (pattern ansiRegex) (MState bef aft [])
          (fun y => Some y) with
  | Some y => exists n, sgrAt aft = Some n /\ length (before y) = length bef + n
  | None => sgrAt aft = None
  end.
Proof.
  cbn [ansiRegex flagM pattern seq run after before caps].
  destruct aft as [|e aft]; [reflexivity|].
  unfold only at 1; unfold sgrAt.
  destruct (Ascii.eqb ESC e); cbn [andb]; [|destruct aft; reflexivity].
  destruct aft as [|b aft]; [reflexivity|].
  unfold only at 1.
  destruct (Ascii.eqb "[" b); cbn [andb]; [|reflexivity].
  unfold plus; rewrite run_Rep_Chr; cbn [before after caps].
  pose proof (repChr_greedy_then digit "m" digit_not_m aft 1 (b :: e :: bef) [])
    as H.
  match goal with
  | |- context [repChr digit true 1 None _ _ _ ?k] =>
      change k with (fun y => run false (Chr (only "m")) y (fun z => Some z))
  end.
  destruct (repChr digit true 1 None (b :: e :: bef) aft []
              (fun y => run false (Chr (only "m")) y (fun z => Some z))).
  - destruct H as [H1 H2]; rewrite H1.
    eexists; split; [reflexivity|].
    rewrite H2; simpl; lia.
  - rewrite H; reflexivity.
Qed.

Lemma sgrAt_pos aft n : sgrAt aft = Some n -> 0 < n <= length aft.
Proof.
  unfold sgrAt; destruct aft as [|e [|b rest]]; try discriminate.
  destruct (Ascii.eqb ESC e && Ascii.eqb "[" b && (1 <=? countWhile digit rest))
    eqn:E; cbn [andb]; [|discriminate].
  destruct (startsWith ["m"] (skipn (countWhile digit rest) rest)) eqn:E2;
    [|discriminate].
  intros H; inversion H; subst; split; [lia|].
  assert (L : countWhile digit rest < length rest).
  { pose proof (countWhile_le digit rest) as Hle.
    destruct (Nat.eq_dec (countWhile digit rest) (length rest)) as [Eq|]; [|lia].
    rewrite Eq, skipn_all in E2; discriminate E2. }
  simpl; lia.
Qed.

Lemma replace_ansi s : replace ansiRegex [] s = removeSgr s.
Proof.
  apply (replace_local ansiRegex sgrAt run_ansi sgrAt_pos eq_refl).
Qed.

(** C9 (fails on the code): the message is not freed of its control
    sequences, and a throw does not always leave a result.  Only the
    sequences made of ESC, an opening bracket, one or more digits and the
    letter m are removed: of the four sequences of the message below the
    second one goes and [ESC[1;31m], [ESC[2K] and [ESC[m] stay.  When the
    value thrown has no message the [catch] block throws in its turn. *)
Lemma formatStep_keeps_control_sequences :
  let message := js "\x1b[1;31mbad\x1b[0m \x1b[2K\x1b[mtag" in
  formatStep (fun _ => Throws message) (js "<") (js "> ") (js "T")
    (js "<html></html>") []
  = inr (js "<html></html>",
         [js "<T> " ++ [LF; LF] ++ js "\x1b[1;31mbad \x1b[2K\x1b[mtag"])
  /\ formatStep (fun _ => ThrowsValue) (js "<") (js "> ") (js "T")
       (js "<html></html>") []
     = inl TypeError.
Proof. split; vm_compute; reflexivity. Qed.

(** C9 (as amended): when [format] throws an error with a message, the step
    returns the page as it was before the call and shows exactly one more
    warning, whose text ends with the message of the error without its
    colour sequences (ESC, an opening bracket, one or more digits, m), read
    left to right; when [format] throws a value without a message, the step
    throws a [TypeError]. *)
Theorem formatStep_fallback
  (format : jsstring -> formatResult)
  (warningPrefix warningMiddle title zennHtml : jsstring)
  (shown : list jsstring) :
  (forall message,
      format zennHtml = Throws message ->
      formatStep format warningPrefix warningMiddle title zennHtml shown
      = inr (zennHtml,
             shown ++ [warningPrefix ++ title ++ warningMiddle ++ [LF; LF]
                         ++ removeSgr message]))
  /\ (format zennHtml = ThrowsValue ->
      formatStep format warningPrefix warningMiddle title zennHtml shown
      = inl TypeError).
Proof.
  split.
  - intros message H; unfold formatStep; rewrite H, replace_ansi; reflexivity.
  - intros H; unfold formatStep; rewrite H; reflexivity.
Qed.

Lemma formatStep_fallback_witness :
  let message := js "\x1b[31mUnexpected closing tag\x1b[39m (3:1)" in
  let format := fun _ : jsstring => Throws message in
  removeSgr message = js "Unexpected closing tag (3:1)"
  /\ formatStep format (js "<") (js "> ") (js "T") (js "<html></html>") []
     = inr (js "<html></html>",
            [] ++ [js "<" ++ js "T" ++ js "> " ++ [LF; LF] ++ removeSgr message]).
Proof.
  intros message format; split; [vm_compute; reflexivity|].
  apply (proj1 (formatStep_fallback format (js "<") (js "> ") (js "T")
                  (js "<html></html>") [])); reflexivity.
Defined.

(** ** The output path *)

Lemma repChr_lazy_word_eol : forall aft bef cs,
  repChr word false 0 None bef aft cs (fun y => run false Eol y (fun z => Some z))
  = if forallb word aft then Some (MState (rev aft ++ bef) [] cs) else None.
Proof.
  induction aft as [|ch aft IH]; intros bef cs; [reflexivity|].
  cbn [repChr forallb negb Nat.eqb pred decr option_map run after andb].
  destruct (word ch); cbn [andb]; [|reflexivity].
  rewrite IH; cbn [rev]; rewrite <- app_assoc; reflexivity.
Qed.

Lemma run_extension bef aft :
  run false (pattern extensionRegex) (MState bef aft []) (fun y => Some y)
  = match aft with
    | c :: aft' =>
        if Ascii.eqb "." c && isExtension aft'
        then Some (MState (rev aft ++ bef) [] []) else None
    | [] => None
    end.
Proof.
  cbn [extensionRegex pattern seq run after before caps].
  destruct aft as [|c aft]; [reflexivity|].
  unfold only at 1; destruct (Ascii.eqb "." c); cbn [andb]; [|reflexivity].
  unfold lazyPlus; rewrite run_Rep_Chr; cbn [before after caps].
  destruct aft as [|d aft]; [reflexivity|].
  cbn [repChr negb Nat.eqb pred decr option_map isExtension forallb].
  destruct (word d); cbn [andb]; [|reflexivity].
  rewrite repChr_lazy_word_eol.
  destruct (forallb word aft); [|reflexivity].
  cbn [rev]; rewrite <- !app_assoc; reflexivity.
Qed.

Lemma search_extension : forall aft bef,
  match search false (pattern extensionRegex) bef aft with
  | Some (i, y) =>
      length bef <= i /\ before y = rev aft ++ bef /\
      replaceExtensionSpec aft = firstn (i - length bef) aft ++ dotHtml
  | None => replaceExtensionSpec aft = aft
  end.
Proof.
  induction aft as [|c aft IH]; intros bef.
  - rewrite search_nil, run_extension; reflexivity.
  - rewrite search_S, run_extension.
    cbn [replaceExtensionSpec].
    destruct (Ascii.eqb "." c && isExtension aft).
    + split; [lia|split; [reflexivity|]].
      rewrite Nat.sub_diag; reflexivity.
    + specialize (IH (c :: bef)).
      destruct (search false (pattern extensionRegex) (c :: bef) aft)
        as [[i y]|].
      * destruct IH as [H1 [H2 H3]]; cbn [length] in H1.
        split; [lia|split].
        -- rewrite H2; cbn [rev]; rewrite <- app_assoc; reflexivity.
        -- rewrite H3; cbn [length].
           replace (i - length bef) with (S (i - S (length bef))) by lia.
           reflexivity.
      * rewrite IH; reflexivity.
Qed.

Lemma replace_extension p :
  replace extensionRegex dotHtml p = replaceExtensionSpec p.
Proof.
  unfold replace, replaceWith; cbn [flagG extensionRegex].
  change (RegExp _ false false) with extensionRegex.
  unfold execFrom; cbn [Nat.ltb Nat.leb firstn skipn rev flagM extensionRegex].
  change (seq _) with (pattern extensionRegex).
  pose proof (search_extension p []) as H.
  destruct (search false (pattern extensionRegex) [] p) as [[i y]|].
  - destruct H as [_ [H2 H3]]; cbn [substitute index endIndex].
    rewrite H3, H2, app_nil_r, length_rev, skipn_all, app_nil_r.
    unfold slice; cbn [skipn length]; rewrite !Nat.sub_0_r; reflexivity.
  - symmetry; exact H.
Qed.

Lemma search_drive_not_start : forall aft b bef,
  search false (pattern driveRegex) (b :: bef) aft = None.
Proof.
  induction aft as [|ch aft IH]; intros b bef.
  - reflexivity.
  - rewrite search_S; cbn [driveRegex pattern seq run before].
    cbn [andb]. apply IH.
Qed.

Lemma replace_drive p :
  replaceWith driveRegex
    (fun m => toUpperCase (capture 1 m) ++ [":"; "\"]) p
  = upperDriveSpec p.
Proof.
  unfold replaceWith; cbn [flagG driveRegex].
  change (RegExp _ false false) with driveRegex.
  unfold execFrom; cbn [Nat.ltb Nat.leb firstn skipn rev flagM driveRegex].
  change (seq _) with (pattern driveRegex).
  destruct p as [|d p]; [reflexivity|].
  rewrite search_S, search_drive_not_start.
  cbn [driveRegex pattern seq run before after caps].
  unfold upperDriveSpec.
  destruct (oneOf (str "cdefghij") d) eqn:Ed; cbn [andb];
    [|destruct p as [|c1 [|c2 p]]; reflexivity].
  destruct p as [|c1 p]; [reflexivity|].
  unfold only at 1.
  destruct (Ascii.eqb_spec ":" c1) as [<-|N1]; cbn [andb];
    [|destruct p; reflexivity].
  destruct p as [|c2 p]; [reflexivity|].
  unfold only at 1.
  destruct (Ascii.eqb_spec "\" c2) as [<-|N2]; reflexivity.
Qed.

(** C8 (fails on the code): a path on drive [z] keeps its lower-case drive
    letter; only the letters c to j are put in upper case. *)
Lemma deriveOutPath_drive_z :
  deriveOutPath (js "z:\\docs\\a.md") = js "z:\\docs\\a.html"
  /\ deriveOutPath (js "z:\\docs\\a.md") <> js "Z:\\docs\\a.html".
Proof. split; vm_compute; [reflexivity|discriminate]. Qed.

(** C8 (as amended): for every path the derived output path is the path
    with its trailing extension replaced by [.html], then with its drive
    letter in upper case when the path starts with one of the lower-case
    letters c to j followed by a colon and a backslash, then with [.html]
    appended when it does not end with it. *)
Theorem deriveOutPath_spec (p : jsstring) :
  deriveOutPath p = deriveOutPathSpec p.
Proof.
  unfold deriveOutPath, deriveOutPathSpec.
  rewrite replace_extension, replace_drive.
  destruct (endsWith dotHtml (upperDriveSpec (replaceExtensionSpec p)));
    reflexivity.
Qed.

(** ** More on the output path *)

Lemma endsWith_app d q : endsWith d (q ++ d) = true.
Proof. unfold endsWith; rewrite rev_app_distr; apply startsWith_app. Qed.

Lemma startsWith_split : forall d s,
  startsWith d s = true -> exists t, s = d ++ t.
Proof.
  induction d as [|c d IH]; intros s H; [exists s; reflexivity|].
  destruct s as [|x s]; [discriminate H|].
  simpl in H; apply andb_prop in H; destruct H as [Hc Hd].
  apply Ascii.eqb_eq in Hc; subst x.
  destruct (IH s Hd) as [t ->]; exists t; reflexivity.
Qed.

Lemma endsWith_split d s : endsWith d s = true -> exists b, s = b ++ d.
Proof.
  unfold endsWith; intros H; apply startsWith_split in H; destruct H as [t H].
  exists (rev t); rewrite <- (rev_involutive s), H, rev_app_distr, rev_involutive.
  reflexivity.
Qed.

Lemma isExtension_app_false a c b :
  word c = false -> isExtension (a ++ c :: b) = false.
Proof.
  intros Hc; unfold isExtension.
  destruct (a ++ c :: b) eqn:E; [reflexivity|rewrite <- E].
  rewrite forallb_app; simpl; rewrite Hc, andb_false_r; reflexivity.
Qed.

(** The extension is looked for after the last code unit that is no word
    character. *)
Lemma replaceExtensionSpec_after : forall a c b,
  word c = false -> Ascii.eqb "." c = false ->
  replaceExtensionSpec (a ++ c :: b) = a ++ c :: replaceExtensionSpec b.
Proof.
  induction a as [|x a IH]; intros c b Hc Hd; cbn [app replaceExtensionSpec].
  - rewrite Hd; reflexivity.
  - rewrite isExtension_app_false by exact Hc.
    rewrite andb_false_r, IH by assumption; reflexivity.
Qed.

Lemma replaceExtensionSpec_ext : forall base ext,
  isExtension ext = true ->
  replaceExtensionSpec (base ++ "." :: ext) = base ++ dotHtml.
Proof.
  induction base as [|x base IH]; intros ext H; cbn [app replaceExtensionSpec].
  - rewrite H; reflexivity.
  - rewrite isExtension_app_false by reflexivity.
    rewrite andb_false_r, IH by exact H; reflexivity.
Qed.

Lemma replaceExtensionSpec_html base :
  replaceExtensionSpec (base ++ dotHtml) = base ++ dotHtml.
Proof. apply (replaceExtensionSpec_ext base (str "html")); reflexivity. Qed.

Lemma upperDriveSpec_fixed p :
  upperDriveSpec (upperDriveSpec p) = upperDriveSpec p.
Proof.
  destruct p as [|d [|c1 [|c2 rest]]]; try reflexivity.
  cbn [upperDriveSpec].
  destruct (oneOf (str "cdefghij") d && Ascii.eqb ":" c1 && Ascii.eqb "\" c2)
    eqn:E.
  - apply andb_prop in E; destruct E as [E _].
    apply andb_prop in E; destruct E as [E _].
    unfold oneOf in E; cbn [str list_ascii_of_string existsb] in E.
    repeat (apply orb_prop in E; destruct E as [E|E];
            [apply Ascii.eqb_eq in E; subst d; reflexivity|]).
    discriminate E.
  - cbn [upperDriveSpec]; rewrite E; reflexivity.
Qed.

Lemma upperDriveSpec_html p :
  upperDriveSpec p = p -> upperDriveSpec (p ++ dotHtml) = p ++ dotHtml.
Proof.
  destruct p as [|d [|c1 [|c2 rest]]]; intros H.
  - reflexivity.
  - cbn [app upperDriveSpec dotHtml str list_ascii_of_string].
    rewrite andb_false_r; reflexivity.
  - cbn [app upperDriveSpec dotHtml str list_ascii_of_string].
    rewrite andb_false_r; reflexivity.
  - cbn [app upperDriveSpec] in *.
    destruct (oneOf (str "cdefghij") d && Ascii.eqb ":" c1 && Ascii.eqb "\" c2);
      [|reflexivity].
    injection H as Hd H0 H1; subst c1 c2; rewrite Hd; reflexivity.
Qed.

Lemma deriveOutPath_eq p : deriveOutPath p = deriveOutPathSpec p.
Proof.
  unfold deriveOutPath, deriveOutPathSpec.
  rewrite replace_extension, replace_drive.
  destruct (endsWith dotHtml (upperDriveSpec (replaceExtensionSpec p)));
    reflexivity.
Qed.

(** X1: the output path always ends with [.html]. *)
Theorem deriveOutPath_ends_with_html (p : jsstring) :
  endsWith dotHtml (deriveOutPath p) = true.
Proof.
  rewrite deriveOutPath_eq; unfold deriveOutPathSpec.
  destruct (endsWith dotHtml (upperDriveSpec (replaceExtensionSpec p))) eqn:E;
    [exact E|apply endsWith_app].
Qed.

(** X2: deriving the output path of an output path changes nothing. *)
Theorem deriveOutPath_idempotent (p : jsstring) :
  deriveOutPath (deriveOutPath p) = deriveOutPath p.
Proof.
  assert (F : forall r, endsWith dotHtml r = true -> upperDriveSpec r = r ->
                        deriveOutPathSpec r = r).
  { intros r Hr Hu; unfold deriveOutPathSpec.
    destruct (endsWith_split _ _ Hr) as [b ->].
    rewrite replaceExtensionSpec_html, Hu, Hr; reflexivity. }
  rewrite (deriveOutPath_eq (deriveOutPath p)).
  rewrite deriveOutPath_eq; unfold deriveOutPathSpec at 2 3.
  destruct (endsWith dotHtml (upperDriveSpec (replaceExtensionSpec p))) eqn:E.
  - apply F; [exact E|apply upperDriveSpec_fixed].
  - apply F; [apply endsWith_app|].
    apply upperDriveSpec_html, upperDriveSpec_fixed.
Qed.

(** X3: in the export of a workspace, the output path of [base.md] is
    [base.html]. *)
Theorem workspaceOutPath_md (base : jsstring) :
  workspaceOutPath None (base ++ str ".md") = base ++ dotHtml.
Proof.
  unfold workspaceOutPath; rewrite replace_extension.
  apply (replaceExtensionSpec_ext base (str "md")); reflexivity.
Qed.

Lemma upperDriveSpec_slash r : upperDriveSpec ("/" :: r) = "/" :: r.
Proof. destruct r as [|c1 [|c2 r]]; reflexivity. Qed.

Lemma upperDriveSpec_no_colon y :
  forallb (except ":") y = true -> upperDriveSpec y = y.
Proof.
  destruct y as [|d [|c1 [|c2 rest]]]; try reflexivity.
  cbn [forallb]; intros H.
  apply andb_prop in H; destruct H as [_ H].
  apply andb_prop in H; destruct H as [H _].
  unfold except in H; cbn [upperDriveSpec].
  destruct (Ascii.eqb ":" c1); [discriminate H|].
  rewrite andb_false_r; reflexivity.
Qed.

Lemma replaceExtensionSpec_no_colon : forall name,
  forallb (except ":") name = true ->
  forallb (except ":") (replaceExtensionSpec name) = true.
Proof.
  induction name as [|c name IH]; intros H; [reflexivity|].
  cbn [forallb] in H; apply andb_prop in H; destruct H as [Hc H].
  cbn [replaceExtensionSpec].
  destruct (Ascii.eqb "." c && isExtension name); [reflexivity|].
  cbn [forallb]; rewrite Hc, IH by exact H; reflexivity.
Qed.

Lemma startsWith_before_slash : forall e u v,
  forallb (except "/") e = true ->
  startsWith e (u ++ "/" :: v) = startsWith e u.
Proof.
  induction e as [|c e IH]; intros u v H; [reflexivity|].
  cbn [forallb] in H; apply andb_prop in H; destruct H as [Hc H].
  destruct u as [|x u]; cbn [app startsWith].
  - unfold except in Hc; rewrite Ascii.eqb_sym in Hc.
    destruct (Ascii.eqb c "/"); [discriminate Hc|reflexivity].
  - rewrite IH by exact H; reflexivity.
Qed.

Lemma endsWith_after_slash dir y :
  endsWith dotHtml (dir ++ "/" :: y) = endsWith dotHtml y.
Proof.
  unfold endsWith; rewrite rev_app_distr; cbn [rev].
  rewrite <- app_assoc; cbn [app].
  apply startsWith_before_slash; reflexivity.
Qed.

(** X4: the page of a document is written into the directory of the
    document. *)
Theorem deriveOutPath_same_directory (dir name : jsstring) :
  startsWith ["/"] dir = true ->
  forallb (except ":") name = true ->
  deriveOutPath (dir ++ "/" :: name) = dir ++ "/" :: deriveOutPath name.
Proof.
  intros Hd Hn; rewrite !deriveOutPath_eq; unfold deriveOutPathSpec.
  rewrite replaceExtensionSpec_after by reflexivity.
  rewrite (upperDriveSpec_no_colon (replaceExtensionSpec name))
    by (apply replaceExtensionSpec_no_colon; exact Hn).
  destruct dir as [|c dir]; [discriminate Hd|].
  cbn [startsWith] in Hd; apply andb_prop in Hd; destruct Hd as [Hc _].
  apply Ascii.eqb_eq in Hc; subst c.
  cbn [app]; rewrite upperDriveSpec_slash.
  change ("/" :: dir ++ "/" :: replaceExtensionSpec name)
    with (("/" :: dir) ++ "/" :: replaceExtensionSpec name).
  rewrite endsWith_after_slash.
  destruct (endsWith dotHtml (replaceExtensionSpec name)); [reflexivity|].
  cbn [app]; rewrite <- app_assoc; reflexivity.
Qed.

Lemma deriveOutPath_same_directory_witness :
  deriveOutPath (js "/home/u/notes" ++ "/" :: js "a.b.md")
  = js "/home/u/notes" ++ "/" :: deriveOutPath (js "a.b.md").
Proof. apply deriveOutPath_same_directory; reflexivity. Defined.

(** ** More on the table of contents *)

Lemma nth_error_pushChild st v r i :
  nth_error (pushChild st v r) i
  = match nth_error st i with
    | Some o => Some (if i =? v then addChild o r else o)
    | None => None
    end.
Proof.
  unfold pushChild; destruct (nth_error st v) as [ov|] eqn:Ev.
  - rewrite nth_error_replaceNth.
    destruct (i =? v) eqn:Ei; cbn [andb].
    + apply Nat.eqb_eq in Ei; subst i; rewrite Ev.
      assert (Hlt : v < length st) by (apply nth_error_Some; congruence).
      apply Nat.ltb_lt in Hlt; rewrite Hlt; reflexivity.
    + destruct (nth_error st i); reflexivity.
  - destruct (nth_error st i) as [o|] eqn:Ei; [|reflexivity].
    destruct (Nat.eqb_spec i v) as [->|]; [congruence|reflexivity].
Qed.

Lemma nth_error_snoc {A : Type} (l : list A) (x : A) i :
  nth_error (l ++ [x]) i
  = if i <? length l then nth_error l i
    else if i =? length l then Some x else None.
Proof.
  destruct (Nat.ltb_spec i (length l)) as [H|H].
  - apply nth_error_app1; exact H.
  - rewrite nth_error_app2 by exact H.
    destruct (Nat.eqb_spec i (length l)) as [->|N].
    + rewrite Nat.sub_diag; reflexivity.
    + destruct (i - length l) as [|d] eqn:E; [lia|].
      simpl; destruct d; reflexivity.
Qed.

Lemma levelsOk_bound st :
  levelsOk st -> forall p o c, nth_error st p = Some o -> In c (children o) ->
  c < length st.
Proof.
  intros H p o c Hp Hc; destruct (H p o c Hp Hc) as [_ [oc [E _]]].
  apply nth_error_Some; congruence.
Qed.

Lemma tocStep_levelsOk s h s' :
  levelsOk (store s) -> stackOk (store s) (tocStack s) ->
  tocStep s h = inr s' ->
  levelsOk (store s') /\ stackOk (store s') (tocStack s').
Proof.
  intros HL HS H; unfold tocStep in H.
  set (o := newHeaderObject h) in *.
  set (r := length (store s)) in *.
  assert (Hco : children o = []) by reflexivity.
  destruct (headerLevel o) as [|[|k]] eqn:EL; [discriminate| |].
  - (* a new root *)
    inversion H; subst s'; clear H; cbn [store tocStack]; split.
    + intros p q c Hp Hc; rewrite nth_error_snoc in Hp.
      destruct (p <? length (store s)) eqn:Ep.
      * destruct (HL p q c Hp Hc) as [Hlt [oc [E1 E2]]].
        split; [exact Hlt|exists oc; split; [|exact E2]].
        rewrite nth_error_app1; [exact E1|apply nth_error_Some; congruence].
      * destruct (p =? length (store s)); [|discriminate].
        inversion Hp; subst q; rewrite Hco in Hc; destruct Hc.
    + intros j v Hj; destruct j as [|[|j]]; simpl in Hj; try discriminate.
      inversion Hj; subst v; exists o; split; [|exact EL].
      rewrite nth_error_snoc; fold r.
      rewrite Nat.ltb_irrefl, Nat.eqb_refl; reflexivity.
  - (* a child of the object in slot k *)
    destruct (arrayGet (tocStack s) k) as [parent|] eqn:Ek; [|discriminate].
    inversion H; subst s'; clear H; cbn [store tocStack].
    destruct (HS k parent Ek) as [op [Ep Lp]].
    assert (Hpr : parent < r) by (apply nth_error_Some; congruence).
    assert (Look : forall i,
      nth_error (pushChild (store s ++ [o]) parent r) i
      = if i <? r then
          match nth_error (store s) i with
          | Some q => Some (if i =? parent then addChild q r else q)
          | None => None
          end
        else if i =? r then Some o else None).
    { intros i; rewrite nth_error_pushChild, nth_error_snoc; fold r.
      destruct (i <? r) eqn:Ei; [reflexivity|].
      destruct (Nat.eqb_spec i r) as [->|]; [|reflexivity].
      destruct (Nat.eqb_spec r parent); [lia|reflexivity]. }
    split.
    + intros p q c Hp Hc; rewrite Look in Hp.
      destruct (p <? r) eqn:Eplt.
      * destruct (nth_error (store s) p) as [q0|] eqn:Eq0; [|discriminate].
        inversion Hp; subst q; clear Hp.
        assert (Old : In c (children q0) ->
                      p < c /\ exists oc,
                        nth_error (pushChild (store s ++ [o]) parent r) c
                        = Some oc /\ headerLevel oc = S (headerLevel q0)).
        { intros Hin; destruct (HL p q0 c Eq0 Hin) as [Hlt [oc [E1 E2]]].
          split; [exact Hlt|].
          assert (Hcr : c < r) by (apply nth_error_Some; congruence).
          apply Nat.ltb_lt in Hcr; rewrite Look, Hcr, E1.
          eexists; split; [reflexivity|].
          destruct (c =? parent); [exact E2|exact E2]. }
        destruct (Nat.eqb_spec p parent) as [->|Np].
        -- cbn [addChild children headerLevel] in *.
           apply in_app_or in Hc; destruct Hc as [Hc|[Hc|[]]];
             [apply Old; exact Hc|subst c].
           split; [exact Hpr|].
           rewrite Look, Nat.ltb_irrefl, Nat.eqb_refl.
           exists o; split; [reflexivity|].
           rewrite Ep in Eq0; inversion Eq0; subst q0; congruence.
        -- apply Old; exact Hc.
      * destruct (p =? r); [|discriminate].
        inversion Hp; subst q; rewrite Hco in Hc; destruct Hc.
    + intros j v Hj; rewrite arrayGet_arraySet in Hj.
      destruct (Nat.eqb_spec j (S k)) as [->|Nj].
      * inversion Hj; subst v; rewrite Look, Nat.ltb_irrefl, Nat.eqb_refl.
        exists o; split; [reflexivity|exact EL].
      * destruct (HS j v Hj) as [q [E1 E2]].
        assert (Hv : v < r) by (apply nth_error_Some; congruence).
        apply Nat.ltb_lt in Hv; rewrite Look, Hv, E1.
        eexists; split; [reflexivity|].
        destruct (v =? parent); exact E2.
Qed.

Lemma tocLoop_levelsOk : forall l s s',
  levelsOk (store s) -> stackOk (store s) (tocStack s) ->
  tocLoop s l = inr s' ->
  levelsOk (store s') /\ stackOk (store s') (tocStack s').
Proof.
  induction l as [|h l IH]; intros s s' HL HS H; simpl in H.
  - inversion H; subst; split; assumption.
  - destruct (tocStep s h) as [e|s1] eqn:E; [discriminate|].
    destruct (tocStep_levelsOk s h s1 HL HS E) as [HL1 HS1].
    exact (IH s1 s' HL1 HS1 H).
Qed.

(** X5: in every table of contents the build returns, a heading that is a
    child of another is exactly one level below it and comes after it in
    the document. *)
Theorem buildToc_child_one_level_below
  (l : list jsstring) (s : tocState) (p c : nat) (o : headerObject) :
  buildToc l = inr s ->
  nth_error (store s) p = Some o ->
  In c (children o) ->
  p < c /\ exists oc, nth_error (store s) c = Some oc /\
                      headerLevel oc = S (headerLevel o).
Proof.
  unfold buildToc; intros H Hp Hc.
  destruct (length l <=? 2).
  - inversion H; subst s; destruct p; discriminate Hp.
  - apply tocLoop_levelsOk in H.
    + destruct H as [HL _]; exact (HL p o c Hp Hc).
    + intros q o' c' Hq; destruct q; discriminate Hq.
    + intros k v Hk; destruct k; discriminate Hk.
Qed.

Lemma buildToc_child_one_level_below_witness :
  exists s o,
    buildToc exampleTocLines = inr s /\
    nth_error (store s) 0 = Some o /\
    In 1 (children o) /\
    (0 < 1 /\ exists oc, nth_error (store s) 1 = Some oc /\
                         headerLevel oc = S (headerLevel o)).
Proof.
  assert (E : buildToc exampleTocLines = inr exampleToc)
    by (vm_compute; reflexivity).
  destruct (nth_error (store exampleToc) 0) as [o|] eqn:Eo;
    [|vm_compute in Eo; discriminate Eo].
  assert (Hin : In 1 (children o)).
  { vm_compute in Eo; inversion Eo; subst o; left; reflexivity. }
  exists exampleToc, o; split; [exact E|split; [exact Eo|split; [exact Hin|]]].
  exact (buildToc_child_one_level_below exampleTocLines exampleToc 0 1 o
           E Eo Hin).
Defined.

Lemma tocLoop_nested : forall l s prev,
  filledBelow prev (tocStack s) ->
  nested prev (map headerLevelOf l) = true ->
  exists s', tocLoop s l = inr s' /\
             length (store s') = length (store s) + length l /\
             tocString s' = tocString s.
Proof.
  induction l as [|h l IH]; intros s prev HF HN.
  - exists s; simpl; repeat split; lia.
  - cbn [map nested] in HN.
    apply andb_prop in HN; destruct HN as [HN Hr].
    apply andb_prop in HN; destruct HN as [H2 Hp].
    apply Nat.leb_le in H2; apply Nat.leb_le in Hp.
    cbn [tocLoop]; unfold tocStep; rewrite headerLevel_new.
    destruct (headerLevelOf h) as [|[|k]] eqn:EL; [lia|lia|].
    destruct (arrayGet (tocStack s) k) as [parent|] eqn:Ek;
      [|exfalso; apply (HF k); [lia|exact Ek]].
    assert (HF' : filledBelow (S (S k)) (arraySet (tocStack s) (S k) (length (store s)))).
    { intros j Hj; rewrite arrayGet_arraySet.
      destruct (Nat.eqb_spec j (S k)); [discriminate|].
      apply HF; lia. }
    match goal with
    | |- exists _, tocLoop ?s1 l = _ /\ _ =>
        destruct (IH s1 (S (S k)) HF' Hr) as [s' [E1 [E2 E3]]]
    end.
    exists s'; split; [exact E1|]; cbn [store tocString] in *.
    split; [|exact E3].
    rewrite E2; unfold pushChild.
    destruct (nth_error (store s ++ [newHeaderObject h]) parent).
    + assert (L : forall (A : Type) (x : list A) i v,
                   length (replaceNth x i v) = length x).
        { intros A x; induction x as [|a x IHx]; intros [|i] v; simpl;
            try reflexivity; rewrite IHx; reflexivity. }
      rewrite L, length_app; simpl; lia.
    + rewrite length_app; simpl; lia.
Qed.

(** X6: a list of lines that starts with the title and never goes down by
    more than one level is built without error; every line becomes one
    object of the store and the title is the only root. *)
Theorem buildToc_well_nested (l : list jsstring) :
  wellNested l = true ->
  exists s, buildToc l = inr s /\
            (2 < length l ->
             length (store s) = length l /\ tocString s = [0]).
Proof.
  unfold wellNested, buildToc; intros H.
  destruct (length l <=? 2) eqn:E2.
  - eexists; split; [reflexivity|].
    apply Nat.leb_le in E2; intros; lia.
  - destruct l as [|h l]; [discriminate E2|].
    cbn [map] in H.
    destruct (headerLevelOf h) as [|[|n]] eqn:EL; try discriminate H.
    cbn [tocLoop]; unfold tocStep; rewrite headerLevel_new, EL.
    cbn [store tocString tocStack app length].
    assert (HF : filledBelow 1 [Some 0])
      by (intros k Hk; destruct k; [discriminate|lia]).
    match goal with
    | |- exists _, tocLoop ?s1 l = _ /\ _ =>
        destruct (tocLoop_nested l s1 1 HF H) as [s' [E1 [E3 E4]]]
    end.
    exists s'; split; [exact E1|]; intros _.
    cbn [store tocString length] in *; split; [lia|exact E4].
Qed.

Lemma buildToc_well_nested_witness :
  exists s, buildToc exampleTocLines = inr s /\
            (2 < length exampleTocLines ->
             length (store s) = length exampleTocLines /\ tocString s = [0]).
Proof. apply buildToc_well_nested; reflexivity. Defined.

Lemma repChr_greedy_all p : forall aft mn bef cs,
  repChr p true mn None bef aft cs (fun y => Some y)
  = if mn <=? countWhile p aft
    then Some (MState (rev (firstn (countWhile p aft) aft) ++ bef)
                 (skipn (countWhile p aft) aft) cs)
    else None.
Proof.
  induction aft as [|ch aft IH]; intros mn bef cs.
  - destruct mn; reflexivity.
  - cbn [repChr countWhile decr option_map].
    destruct (p ch) eqn:Ep.
    + rewrite IH; destruct mn as [|mn]; cbn [negb Nat.eqb pred Nat.leb].
      * cbn [firstn skipn rev]; rewrite <- app_assoc; reflexivity.
      * destruct (mn <=? countWhile p aft); [|reflexivity].
        cbn [firstn skipn rev]; rewrite <- app_assoc; reflexivity.
    + destruct mn; reflexivity.
Qed.

(** The level of a heading line is the number of its leading hashes. *)
Lemma headerLevelOf_count l : headerLevelOf l = countWhile (only hash) l.
Proof.
  unfold headerLevelOf, matchRe, execFrom.
  cbn [Nat.ltb Nat.leb firstn skipn rev leadingHashesRegex flagM pattern].
  assert (R : forall aft,
    run false (Seq Bol (plus (Chr (only hash)))) (MState [] aft [])
      (fun y => Some y)
    = if 1 <=? countWhile (only hash) aft
      then Some (MState (rev (firstn (countWhile (only hash) aft) aft))
                   (skipn (countWhile (only hash) aft) aft) [])
      else None).
  { intros aft; rewrite run_Seq, run_Bol; cbn [before].
    unfold plus; rewrite run_Rep_Chr, repChr_greedy_all; cbn [before after caps].
    rewrite app_nil_r; reflexivity. }
  assert (Z : (1 <=? countWhile (only hash) l) = false ->
              0 = countWhile (only hash) l).
  { intros H; apply Nat.leb_gt in H; lia. }
  destruct l as [|c l].
  - rewrite search_nil, R; reflexivity.
  - rewrite search_S, R.
    destruct (1 <=? countWhile (only hash) (c :: l)) eqn:E.
    + cbn [matched before length].
      rewrite Nat.sub_0_r, length_rev, firstn_all, length_rev, length_firstn.
      apply Nat.min_l, countWhile_le.
    + rewrite search_bol_not_start; apply Z; reflexivity.
Qed.

(** A quantified class succeeds only through its continuation, at a
    position within its bounds. *)
Lemma repChr_success p greedy : forall aft mn mx bef cs c z,
  repOk mn mx ->
  repChr p greedy mn mx bef aft cs c = Some z ->
  exists j, mn <= j /\ j <= countWhile p aft /\
            (forall m, mx = Some m -> j <= m) /\
            c (MState (rev (firstn j aft) ++ bef) (skipn j aft) cs) = Some z.
Proof.
  induction aft as [|ch aft IH]; intros mn mx bef cs c z Hok H.
  - assert (Here : c (MState bef [] cs) = Some z /\ mn = 0).
    { cbn [repChr] in H.
      destruct mx as [[|m]|]; cbn [repOk] in Hok.
      - split; [exact H|lia].
      - destruct mn; cbn [negb Nat.eqb] in H; [|discriminate H].
        split; [|reflexivity].
        destruct greedy; [exact H|].
        destruct (c (MState bef [] cs)); [exact H|discriminate H].
      - destruct mn; cbn [negb Nat.eqb] in H; [|discriminate H].
        split; [|reflexivity].
        destruct greedy; [exact H|].
        destruct (c (MState bef [] cs)); [exact H|discriminate H]. }
    destruct Here as [Hc ->]; exists 0; cbn.
    split; [lia|split; [lia|split; [intros; lia|exact Hc]]].
  - assert (Zero : c (MState bef (ch :: aft) cs) = Some z -> mn = 0 ->
                   exists j, mn <= j /\ j <= countWhile p (ch :: aft) /\
                     (forall m, mx = Some m -> j <= m) /\
                     c (MState (rev (firstn j (ch :: aft)) ++ bef)
                          (skipn j (ch :: aft)) cs) = Some z).
    { intros Hc ->; exists 0; cbn [firstn skipn rev app].
      split; [lia|split; [lia|split; [intros; lia|exact Hc]]]. }
    assert (More : mx <> Some 0 ->
                   (if p ch
                    then repChr p greedy (pred mn) (decr mx) (ch :: bef) aft cs c
                    else None) = Some z ->
                   exists j, mn <= j /\ j <= countWhile p (ch :: aft) /\
                     (forall m, mx = Some m -> j <= m) /\
                     c (MState (rev (firstn j (ch :: aft)) ++ bef)
                          (skipn j (ch :: aft)) cs) = Some z).
    { intros Hmx Hm; cbn [countWhile].
      destruct (p ch); [|discriminate Hm].
      apply IH in Hm.
      - destruct Hm as [j [H1 [H2 [H3 H4]]]]; exists (S j).
        cbn [firstn skipn rev]; rewrite <- app_assoc.
        split; [lia|split; [lia|split; [|exact H4]]].
        intros m Em; subst mx; destruct m as [|m]; [congruence|].
        specialize (H3 m eq_refl); lia.
      - destruct mx as [[|m]|]; cbn [repOk decr option_map pred] in *;
          [congruence|lia|exact I]. }
    cbn [repChr] in H.
    destruct mx as [[|m]|].
    + cbn [repOk] in Hok; apply Zero; [exact H|lia].
    + destruct mn as [|mn]; cbn [negb Nat.eqb] in H.
      * destruct greedy.
        -- match type of H with
           | match ?e with _ => _ end = _ => destruct e as [z'|] eqn:Em
           end.
           ++ inversion H; subst z'; apply More; [discriminate|reflexivity].
           ++ apply Zero; [exact H|reflexivity].
        -- destruct (c (MState bef (ch :: aft) cs)) as [z'|] eqn:Ec.
           ++ inversion H; subst z'; apply Zero; reflexivity.
           ++ apply More; [discriminate|exact H].
      * apply More; [discriminate|exact H].
    + destruct mn as [|mn]; cbn [negb Nat.eqb] in H.
      * destruct greedy.
        -- match type of H with
           | match ?e with _ => _ end = _ => destruct e as [z'|] eqn:Em
           end.
           ++ inversion H; subst z'; apply More; [discriminate|reflexivity].
           ++ apply Zero; [exact H|reflexivity].
        -- destruct (c (MState bef (ch :: aft) cs)) as [z'|] eqn:Ec.
           ++ inversion H; subst z'; apply Zero; reflexivity.
           ++ apply More; [discriminate|exact H].
      * apply More; [discriminate|exact H].
Qed.

Lemma countWhile_skipn p : forall aft j,
  j < countWhile p aft -> exists c r, skipn j aft = c :: r /\ p c = true.
Proof.
  induction aft as [|ch aft IH]; intros j H; simpl in H; [lia|].
  destruct (p ch) eqn:Ep; [|lia].
  destruct j as [|j]; [exists ch, aft; split; [reflexivity|exact Ep]|].
  apply IH; lia.
Qed.

(** A line accepted by a heading pattern "^#{mn,mx} " has between [mn] and
    [mx] leading hashes. *)
Lemma test_heading_pattern mn mx l :
  mn <= mx ->
  test (RegExp (seq [Bol; between mn mx (Chr (only hash)); Chr (only " ")])
          false false) l = true ->
  mn <= countWhile (only hash) l <= mx.
Proof.
  intros Hm; unfold test, execFrom.
  cbn [Nat.ltb Nat.leb firstn skipn rev flagM pattern seq].
  assert (R : forall z,
    run false
      (Seq Bol (Seq (between mn mx (Chr (only hash))) (Chr (only " "))))
      (MState [] l []) (fun y => Some y) = Some z ->
    mn <= countWhile (only hash) l <= mx).
  { intros z H; rewrite run_Seq, run_Bol in H; cbn [before] in H.
    unfold between in H; rewrite run_Seq, run_Rep_Chr in H.
    apply repChr_success in H; [|exact Hm].
    destruct H as [j [H1 [H2 [H3 H4]]]]; specialize (H3 mx eq_refl).
    cbn [before after caps] in H2, H4.
    destruct (Nat.eq_dec j (countWhile (only hash) l)) as [<-|N]; [lia|].
    destruct (countWhile_skipn (only hash) l j) as [c [r [E Hc]]]; [lia|].
    cbn [run after] in H4; rewrite E in H4.
    unfold only in *; apply Ascii.eqb_eq in Hc; subst c.
    discriminate H4. }
  destruct l as [|c l].
  - rewrite search_nil.
    destruct (run false _ (MState [] [] []) (fun y => Some y)) eqn:E;
      [intros _; exact (R _ eq_refl)|discriminate].
  - rewrite search_S.
    destruct (run false _ (MState [] (c :: l) []) (fun y => Some y)) eqn:E;
      [intros _; exact (R _ eq_refl)|].
    rewrite search_bol_not_start; discriminate.
Qed.

(** X7: the list given to the build starts with a line of level 1, the
    title, and all its other lines have a level between 2 and 6. *)
Theorem tocStringList_levels (text : jsstring) :
  exists t r,
    tocStringList text = t :: r /\
    headerLevelOf t = 1 /\
    Forall (fun h => 2 <= headerLevelOf h <= 6) r.
Proof.
  unfold tocStringList; eexists; eexists; split; [reflexivity|split].
  - rewrite headerLevelOf_count; reflexivity.
  - apply Forall_forall; intros h Hin.
    apply filter_In in Hin; destruct Hin as [_ Ht].
    rewrite headerLevelOf_count.
    apply (test_heading_pattern 2 6 h); [lia|exact Ht].
Qed.

(** X8: in the first variant, a document with more than two heading lines
    whose first heading is not of level 1 makes the build throw. *)
Theorem legacy_buildToc_without_h1 (text h : jsstring) (rest : list jsstring) :
  legacyTocStringList text = h :: rest ->
  2 <= length rest ->
  startsWith (str "##") h = true ->
  buildToc (legacyTocStringList text) = inl TypeError.
Proof.
  intros E Hlen Hh; rewrite E; unfold buildToc.
  destruct (length (h :: rest) <=? 2) eqn:E2;
    [apply Nat.leb_le in E2; simpl in E2; lia|].
  cbn [tocLoop]; unfold tocStep; rewrite headerLevel_new, headerLevelOf_count.
  apply startsWith_split in Hh; destruct Hh as [t ->].
  cbn [str list_ascii_of_string app countWhile].
  unfold only at 1 2; rewrite !Ascii.eqb_refl.
  cbn [tocStack arrayGet nth_error].
  destruct (countWhile (only hash) t); reflexivity.
Qed.

Lemma legacy_buildToc_without_h1_witness :
  legacyTocStringList (js "## A\ntext\n### B\n## C\n")
  = js "## A" :: [js "### B"; js "## C"]
  /\ buildToc (legacyTocStringList (js "## A\ntext\n### B\n## C\n"))
     = inl TypeError.
Proof.
  split; [vm_compute; reflexivity|].
  apply (legacy_buildToc_without_h1 (js "## A\ntext\n### B\n## C\n") (js "## A")
           [js "### B"; js "## C"]);
    [vm_compute; reflexivity | simpl; lia | reflexivity].
Defined.

(** ** More on image references *)

Lemma run_Chr m p x c :
  run m (Chr p) x c
  = match after x with
    | ch :: aft =>
        if p ch then c (MState (ch :: before x) aft (caps x)) else None
    | [] => None
    end.
Proof. reflexivity. Qed.

Lemma run_Eol m x c :
  run m Eol x c
  = match after x with
    | [] => c x
    | ch :: _ => if m && isLineTerminator ch then c x else None
    end.
Proof. reflexivity. Qed.

Lemma imgTail_eq :
  imgTail
  = Seq (Group 2 (plus (Chr (except ")"))))
      (Seq (opt imgSize) (Seq (Chr (only ")")) Eol)).
Proof. reflexivity. Qed.

Lemma consumed_app b a cs w a' cs' :
  consumed (MState b a cs) (MState (rev w ++ b) a' cs') = w.
Proof.
  unfold consumed; cbn [before].
  rewrite length_app, length_rev, Nat.add_sub.
  rewrite firstn_app, length_rev, Nat.sub_diag, firstn_O, app_nil_r.
  rewrite <- length_rev, firstn_all; apply rev_involutive.
Qed.

(** A greedy class that can take all of [a] and not more hands [a] over to
    its continuation first. *)
Lemma repChr_greedy_max p : forall a rest mn bef cs c z,
  forallb p a = true ->
  match rest with
  | ch :: _ => p ch = false
  | [] => True
  end ->
  mn <= length a ->
  c (MState (rev a ++ bef) rest cs) = Some z ->
  repChr p true mn None bef (a ++ rest) cs c = Some z.
Proof.
  induction a as [|x a IH]; intros rest mn bef cs c z Ha Hr Hm Hc.
  - simpl in Hm; assert (mn = 0) by lia; subst mn.
    destruct rest as [|ch rest]; cbn [app repChr negb Nat.eqb].
    + exact Hc.
    + rewrite Hr; exact Hc.
  - cbn [forallb] in Ha; apply andb_prop in Ha; destruct Ha as [Hx Ha].
    cbn [app repChr decr option_map]; rewrite Hx.
    rewrite (IH rest (pred mn) (x :: bef) cs c z Ha Hr);
      [destruct mn; reflexivity | simpl in Hm; lia |].
    cbn [rev] in Hc; rewrite <- app_assoc in Hc; exact Hc.
Qed.

(** An optional part that cannot match is skipped. *)
Lemma run_opt_skip m a x c :
  (forall d, run m a (MState (before x) (after x)
                        (clearCaps (groupsOf a) (caps x))) d = None) ->
  run m (opt a) x c = c x.
Proof.
  intros H; unfold opt; rewrite run_Rep, repeatMatcher_S.
  cbv zeta; cbn [negb Nat.eqb]; rewrite H; reflexivity.
Qed.

Lemma startsWith_before ch : forall e u v,
  forallb (except ch) e = true ->
  startsWith e (u ++ ch :: v) = startsWith e u.
Proof.
  induction e as [|c e IH]; intros u v H; [reflexivity|].
  cbn [forallb] in H; apply andb_prop in H; destruct H as [Hc H].
  destruct u as [|x u]; cbn [app startsWith].
  - unfold except in Hc; rewrite Ascii.eqb_sym in Hc.
    destruct (Ascii.eqb c ch); [discriminate Hc|reflexivity].
  - rewrite IH by exact H; reflexivity.
Qed.

Lemma advance_None : forall d x,
  startsWith d (after x) = false -> advance d x = None.
Proof.
  induction d as [|c d IH]; intros x H; [discriminate H|].
  destruct x as [b a cs]; cbn [after] in H; cbn [advance after].
  destruct a as [|y a]; [reflexivity|].
  cbn [startsWith] in H.
  destruct (Ascii.eqb c y); [|reflexivity].
  apply IH; exact H.
Qed.

Lemma imgSize_fails m b r cs d :
  run m imgSize (MState b (")" :: r) cs) d = None.
Proof.
  unfold imgSize; rewrite run_Seq; unfold star; rewrite run_Rep_Chr.
  apply repChr_all_fail; intros j Hj; cbn [before after caps countWhile] in *.
  change (space ")") with false in Hj; cbn in Hj.
  assert (j = 0) by lia; subst j; cbn [firstn skipn rev app].
  cbn [seq]; rewrite run_Seq, run_Chr; reflexivity.
Qed.

(** The reference "![alt](src)" at the start of a line, followed by the end
    of the text, is matched as a whole, with [alt] and [src] as its first
    two groups. *)
Lemma run_imgRegex_reference alt src :
  forallb (except "]") alt = true ->
  forallb (except ")") src = true ->
  src <> [] ->
  startsWith placeholderPrefix src = false ->
  run true (pattern imgRegex)
    (MState [] (str "![" ++ alt ++ str "](" ++ src ++ str ")") [])
    (fun y => Some y)
  = Some (MState (rev (str "![" ++ alt ++ str "](" ++ src ++ str ")")) []
            [(2, src); (1, alt)]).
Proof.
  intros Halt Hsrc Hne Hpre.
  rewrite imgRegex_pattern, run_Seq, run_Bol; cbn [before].
  rewrite run_Seq, run_lit, advance_app.
  rewrite run_Seq, run_Group; unfold star; rewrite run_Rep_Chr.
  cbn [before after caps].
  apply repChr_greedy_max; [exact Halt|reflexivity|lia|].
  rewrite consumed_app; cbn [before after caps].
  rewrite run_Seq, run_lit, advance_app.
  rewrite run_Seq, run_NegLook, run_lit, advance_None.
  2:{ cbn [after]; change (str ")") with [")"].
      rewrite startsWith_before by reflexivity; exact Hpre. }
  rewrite imgTail_eq, run_Seq, run_Group; unfold plus; rewrite run_Rep_Chr.
  cbn [before after caps].
  apply repChr_greedy_max; [exact Hsrc|reflexivity| |].
  { destruct src; [congruence|simpl; lia]. }
  rewrite consumed_app; cbn [before after caps].
  rewrite run_Seq, run_opt_skip by (intros d; apply imgSize_fails).
  rewrite run_Seq, run_Chr; change (str ")") with [")"].
  cbn [after before caps]; change (only ")" ")") with true; cbv iota.
  rewrite run_Eol; cbn [after].
  change (setCap 1 alt []) with [(1, alt)].
  change (setCap 2 src [(1, alt)]) with [(2, src); (1, alt)].
  f_equal; f_equal.
  rewrite !rev_app_distr; cbn [rev str list_ascii_of_string app].
  rewrite <- !app_assoc; reflexivity.
Qed.

Lemma imgLoop_S fuel s :
  imgLoop (S fuel) s
  = match exec imgRegex (target s) (lastIndex s) with
    | (None, li) => Some (ImgState (blockText s) (target s) (imgSrcList s) li)
    | (Some imgMatch, li) =>
        let imgSrc := capture 2 imgMatch in
        let imgAlt := capture 1 imgMatch in
        if isLocalSrc imgSrc then
          let imgReplaced := imgReplacedOf imgAlt imgSrc in
          imgLoop fuel
            (ImgState (splice (blockText s) imgMatch imgReplaced)
               (splice (target s) imgMatch imgReplaced)
               (imgSrcList s ++ [imgSrc]) li)
        else imgLoop fuel (ImgState (blockText s) (target s) (imgSrcList s) li)
    end.
Proof. reflexivity. Qed.

Lemma search_hit m r bef aft y :
  run m r (MState bef aft []) (fun y => Some y) = Some y ->
  search m r bef aft = Some (length bef, y).
Proof.
  intros H; destruct aft; [rewrite search_nil|rewrite search_S];
    rewrite H; reflexivity.
Qed.

(** On one line, no search that starts after the first code unit finds the
    start of a line. *)
Lemma search_bol_one_line r : forall aft b bef,
  isLineTerminator b = false -> oneLine aft = true ->
  search true (Seq Bol r) (b :: bef) aft = None.
Proof.
  induction aft as [|ch aft IH]; intros b bef Hb Ha.
  - rewrite search_nil, run_Seq, run_Bol; cbn [before]; rewrite Hb; reflexivity.
  - cbn [oneLine forallb] in Ha; apply andb_prop in Ha; destruct Ha as [Hc Ha].
    rewrite search_S, run_Seq, run_Bol; cbn [before]; rewrite Hb; cbn [andb].
    apply IH; [|exact Ha].
    destruct (isLineTerminator ch); [discriminate Hc|reflexivity].
Qed.

Lemma exec_imgRegex_one_line s li :
  oneLine s = true -> 0 < li -> exec imgRegex s li = (None, 0).
Proof.
  intros Hs Hli; unfold exec, execFrom.
  change (flagG imgRegex) with true; change (flagM imgRegex) with true; cbv iota.
  destruct (length s <? li) eqn:E; [reflexivity|].
  apply Nat.ltb_ge in E.
  assert (Hall : forall c, In c s -> isLineTerminator c = false).
  { intros c Hc; unfold oneLine in Hs; rewrite forallb_forall in Hs.
    specialize (Hs c Hc); destruct (isLineTerminator c);
      [discriminate Hs|reflexivity]. }
  assert (Hin : forall c, In c (rev (firstn li s)) \/ In c (skipn li s) ->
                          In c s).
  { intros c Hc; rewrite <- (firstn_skipn li s); apply in_or_app.
    destruct Hc as [Hc|Hc]; [left; apply in_rev; exact Hc|right; exact Hc]. }
  destruct (rev (firstn li s)) as [|b bef] eqn:R.
  - apply (f_equal (@length ascii)) in R.
    rewrite length_rev, length_firstn in R; simpl in R; lia.
  - rewrite imgRegex_pattern, search_bol_one_line; [reflexivity| |].
    + apply Hall, Hin; left; left; reflexivity.
    + unfold oneLine; rewrite forallb_forall; intros c Hc.
      rewrite (Hall c); [reflexivity|apply Hin; right; exact Hc].
Qed.

Lemma exec_imgRegex_reference alt src :
  forallb (except "]") alt = true ->
  forallb (except ")") src = true ->
  src <> [] ->
  startsWith placeholderPrefix src = false ->
  exec imgRegex (imgReference alt src) 0
  = (Some (JsMatch 0 (imgReference alt src) [(2, src); (1, alt)]
             (length (imgReference alt src))),
     length (imgReference alt src)).
Proof.
  intros Halt Hsrc Hne Hpre; unfold exec, execFrom.
  change (flagG imgRegex) with true; change (flagM imgRegex) with true; cbv iota.
  change (length (imgReference alt src) <? 0) with false; cbv iota.
  cbn [firstn skipn rev].
  unfold imgReference.
  rewrite (search_hit _ _ _ _ _ (run_imgRegex_reference alt src Halt Hsrc Hne Hpre)).
  cbn [before caps length]; rewrite Nat.sub_0_r, firstn_all, rev_involutive.
  rewrite length_rev; reflexivity.
Qed.

Lemma splice_whole s g e by_ : splice s (JsMatch 0 s g e) by_ = by_.
Proof.
  unfold splice, slice, sliceFrom; cbn [index matched Nat.add Nat.sub firstn].
  rewrite skipn_all, app_nil_r; reflexivity.
Qed.

Lemma oneLine_app a b : oneLine (a ++ b) = oneLine a && oneLine b.
Proof. apply forallb_app. Qed.

Lemma imgLoop_reference alt src srcs n :
  oneLine alt = true -> oneLine src = true ->
  forallb (except "]") alt = true ->
  forallb (except ")") src = true ->
  src <> [] ->
  startsWith placeholderPrefix src = false ->
  imgLoop (S (S n))
    (ImgState (imgReference alt src) (imgReference alt src) srcs 0)
  = if isLocalSrc src
    then Some (ImgState (imgReplacedOf alt src) (imgReplacedOf alt src)
                 (srcs ++ [src]) 0)
    else Some (ImgState (imgReference alt src) (imgReference alt src) srcs 0).
Proof.
  intros La Ls Halt Hsrc Hne Hpre.
  rewrite imgLoop_S; cbn [target lastIndex blockText imgSrcList].
  rewrite exec_imgRegex_reference by assumption.
  cbv zeta; cbn [capture group groups getCap Nat.eqb].
  assert (Hpos : 0 < length (imgReference alt src)).
  { unfold imgReference; cbn [str list_ascii_of_string app length]; lia. }
  destruct (isLocalSrc src).
  - rewrite !splice_whole, imgLoop_S; cbn [target lastIndex blockText imgSrcList].
    rewrite exec_imgRegex_one_line; [reflexivity| |exact Hpos].
    unfold imgReplacedOf; rewrite !oneLine_app, La, Ls; reflexivity.
  - rewrite imgLoop_S; cbn [target lastIndex blockText imgSrcList].
    rewrite exec_imgRegex_one_line; [reflexivity| |exact Hpos].
    unfold imgReference; rewrite !oneLine_app, La, Ls; reflexivity.
Qed.

(** X9: a block of type plain or callout that consists of one image reference
    on one line, whose alternative text has no closing bracket and whose
    source has no closing parenthesis, is not empty, is no placeholder and
    is local, is rewritten to the placeholder form of the reference, and
    the source is recorded, with a size as [ =250x100] left inside it. *)
Theorem rewriteImages_local_reference (alt src : jsstring) (ty : blockType) :
  ty = plain \/ ty = callout ->
  oneLine alt = true -> oneLine src = true ->
  forallb (except "]") alt = true ->
  forallb (except ")") src = true ->
  src <> [] ->
  startsWith placeholderPrefix src = false ->
  isLocalSrc src = true ->
  rewriteImages [MarkdownBlock (imgReference alt src) ty]
  = Some ([MarkdownBlock (imgReplacedOf alt src) ty], [src]).
Proof.
  intros Hty La Ls Halt Hsrc Hne Hpre Hloc.
  unfold rewriteImages; cbn [rewriteBlocks].
  assert (E : rewriteBlock (MarkdownBlock (imgReference alt src) ty) [] 0
              = Some (MarkdownBlock (imgReplacedOf alt src) ty, [src], 0)).
  { unfold rewriteBlock; cbn [type text].
    rewrite imgLoop_reference, Hloc by assumption.
    destruct Hty; subst ty; reflexivity. }
  rewrite E; reflexivity.
Qed.

Lemma rewriteImages_local_reference_witness :
  rewriteImages
    [MarkdownBlock (imgReference (str "fig") (str "img/a.png =250x100")) plain]
  = Some ([MarkdownBlock
             (imgReplacedOf (str "fig") (str "img/a.png =250x100")) plain],
          [str "img/a.png =250x100"]).
Proof.
  apply (rewriteImages_local_reference (str "fig") (str "img/a.png =250x100")
           plain); try reflexivity.
  - left; reflexivity.
  - discriminate.
Defined.

(** X10: under the same conditions a reference to a remote source (http,
    https or a data URL) is left as it is and nothing is recorded. *)
Theorem rewriteImages_remote_reference (alt src : jsstring) (ty : blockType) :
  oneLine alt = true -> oneLine src = true ->
  forallb (except "]") alt = true ->
  forallb (except ")") src = true ->
  src <> [] ->
  isLocalSrc src = false ->
  rewriteImages [MarkdownBlock (imgReference alt src) ty]
  = Some ([MarkdownBlock (imgReference alt src) ty], []).
Proof.
  intros La Ls Halt Hsrc Hne Hloc.
  assert (Hpre : startsWith placeholderPrefix src = false).
  { destruct src as [|c src]; [congruence|].
    destruct (startsWith placeholderPrefix (c :: src)) eqn:E; [|reflexivity].
    cbn [placeholderPrefix str list_ascii_of_string startsWith] in E.
    destruct (Ascii.eqb "." c) eqn:Ec; [|discriminate E].
    apply Ascii.eqb_eq in Ec; subst c.
    discriminate Hloc. }
  unfold rewriteImages; cbn [rewriteBlocks].
  assert (E : rewriteBlock (MarkdownBlock (imgReference alt src) ty) [] 0
              = Some (MarkdownBlock (imgReference alt src) ty, [], 0)).
  { unfold rewriteBlock; cbn [type text].
    destruct ty; try reflexivity;
      rewrite imgLoop_reference, Hloc by assumption; reflexivity. }
  rewrite E; reflexivity.
Qed.

Lemma rewriteImages_remote_reference_witness :
  rewriteImages
    [MarkdownBlock (imgReference (str "fig") (str "https://a.b/c.png")) plain]
  = Some ([MarkdownBlock
             (imgReference (str "fig") (str "https://a.b/c.png")) plain], []).
Proof.
  apply (rewriteImages_remote_reference (str "fig") (str "https://a.b/c.png")
           plain); try reflexivity.
  discriminate.
Defined.

Lemma imgLoop_srcs_local : forall fuel s s',
  imgLoop fuel s = Some s' ->
  Forall (fun src => isLocalSrc src = true) (imgSrcList s) ->
  Forall (fun src => isLocalSrc src = true) (imgSrcList s').
Proof.
  induction fuel as [|fuel IH]; intros s s' H Hs; [discriminate H|].
  rewrite imgLoop_S in H.
  destruct (exec imgRegex (target s) (lastIndex s)) as [[m|] li].
  - cbv zeta in H; destruct (isLocalSrc (capture 2 m)) eqn:E.
    + apply IH in H; [exact H|]; cbn [imgSrcList].
      apply Forall_app; split; [exact Hs|].
      constructor; [exact E|constructor].
    + apply IH in H; [exact H|exact Hs].
  - injection H as <-; exact Hs.
Qed.

Lemma rewriteBlock_srcs_local b srcs li b' srcs' li' :
  rewriteBlock b srcs li = Some (b', srcs', li') ->
  Forall (fun src => isLocalSrc src = true) srcs ->
  Forall (fun src => isLocalSrc src = true) srcs'.
Proof.
  unfold rewriteBlock; intros H Hs.
  destruct (type b);
    try (injection H as <- <- <-; exact Hs);
    destruct (imgLoop _ _) as [s|] eqn:E; try discriminate H;
    injection H as <- <- <-;
    apply (imgLoop_srcs_local _ _ _ E); exact Hs.
Qed.

Lemma rewriteBlocks_srcs_local : forall l srcs li l' srcs',
  rewriteBlocks l srcs li = Some (l', srcs') ->
  Forall (fun src => isLocalSrc src = true) srcs ->
  Forall (fun src => isLocalSrc src = true) srcs'.
Proof.
  induction l as [|b l IH]; intros srcs li l' srcs' H Hs; cbn [rewriteBlocks] in H.
  - injection H as <- <-; exact Hs.
  - destruct (rewriteBlock b srcs li) as [[[b1 srcs1] li1]|] eqn:E;
      [|discriminate H].
    destruct (rewriteBlocks l srcs1 li1) as [[l2 srcs2]|] eqn:E2;
      [|discriminate H].
    injection H as <- <-.
    apply (IH _ _ _ _ E2), (rewriteBlock_srcs_local _ _ _ _ _ _ E), Hs.
Qed.

(** X11: whatever the blocks are, no source that the image loop records starts
    with [http://], [https://], [data:image/] or [data:application/]. *)
Theorem rewriteImages_records_local_sources
  (l l' : list markdownBlock) (srcs : list jsstring) :
  rewriteImages l = Some (l', srcs) ->
  Forall (fun src => isLocalSrc src = true) srcs.
Proof.
  intros H; apply (rewriteBlocks_srcs_local _ _ _ _ _ H); constructor.
Qed.

Lemma rewriteImages_records_local_sources_witness :
  Forall (fun src => isLocalSrc src = true) [str "a.png"].
Proof.
  apply (rewriteImages_records_local_sources
           [MarkdownBlock (js "![x](a.png)\n![y](http://b/c.png)") plain]
           [MarkdownBlock
              (js "![x](./TOBE_BASE64_IMGPATH_a.png_TO_BE_BASE64_IMGPATH)\n![y](http://b/c.png)")
              plain]
           [str "a.png"]).
  vm_compute; reflexivity.
Defined.




(** ** More on the block scanner *)

(** A quantified class without upper bound succeeds as soon as its
    continuation succeeds after one of the admissible numbers of code
    units. *)
Lemma repChr_complete p greedy : forall aft mn bef cs c j,
  mn <= j -> j <= countWhile p aft ->
  c (MState (rev (firstn j aft) ++ bef) (skipn j aft) cs) <> None ->
  repChr p greedy mn None bef aft cs c <> None.
Proof.
  induction aft as [|ch aft IH]; intros mn bef cs c j Hmn Hj Hc.
  - cbn [countWhile] in Hj; assert (j = 0) by lia; subst j.
    assert (mn = 0) by lia; subst mn.
    cbn [firstn skipn rev app] in Hc; cbn [repChr negb Nat.eqb].
    destruct greedy; [exact Hc|].
    destruct (c (MState bef [] cs)); [discriminate|exact Hc].
  - destruct j as [|j].
    + assert (mn = 0) by lia; subst mn.
      cbn [firstn skipn rev app] in Hc; cbn [repChr negb Nat.eqb].
      destruct greedy.
      * destruct (if p ch then _ else None); [discriminate|exact Hc].
      * destruct (c (MState bef (ch :: aft) cs)); [discriminate|].
        exfalso; apply Hc; reflexivity.
    + cbn [countWhile] in Hj; destruct (p ch) eqn:Ep; [|lia].
      cbn [firstn skipn rev] in Hc; rewrite <- app_assoc in Hc.
      assert (More : repChr p greedy (pred mn) None (ch :: bef) aft cs c
                     <> None).
      { apply (IH (pred mn) (ch :: bef) cs c j); [lia|lia|exact Hc]. }
      cbn [repChr decr option_map]; rewrite Ep.
      destruct (negb (mn =? 0)); [exact More|].
      destruct greedy.
      * destruct (repChr p true (pred mn) None (ch :: bef) aft cs c);
          [discriminate|exfalso; apply More; reflexivity].
      * destruct (c (MState bef (ch :: aft) cs)); [discriminate|exact More].
Qed.

Lemma run_opt_complete m a x c :
  (forall y, c y <> None) -> run m (opt a) x c <> None.
Proof.
  intros H; unfold opt; rewrite run_Rep, repeatMatcher_S.
  cbv zeta; cbn [negb Nat.eqb].
  match goal with |- match ?e with _ => _ end <> _ => destruct e end;
    [discriminate|apply H].
Qed.

Lemma countWhile_anyChar s : countWhile anyChar s = length s.
Proof. induction s as [|c s IH]; [reflexivity|simpl; rewrite IH; reflexivity]. Qed.

(** What follows the opening delimiter in [codeBlockRegex] matches whatever
    the text is: the lazy body can run to the end of the text, where [$]
    holds. *)
Lemma run_codeBlock_rest x :
  run true
    (seq [opt (Seq (Group 2 (Seq (star (Chr dot)) Eol)) (Chr (only LF)));
          Group 3 (lazyStar (Chr anyChar));
          Alt (Seq (Chr (only LF)) (Backref 1)) Eol])
    x (fun y => Some y) <> None.
Proof.
  cbn [seq]; rewrite run_Seq; apply run_opt_complete; intros y.
  rewrite run_Seq, run_Group; unfold lazyStar; rewrite run_Rep_Chr.
  apply (repChr_complete _ _ _ _ _ _ _ (length (after y)));
    [lia|rewrite countWhile_anyChar; lia|].
  rewrite firstn_all, skipn_all.
  rewrite run_Alt, run_Seq, run_Chr, run_Eol; cbn [after]; discriminate.
Qed.

Lemma startsWith3_count_ge c s :
  startsWith [c; c; c] s = true -> 3 <= countWhile (only c) s.
Proof.
  unfold only; destruct s as [|x [|y [|z s]]]; simpl;
    repeat (match goal with |- context [Ascii.eqb ?a ?b] =>
                              destruct (Ascii.eqb a b) end; simpl);
    intros H; try discriminate; lia.
Qed.

(** [codeBlockRegex] matches at every position where three colons or three
    backticks start. *)
Lemma run_codeBlock_delimiter x :
  startsWith (str ":::") (after x) || startsWith (str "```") (after x) = true ->
  run true (pattern codeBlockRegex) x (fun y => Some y) <> None.
Proof.
  intros H.
  rewrite codeBlockRegex_pattern, run_Seq, run_Group, run_Alt, !run_Rep_Chr.
  match goal with |- match ?e with _ => _ end <> _ => destruct e eqn:E end;
    [discriminate|].
  destruct (startsWith (str ":::") (after x)) eqn:H1.
  - exfalso; revert E.
    apply (repChr_complete _ _ _ _ _ _ _ (countWhile (only ":") (after x)));
      [apply startsWith3_count_ge; exact H1|lia|].
    apply run_codeBlock_rest.
  - cbn [orb] in H.
    apply (repChr_complete _ _ _ _ _ _ _ (countWhile (only backtick) (after x)));
      [apply startsWith3_count_ge; exact H|lia|].
    apply run_codeBlock_rest.
Qed.

(** The search returns the leftmost position where the pattern matches. *)
Lemma search_leftmost m r : forall aft bef i y,
  search m r bef aft = Some (i, y) ->
  exists j, i = length bef + j /\ j <= length aft /\
    run m r (MState (rev (firstn j aft) ++ bef) (skipn j aft) [])
      (fun y => Some y) = Some y /\
    forall k, k < j ->
      run m r (MState (rev (firstn k aft) ++ bef) (skipn k aft) [])
        (fun y => Some y) = None.
Proof.
  induction aft as [|ch aft IH]; intros bef i y H.
  - rewrite search_nil in H.
    destruct (run m r (MState bef [] []) (fun y => Some y)) as [z|] eqn:E;
      [|discriminate H].
    injection H as <- <-; exists 0.
    split; [lia|split; [simpl; lia|split; [exact E|intros; lia]]].
  - rewrite search_S in H.
    destruct (run m r (MState bef (ch :: aft) []) (fun y => Some y))
      as [z|] eqn:E.
    + injection H as <- <-; exists 0.
      split; [lia|split; [simpl; lia|split; [exact E|intros; lia]]].
    + apply IH in H; destruct H as [j [Hi [Hj [Hr Hl]]]]; exists (S j).
      cbn [length] in Hi; cbn [firstn skipn rev length].
      rewrite <- app_assoc.
      split; [lia|split; [lia|split; [exact Hr|]]].
      intros [|k] Hk; [exact E|].
      cbn [firstn skipn rev]; rewrite <- app_assoc; apply Hl; lia.
Qed.

Lemma search_none m r : forall aft bef,
  search m r bef aft = None ->
  forall k, k <= length aft ->
    run m r (MState (rev (firstn k aft) ++ bef) (skipn k aft) [])
      (fun y => Some y) = None.
Proof.
  induction aft as [|ch aft IH]; intros bef H k Hk.
  - rewrite search_nil in H; simpl in Hk.
    assert (k = 0) by lia; subst k; cbn [firstn skipn rev app].
    destruct (run m r (MState bef [] []) (fun y => Some y));
      [discriminate H|reflexivity].
  - rewrite search_S in H.
    destruct (run m r (MState bef (ch :: aft) []) (fun y => Some y)) eqn:E;
      [discriminate H|].
    destruct k as [|k]; [exact E|].
    cbn [firstn skipn rev]; rewrite <- app_assoc; apply IH;
      [exact H|simpl in Hk; lia].
Qed.

Lemma startsWith_firstn d : forall s n,
  length d <= n -> startsWith d (firstn n s) = startsWith d s.
Proof.
  induction d as [|c d IH]; intros s n H; [reflexivity|].
  destruct n as [|n]; [simpl in H; lia|].
  destruct s as [|x s]; [reflexivity|].
  cbn [firstn startsWith]; rewrite IH by (simpl in H; lia); reflexivity.
Qed.

Lemma startsWith_prefix d : forall s n,
  startsWith d (firstn n s) = true -> startsWith d s = true.
Proof.
  induction d as [|c d IH]; intros s n H; [reflexivity|].
  destruct n as [|n]; [destruct s; discriminate H|].
  destruct s as [|x s]; [discriminate H|].
  cbn [firstn startsWith] in *.
  apply andb_prop in H; destruct H as [H1 H2].
  rewrite H1, (IH _ _ H2); reflexivity.
Qed.

Lemma indexOf_firstn d : forall t i,
  d <> [] ->
  (forall j, j < i -> startsWith d (skipn j t) = false) ->
  indexOf d (firstn i t) = None.
Proof.
  induction t as [|c t IH]; intros i Hd H.
  - rewrite firstn_nil; destruct d; [congruence|reflexivity].
  - destruct i as [|i]; [destruct d; [congruence|reflexivity]|].
    cbn [firstn indexOf].
    destruct (startsWith d (c :: firstn i t)) eqn:E.
    + change (c :: firstn i t) with (firstn (S i) (c :: t)) in E.
      apply startsWith_prefix in E.
      pose proof (H 0 (Nat.lt_0_succ i)) as H0; cbn [skipn] in H0.
      rewrite H0 in E; discriminate E.
    + rewrite IH; [reflexivity|exact Hd|].
      intros j Hj; apply (H (S j)); lia.
Qed.

Lemma indexOf_all d : forall t,
  (forall j, j <= length t -> startsWith d (skipn j t) = false) ->
  indexOf d t = None.
Proof.
  induction t as [|c t IH]; intros H.
  - pose proof (H 0 (Nat.le_0_l _)) as H0; cbn [skipn] in H0.
    cbn [indexOf]; rewrite H0; reflexivity.
  - pose proof (H 0 (Nat.le_0_l _)) as H0; cbn [skipn] in H0.
    cbn [indexOf]; rewrite H0.
    rewrite IH; [reflexivity|].
    intros j Hj; apply (H (S j)); simpl; lia.
Qed.

Lemma no_match_no_delimiter bef aft :
  run true (pattern codeBlockRegex) (MState bef aft []) (fun y => Some y)
  = None ->
  startsWith (str ":::") aft = false /\ startsWith (str "```") aft = false.
Proof.
  intros H.
  destruct (startsWith (str ":::") aft || startsWith (str "```") aft) eqn:E.
  - exfalso; revert H; apply run_codeBlock_delimiter; exact E.
  - apply orb_false_elim in E; exact E.
Qed.

Lemma blockPairs_app : forall n acc l,
  length acc <= n -> blockPairs acc = true ->
  blockPairs (acc ++ l) = blockPairs l.
Proof.
  induction n as [|n IH]; intros acc l Hn H.
  - destruct acc; [reflexivity|simpl in Hn; lia].
  - destruct acc as [|p [|f acc]]; [reflexivity|discriminate H|].
    cbn [blockPairs app] in *.
    apply andb_prop in H; destruct H as [H1 H2].
    rewrite H1, (IH acc l); [reflexivity| |exact H2].
    simpl in Hn; lia.
Qed.

Lemma execFrom_codeBlock_Some t m :
  execFrom codeBlockRegex t 0 = Some m ->
  delimiterFree (slice t 0 (index m)) = true /\
  fenced (MarkdownBlock (matched m) (blockTypeOf (matched m))) = true.
Proof.
  intros H.
  pose proof (execFrom_minLen _ _ _ _ H) as HL.
  rewrite codeBlockRegex_minLen in HL.
  pose proof (execFrom_sound _ _ _ _ H) as [_ [_ [_ HM]]].
  pose proof (execFrom_length _ _ _ _ H) as HE.
  unfold execFrom in H; change (length t <? 0) with false in H.
  cbn [firstn skipn rev] in H; change (flagM codeBlockRegex) with true in H.
  destruct (search true (pattern codeBlockRegex) [] t) as [[i y]|] eqn:E;
    [|discriminate H].
  apply search_leftmost in E; destruct E as [j [Hi [Hj [Hr Hl]]]].
  cbn [length Nat.add] in Hi; subst i.
  assert (Ij : index m = j) by (injection H as <-; reflexivity).
  split.
  - unfold delimiterFree, includes, slice; rewrite Ij, Nat.sub_0_r.
    cbn [skipn].
    rewrite !indexOf_firstn; [reflexivity|discriminate| |discriminate|];
      intros k Hk; apply Hl, no_match_no_delimiter in Hk; apply Hk.
  - assert (D : startsWith (str ":::") (skipn j t)
                || startsWith (str "```") (skipn j t) = true).
    { destruct (startsWith (str ":::") (skipn j t)) eqn:E1; [reflexivity|].
      destruct (startsWith (str "```") (skipn j t)) eqn:E2; [reflexivity|].
      rewrite run_codeBlock_no_delimiter in Hr by assumption.
      discriminate Hr. }
    assert (S3 : forall d, length d = 3 ->
                 startsWith d (matched m) = startsWith d (skipn j t)).
    { intros d Hd; rewrite HM; unfold slice; rewrite Ij.
      apply startsWith_firstn; lia. }
    unfold fenced, blockTypeOf; cbn [type text].
    rewrite (S3 (str "```")), (S3 (str ":::")) by reflexivity.
    destruct (startsWith (str "```") (skipn j t)) eqn:E2; [reflexivity|].
    rewrite orb_false_r in D; rewrite D; reflexivity.
Qed.

Lemma execFrom_codeBlock_None t :
  execFrom codeBlockRegex t 0 = None -> delimiterFree t = true.
Proof.
  intros H.
  unfold execFrom in H; change (length t <? 0) with false in H.
  cbn [firstn skipn rev] in H; change (flagM codeBlockRegex) with true in H.
  destruct (search true (pattern codeBlockRegex) [] t) as [[i y]|] eqn:E;
    [discriminate H|].
  unfold delimiterFree, includes.
  rewrite !indexOf_all; [reflexivity| |];
    intros k Hk; apply (search_none _ _ _ _ E), no_match_no_delimiter in Hk;
    apply Hk.
Qed.

Lemma blockLoop_pairs : forall fuel acc t l rest,
  blockLoop fuel acc t = Some (l, rest) ->
  blockPairs acc = true ->
  blockPairs l = true /\ delimiterFree rest = true.
Proof.
  induction fuel as [|fuel IH]; intros acc t l rest H Hacc; [discriminate H|].
  rewrite blockLoop_S in H.
  destruct (execFrom codeBlockRegex t 0) as [m|] eqn:E.
  - apply IH in H; [exact H|].
    rewrite (blockPairs_app (length acc)) by (auto; lia).
    apply execFrom_codeBlock_Some in E; destruct E as [E1 E2].
    cbn [blockPairs isPlainBlock type text]; rewrite E1, E2; reflexivity.
  - injection H as <- <-; split; [exact Hacc|].
    apply execFrom_codeBlock_None; exact E.
Qed.

Lemma blockPairs_known : forall n l,
  length l <= n -> blockPairs l = true ->
  Forall (fun b => type b <> unknown) l.
Proof.
  induction n as [|n IH]; intros l Hn Hp.
  - destruct l; [constructor|simpl in Hn; lia].
  - destruct l as [|p [|f l]]; [constructor|discriminate Hp|].
    cbn [blockPairs] in Hp.
    apply andb_prop in Hp; destruct Hp as [Hp H4].
    apply andb_prop in Hp; destruct Hp as [Hp H3].
    apply andb_prop in Hp; destruct Hp as [H1 H2].
    constructor; [|constructor].
    + unfold isPlainBlock in H1; destruct (type p); discriminate.
    + unfold fenced in H3; destruct (type f); discriminate.
    + apply IH; [simpl in Hn; lia|exact H4].
Qed.

(** X13: the scanner always returns; its list is made of pairs of a plain block
    that holds no run of three colons or backticks and a block of type code
    that starts with three backticks or of type callout that starts with
    three colons.  The type unknown is never given, and the text that is
    left at the exit of the loop holds no delimiter. *)
Theorem scanBlocks_block_pairs (t : jsstring) :
  exists l rest,
    scanBlocks t = Some (l, rest) /\
    blockPairs l = true /\
    Forall (fun b => type b <> unknown) l /\
    delimiterFree rest = true.
Proof.
  destruct (blockLoop_total (S (length t)) [] t) as [l [rest H]]; [lia|].
  exists l, rest; split; [exact H|].
  apply blockLoop_pairs in H; [|reflexivity].
  destruct H as [Hp Hr]; split; [exact Hp|split; [|exact Hr]].
  apply (blockPairs_known (length l)); [lia|exact Hp].
Qed.

(** ** More on the folder tree *)

Lemma allFiles_eq f :
  allFiles f = fileObjectList f ++ flat_map allFiles (folderObjectList f).
Proof.
  destruct f as [p n a folders files]; cbn [allFiles fileObjectList folderObjectList].
  reflexivity.
Qed.

Lemma uniqueNames_eq f :
  uniqueNames f
  <-> NoDup (map folderName (folderObjectList f)) /\
      Forall uniqueNames (folderObjectList f).
Proof.
  destruct f as [p n a folders files]; cbn [uniqueNames folderObjectList].
  assert (E : (fix go (l : list FolderObject) : Prop :=
                 match l with
                 | [] => True
                 | g :: l' => uniqueNames g /\ go l'
                 end) folders <-> Forall uniqueNames folders).
  { induction folders as [|g l IH]; [split; constructor|].
    split.
    - intros [H1 H2]; constructor; [exact H1|apply IH; exact H2].
    - intros H; inversion H; subst; split; [assumption|apply IH; assumption]. }
  rewrite E; reflexivity.
Qed.

Lemma splitSep_not_nil : forall p, Path.splitSep p <> [].
Proof.
  induction p as [|c p IH]; [discriminate|].
  cbn [Path.splitSep].
  destruct (Ascii.eqb c "/"); [discriminate|].
  destruct (Path.splitSep p); discriminate.
Qed.

Lemma addFile_last file name folder :
  addFile file [name] folder
  = mkFolderObject (folderPath folder) (folderName folder)
      (folderNameAlias folder) (folderObjectList folder)
      (fileObjectList folder ++ [file]).
Proof. reflexivity. Qed.

Lemma addFile_cons file name segs folder :
  segs <> [] ->
  addFile file (name :: segs) folder
  = mkFolderObject (folderPath folder) (folderName folder)
      (folderNameAlias folder)
      (updateFolder name
         (mkFolderObject (Path.join2 (folderPath folder) name) name name [] [])
         (addFile file segs) (folderObjectList folder))
      (fileObjectList folder).
Proof. destruct segs; [congruence|reflexivity]. Qed.

Lemma addFile_folderName file : forall segs folder,
  folderName (addFile file segs folder) = folderName folder.
Proof.
  intros [|s [|s' segs]] folder; reflexivity.
Qed.

Lemma flat_map_updateFolder name fresh upd file : forall l,
  allFiles fresh = [] ->
  (forall g, Permutation (allFiles (upd g)) (file :: allFiles g)) ->
  Permutation (flat_map allFiles (updateFolder name fresh upd l))
    (file :: flat_map allFiles l).
Proof.
  intros l Hf Hu; induction l as [|f l IH]; cbn [updateFolder flat_map].
  - rewrite app_nil_r; pose proof (Hu fresh) as H; rewrite Hf in H; exact H.
  - destruct (JsString.eqb (folderName f) name); cbn [flat_map].
    + apply (Permutation_app_tail _ (Hu f)).
    + rewrite (Permutation_app_head _ IH).
      symmetry; apply Permutation_middle.
Qed.

Lemma addFile_files file : forall segs folder,
  segs <> [] ->
  Permutation (allFiles (addFile file segs folder)) (file :: allFiles folder).
Proof.
  induction segs as [|name segs IH]; intros folder H; [congruence|].
  destruct segs as [|s segs].
  - rewrite addFile_last, !allFiles_eq.
    cbn [fileObjectList folderObjectList].
    rewrite <- app_assoc; cbn [app].
    symmetry; apply Permutation_middle.
  - rewrite addFile_cons by discriminate; rewrite !allFiles_eq.
    cbn [fileObjectList folderObjectList].
    assert (P : Permutation
                  (flat_map allFiles
                     (updateFolder name
                        (mkFolderObject (Path.join2 (folderPath folder) name)
                           name name [] [])
                        (addFile file (s :: segs)) (folderObjectList folder)))
                  (file :: flat_map allFiles (folderObjectList folder))).
    { apply flat_map_updateFolder; [reflexivity|].
      intros g; apply IH; discriminate. }
    rewrite (Permutation_app_head _ P).
    symmetry; apply Permutation_middle.
Qed.

(** X14: the folder tree built from the list of markdown files holds every
    document exactly once, with the base name, the title and the path
    relative to the root: no file is lost and none is entered twice,
    whatever the paths are. *)
Theorem buildFolderObject_files (cwd : list jsstring)
  (openTextDocument : jsstring -> jsstring) (rootPath : jsstring)
  (markdownFileList : list jsstring) :
  Permutation
    (allFiles (buildFolderObject cwd openTextDocument rootPath markdownFileList))
    (map (fileObjectOf cwd openTextDocument rootPath) markdownFileList).
Proof.
  unfold buildFolderObject.
  set (root := mkFolderObject [] (Path.basename rootPath) (str "root") [] []).
  assert (G : forall l folder,
    Permutation
      (allFiles
         (fold_left
            (fun folderObject file =>
               let markdownFilePath := Path.relative cwd rootPath file in
               let markdownFilePathList := Path.splitSep markdownFilePath in
               let fileObject :=
                 mkFileObject (Path.basename markdownFilePath)
                   (titleOrUntitled (openTextDocument file)) markdownFilePath in
               addFile fileObject markdownFilePathList folderObject)
            l folder))
      (allFiles folder ++ map (fileObjectOf cwd openTextDocument rootPath) l)).
  { induction l as [|file l IH]; intros folder; cbn [fold_left map].
    - rewrite app_nil_r; reflexivity.
    - rewrite IH; cbv zeta.
      rewrite (Permutation_app_tail _
                 (addFile_files _ _ folder (splitSep_not_nil _))).
      cbn [app]; apply Permutation_middle. }
  rewrite G; reflexivity.
Qed.

Lemma findFolder_updateFolder name fresh upd : forall l,
  folderName fresh = name ->
  (forall g, folderName (upd g) = folderName g) ->
  findFolder name (updateFolder name fresh upd l)
  = Some (upd (match findFolder name l with
               | Some g => g
               | None => fresh
               end)).
Proof.
  intros l Hf Hu; induction l as [|f l IH]; cbn [updateFolder findFolder].
  - rewrite Hu, Hf, jseqb_refl; reflexivity.
  - destruct (JsString.eqb (folderName f) name) eqn:E; cbn [findFolder].
    + rewrite Hu, E; reflexivity.
    + rewrite E; exact IH.
Qed.

(** X15: after a file has been entered under the folder names [dirs], following
    these names from the folder with [find] leads to a folder whose last
    file is that file. *)
Theorem addFile_descend (file : FileObject) (dirs : list jsstring)
  (name : jsstring) (folder : FolderObject) :
  exists g files,
    descend dirs (addFile file (dirs ++ [name]) folder) = Some g /\
    fileObjectList g = files ++ [file].
Proof.
  revert folder; induction dirs as [|d dirs IH]; intros folder.
  - exists (addFile file [name] folder), (fileObjectList folder).
    split; reflexivity.
  - cbn [app]; rewrite addFile_cons by (destruct dirs; discriminate).
    cbn [descend folderObjectList].
    rewrite findFolder_updateFolder;
      [|reflexivity|intros g; apply addFile_folderName].
    apply IH.
Qed.

Lemma names_updateFolder name fresh upd : forall l,
  folderName fresh = name ->
  (forall g, folderName (upd g) = folderName g) ->
  map folderName (updateFolder name fresh upd l)
  = if existsb (fun f => JsString.eqb (folderName f) name) l
    then map folderName l
    else map folderName l ++ [name].
Proof.
  intros l Hf Hu; induction l as [|f l IH]; cbn [updateFolder existsb map].
  - rewrite Hu, Hf; reflexivity.
  - destruct (JsString.eqb (folderName f) name) eqn:E; cbn [orb map].
    + rewrite Hu; reflexivity.
    + rewrite IH; destruct (existsb _ l); reflexivity.
Qed.

Lemma Forall_updateFolder (P : FolderObject -> Prop) name fresh upd : forall l,
  P (upd fresh) -> (forall g, P g -> P (upd g)) ->
  Forall P l -> Forall P (updateFolder name fresh upd l).
Proof.
  intros l Hf Hu H; induction H as [|f l Hx H IH]; cbn [updateFolder].
  - constructor; [exact Hf|constructor].
  - destruct (JsString.eqb (folderName f) name).
    + constructor; [apply Hu; exact Hx|exact H].
    + constructor; [exact Hx|exact IH].
Qed.

Lemma addFile_uniqueNames file : forall segs folder,
  uniqueNames folder -> uniqueNames (addFile file segs folder).
Proof.
  induction segs as [|name segs IH]; intros folder H; [exact H|].
  destruct segs as [|s segs].
  - rewrite addFile_last; rewrite uniqueNames_eq in *; exact H.
  - rewrite addFile_cons by discriminate.
    rewrite uniqueNames_eq in *; cbn [folderObjectList].
    destruct H as [H1 H2]; split.
    + rewrite names_updateFolder;
        [|reflexivity|intros g; apply addFile_folderName].
      destruct (existsb _ (folderObjectList folder)) eqn:E; [exact H1|].
      apply NoDup_app; [exact H1|constructor; [intros []|constructor]|].
      intros x Hx [Hn|[]]; subst x.
      apply in_map_iff in Hx; destruct Hx as [g [Hg Hin]].
      assert (X : existsb (fun f => JsString.eqb (folderName f) name)
                    (folderObjectList folder) = true).
      { apply existsb_exists; exists g; split; [exact Hin|].
        rewrite Hg; apply jseqb_refl. }
      rewrite X in E; discriminate E.
    + apply Forall_updateFolder; [| |exact H2].
      * apply IH; rewrite uniqueNames_eq; split; constructor.
      * intros g Hg; apply IH; exact Hg.
Qed.

(** X16: in the folder tree built from the list of markdown files no two folders
    of one folder have the same name, at any depth: a directory of the
    workspace is one entry of the menu however many documents it holds. *)
Theorem buildFolderObject_uniqueNames (cwd : list jsstring)
  (openTextDocument : jsstring -> jsstring) (rootPath : jsstring)
  (markdownFileList : list jsstring) :
  uniqueNames (buildFolderObject cwd openTextDocument rootPath markdownFileList).
Proof.
  unfold buildFolderObject.
  assert (G : forall l folder, uniqueNames folder ->
    uniqueNames
      (fold_left
         (fun folderObject file =>
            let markdownFilePath := Path.relative cwd rootPath file in
            let markdownFilePathList := Path.splitSep markdownFilePath in
            let fileObject :=
              mkFileObject (Path.basename markdownFilePath)
                (titleOrUntitled (openTextDocument file)) markdownFilePath in
            addFile fileObject markdownFilePathList folderObject)
         l folder)).
  { induction l as [|file l IH]; intros folder H; cbn [fold_left]; [exact H|].
    apply IH, addFile_uniqueNames, H. }
  apply G; rewrite uniqueNames_eq; split; constructor.
Qed.

(** ** More on the navigation menu *)

Lemma fold_left_append {A : Type} (g : A -> jsstring) : forall l acc,
  fold_left (fun acc x => acc ++ g x) l acc = acc ++ flat_map g l.
Proof.
  induction l as [|x l IH]; intros acc; cbn [fold_left flat_map].
  - rewrite app_nil_r; reflexivity.
  - rewrite IH, app_assoc; reflexivity.
Qed.

(** The menu of a folder: what was accumulated, the items of its files, then
    the items of its folders. *)
Lemma recursiveFileNavigationHtmlFactory_eq cwd f target acc :
  recursiveFileNavigationHtmlFactory cwd f target acc
  = acc ++ flat_map (fileItem cwd target) (fileObjectList f)
        ++ flat_map (folderItem cwd target) (folderObjectList f).
Proof.
  destruct f as [p n a folders files].
  cbn [recursiveFileNavigationHtmlFactory fileObjectList folderObjectList].
  rewrite fold_left_append, app_assoc.
  generalize (acc ++ flat_map (fileItem cwd target) files).
  induction folders as [|g l IH]; intros acc'.
  - cbn [flat_map]; rewrite app_nil_r; reflexivity.
  - rewrite IH; cbn [flat_map]; unfold folderItem.
    rewrite <- !app_assoc; reflexivity.
Qed.

Lemma flat_map_in_middle {A : Type} (g : A -> jsstring) x : forall l,
  In x l -> exists pre post, flat_map g l = pre ++ g x ++ post.
Proof.
  induction l as [|y l IH]; intros H; [destruct H|].
  destruct H as [->|H].
  - exists [], (flat_map g l); reflexivity.
  - destruct (IH H) as [pre [post E]].
    exists (g y ++ pre), post; cbn [flat_map]; rewrite E, <- app_assoc.
    reflexivity.
Qed.

(** X17: the menu made for a page holds the list item of every file of the
    folder tree, whatever the target is: each document of the workspace can
    be reached from every page. *)
Theorem navigation_lists_every_file (cwd : list jsstring)
  (folderObject : FolderObject) (relativeTargetFilePath : jsstring)
  (fileObject : FileObject) :
  In fileObject (allFiles folderObject) ->
  exists pre post,
    recursiveFileNavigationHtmlFactory cwd folderObject
      relativeTargetFilePath []
    = pre ++ fileItem cwd relativeTargetFilePath fileObject ++ post.
Proof.
  revert folderObject.
  apply (FolderObject_nested_ind
           (fun f => In fileObject (allFiles f) ->
              exists pre post,
                recursiveFileNavigationHtmlFactory cwd f
                  relativeTargetFilePath []
                = pre ++ fileItem cwd relativeTargetFilePath fileObject ++ post)).
  intros p n a folders files IH H.
  rewrite allFiles_eq in H; cbn [fileObjectList folderObjectList] in H.
  rewrite recursiveFileNavigationHtmlFactory_eq.
  cbn [fileObjectList folderObjectList app].
  apply in_app_or in H; destruct H as [H|H].
  - destruct (flat_map_in_middle (fileItem cwd relativeTargetFilePath) _ _ H)
      as [pre [post E]].
    exists pre, (post ++ flat_map (folderItem cwd relativeTargetFilePath) folders).
    rewrite E, <- !app_assoc; reflexivity.
  - apply in_flat_map in H; destruct H as [g [Hg Hin]].
    rewrite Forall_forall in IH.
    destruct (IH g Hg Hin) as [pre [post E]].
    destruct (flat_map_in_middle (folderItem cwd relativeTargetFilePath) _ _ Hg)
      as [pre' [post' E']].
    exists (flat_map (fileItem cwd relativeTargetFilePath) files ++ pre'
              ++ folderItemOpen cwd relativeTargetFilePath g ++ str "<ul>"
              ++ pre),
      (post ++ str "</ul>" ++ str "</li>" ++ post').
    rewrite E'; unfold folderItem at 1; rewrite E, <- !app_assoc; reflexivity.
Qed.

Lemma navigation_lists_every_file_witness :
  exists pre post,
    recursiveFileNavigationHtmlFactory exampleCwd exampleTree (js "z.md") []
    = pre ++ fileItem exampleCwd (js "z.md")
               (mkFileObject (js "y.md") (js "y.md") (js "a/b/y.md")) ++ post.
Proof.
  apply (navigation_lists_every_file exampleCwd exampleTree (js "z.md")
           (mkFileObject (js "y.md") (js "y.md") (js "a/b/y.md"))).
  vm_compute; right; right; left; reflexivity.
Defined.

(** ** The image loop terminates *)

Lemma getCap_clearCaps G n : forall c,
  ~ In n G -> getCap n (clearCaps G c) = getCap n c.
Proof.
  intros c H; induction c as [|[k v] c IH]; [reflexivity|].
  cbn [clearCaps filter fst getCap].
  destruct (existsb (Nat.eqb k) G) eqn:E; cbn [negb getCap].
  - destruct (k =? n) eqn:Ekn; [|exact IH].
    apply Nat.eqb_eq in Ekn; subst k.
    apply existsb_exists in E; destruct E as [x [Hx Ex]].
    apply Nat.eqb_eq in Ex; subst x; contradiction.
  - destruct (k =? n); [reflexivity|exact IH].
Qed.

Lemma getCap_setCap_other n k v c :
  n <> k -> getCap n (setCap k v c) = getCap n c.
Proof.
  intros H; unfold setCap; cbn [getCap].
  destruct (k =? n) eqn:E; [apply Nat.eqb_eq in E; congruence|].
  apply getCap_clearCaps; intros [X|[]]; congruence.
Qed.

Lemma framed_refl G x : framed G x x.
Proof. split; [apply reach_refl|reflexivity]. Qed.

Lemma framed_trans G1 G2 G x y z :
  incl G1 G -> incl G2 G ->
  framed G1 x y -> framed G2 y z -> framed G x z.
Proof.
  intros I1 I2 [R1 C1] [R2 C2]; split; [eapply reach_trans; eassumption|].
  intros n Hn; rewrite C2, C1; [reflexivity| |];
    intros X; apply Hn; [apply I1|apply I2]; exact X.
Qed.

Lemma advance_caps s : forall x y, advance s x = Some y -> caps y = caps x.
Proof.
  induction s as [|ch s IH]; intros x y H; simpl in H.
  - inversion H; reflexivity.
  - destruct (after x) as [|d aft]; [discriminate|].
    destruct (Ascii.eqb ch d); [|discriminate].
    apply IH in H; exact H.
Qed.

Lemma repeatMatcher_frames step G greedy :
  frames G step ->
  forall fuel mn mx, frames G (repeatMatcher step G greedy fuel mn mx).
Proof.
  intros Hstep; induction fuel as [|fuel IH]; intros mn mx x c z H;
    [discriminate H|].
  rewrite repeatMatcher_S in H.
  assert (Hc : c x = Some z -> exists y, framed G x y /\ c y = Some z)
    by (intros E; exists x; split; [apply framed_refl|exact E]).
  assert (Hs : forall d0,
             d0 = (fun y => if (mn =? 0) && (length (after y) =? length (after x))
                            then None
                            else repeatMatcher step G greedy fuel (pred mn)
                                   (decr mx) y c) ->
             step (MState (before x) (after x) (clearCaps G (caps x))) d0
             = Some z ->
             exists y, framed G x y /\ c y = Some z).
  { intros d0 -> E; apply Hstep in E; destruct E as [y [R E]].
    destruct ((mn =? 0) && (length (after y) =? length (after x)));
      [discriminate|].
    apply IH in E; destruct E as [y' [R' E]]; exists y'; split; [|exact E].
    apply (framed_trans G G G x y y');
      [apply incl_refl|apply incl_refl| |exact R'].
    destruct R as [[w HR] HC]; split; [exists w; exact HR|].
    intros n Hn; rewrite (HC n Hn); cbn [caps].
    apply getCap_clearCaps; exact Hn. }
  cbv zeta in H.
  destruct mx as [[|k]|]; [apply Hc; exact H| |];
    (destruct (negb (mn =? 0)); [eapply Hs; [reflexivity|exact H]|];
     destruct greedy;
     [ match type of H with
       | match ?s with _ => _ end = _ =>
           destruct s as [z'|] eqn:E;
           [inversion H; subst z'; eapply Hs; [reflexivity|exact E]
           |apply Hc; exact H]
       end
     | destruct (c x) as [z'|] eqn:E;
       [inversion H; subst z'; exists x; split; [apply framed_refl|exact E]
       |eapply Hs; [reflexivity|exact H]] ]).
Qed.

(** A match changes the captures of the groups of its pattern only. *)
Lemma run_frames m r : frames (groupsOf r) (run m r).
Proof.
  induction r as [|p|a IHa b IHb|a IHa b IHb|g mn mx a IHa|n a IHa|n| | |a IHa];
    intros x c z H.
  - exists x; split; [apply framed_refl|exact H].
  - simpl in H; destruct (after x) as [|ch aft] eqn:E; [discriminate|].
    destruct (p ch); [|discriminate].
    eexists; split; [|exact H].
    split; [exists [ch]; split; [reflexivity|exact E]|reflexivity].
  - simpl in H; apply IHa in H; destruct H as [y [R H]].
    apply IHb in H; destruct H as [y' [R' H]].
    exists y'; split; [|exact H].
    apply (framed_trans (groupsOf a) (groupsOf b) _ x y y');
      [apply incl_appl, incl_refl|apply incl_appr, incl_refl|exact R|exact R'].
  - simpl in H; destruct (run m a x c) as [z'|] eqn:E.
    + inversion H; subst z'; apply IHa in E; destruct E as [y [R E]].
      exists y; split; [|exact E].
      apply (framed_trans (groupsOf a) [] _ x y y);
        [apply incl_appl, incl_refl|intros k []|exact R|apply framed_refl].
    + apply IHb in H; destruct H as [y [R H]].
      exists y; split; [|exact H].
      apply (framed_trans (groupsOf b) [] _ x y y);
        [apply incl_appr, incl_refl|intros k []|exact R|apply framed_refl].
  - rewrite run_Rep in H; apply repeatMatcher_frames in H; [exact H|exact IHa].
  - rewrite run_Group in H; apply IHa in H; destruct H as [y [[R C] H]].
    eexists; split; [|exact H].
    split; [apply reach_caps with (cs := caps x) (cs' := caps y) in R;
            destruct x, y; exact R|].
    intros k Hk; cbn [groupsOf] in Hk; cbn [caps].
    rewrite getCap_setCap_other by (intros ->; apply Hk; left; reflexivity).
    apply C; intros X; apply Hk; right; exact X.
  - simpl in H; destruct (getCap n (caps x)) as [s|].
    + destruct (advance s x) as [y|] eqn:E; [|discriminate].
      exists y; split; [|exact H].
      split; [eapply advance_reach; exact E|].
      intros k _; rewrite (advance_caps _ _ _ E); reflexivity.
    + exists x; split; [apply framed_refl|exact H].
  - simpl in H; exists x; split; [apply framed_refl|].
    destruct (before x); [exact H|].
    destruct (m && isLineTerminator a); [exact H|discriminate].
  - simpl in H; exists x; split; [apply framed_refl|].
    destruct (after x); [exact H|].
    destruct (m && isLineTerminator a); [exact H|discriminate].
  - simpl in H; exists x; split; [apply framed_refl|].
    destruct (run m a x (fun y => Some y)); [discriminate|exact H].
Qed.

Lemma advance_Some : forall d bef aft cs y,
  advance d (MState bef aft cs) = Some y ->
  exists rest, aft = d ++ rest /\ y = MState (rev d ++ bef) rest cs.
Proof.
  induction d as [|ch d IH]; intros bef aft cs y H.
  - injection H as <-; exists aft; split; reflexivity.
  - cbn [advance after before caps] in H.
    destruct aft as [|x aft]; [discriminate H|].
    destruct (Ascii.eqb ch x) eqn:E; [|discriminate H].
    apply Ascii.eqb_eq in E; subst x.
    apply IH in H; destruct H as [rest [-> ->]].
    exists rest; split; [reflexivity|].
    cbn [rev]; rewrite <- app_assoc; reflexivity.
Qed.

(** The shape of a match of [imgRegex]: it starts at the start of a line, and
    its text is the opening, the first group, the middle, the second group
    and a tail. *)
Lemma imgRegex_success bef aft y :
  run true (pattern imgRegex) (MState bef aft []) (fun y => Some y) = Some y ->
  bolb bef = 1 /\
  exists a s tail,
    aft = str "![" ++ a ++ str "](" ++ s ++ tail ++ after y /\
    before y = rev (str "![" ++ a ++ str "](" ++ s ++ tail) ++ bef /\
    getCap 1 (caps y) = Some a /\ getCap 2 (caps y) = Some s.
Proof.
  intros H.
  rewrite imgRegex_pattern, run_Seq, run_Bol in H; cbn [before] in H.
  assert (Hb : bolb bef = 1).
  { destruct bef as [|c bef]; [reflexivity|].
    cbn [bolb andb] in *; destruct (isLineTerminator c);
      [reflexivity|discriminate H]. }
  assert (H' : run true
                 (Seq (lit (str "!["))
                    (Seq (Group 1 (star (Chr (except "]"))))
                       (Seq (lit (str "]("))
                          (Seq (NegLook (lit placeholderPrefix)) imgTail))))
                 (MState bef aft []) (fun y => Some y) = Some y).
  { destruct bef as [|c bef]; [exact H|].
    destruct (true && isLineTerminator c); [exact H|discriminate H]. }
  clear H; split; [exact Hb|].
  rewrite run_Seq, run_lit in H'.
  destruct (advance (str "![") (MState bef aft [])) as [x1|] eqn:E1;
    [|discriminate H'].
  apply advance_Some in E1; destruct E1 as [aft1 [-> ->]].
  rewrite run_Seq, run_Group in H'; unfold star in H'.
  rewrite run_Rep_Chr in H'; cbn [before after caps] in H'.
  apply repChr_success in H'; [|exact I].
  destruct H' as [j1 [_ [_ [_ H]]]].
  cbn [before after caps] in H; rewrite consumed_app in H.
  rewrite run_Seq, run_lit in H.
  match type of H with
  | match advance ?d ?x with _ => _ end = _ =>
      destruct (advance d x) as [x2|] eqn:E2; [|discriminate H]
  end.
  apply advance_Some in E2; destruct E2 as [aft2 [Ea2 ->]].
  rewrite run_Seq, run_NegLook in H.
  match type of H with
  | match ?e with _ => _ end = _ => destruct e; [discriminate H|]
  end.
  rewrite imgTail_eq, run_Seq, run_Group in H; unfold plus in H.
  rewrite run_Rep_Chr in H; cbn [before after caps] in H.
  apply repChr_success in H; [|exact I].
  destruct H as [j2 [_ [_ [_ H]]]].
  cbn [before after caps] in H; rewrite consumed_app in H.
  apply run_frames in H; destruct H as [y' [[[w [B A]] C] E]].
  injection E as ->; cbn [before after caps] in B, A, C.
  exists (firstn j1 aft1), (firstn j2 aft2), w.
  split; [|split; [|split]].
  - rewrite <- A, firstn_skipn, <- Ea2, firstn_skipn; reflexivity.
  - rewrite B, !rev_app_distr, <- !app_assoc; reflexivity.
  - rewrite C by (cbn; intros [X|[X|[]]]; discriminate X).
    reflexivity.
  - rewrite C by (cbn; intros [X|[X|[]]]; discriminate X).
    reflexivity.
Qed.

Lemma lineBreaks_app a b : lineBreaks (a ++ b) = lineBreaks a + lineBreaks b.
Proof. unfold lineBreaks; rewrite filter_app, length_app; reflexivity. Qed.

Lemma lineBreaks_le s : lineBreaks s <= length s.
Proof. apply filter_length_le. Qed.

Lemma bolb_le bef : bolb bef <= 1.
Proof.
  destruct bef as [|c bef]; [apply Nat.le_refl|].
  cbn [bolb]; destruct (isLineTerminator c); lia.
Qed.

Lemma firstn_add {A : Type} : forall a b (l : list A),
  firstn (a + b) l = firstn a l ++ firstn b (skipn a l).
Proof.
  induction a as [|a IH]; intros b l; [reflexivity|].
  destruct l as [|x l]; [rewrite !firstn_nil; reflexivity|].
  cbn [Nat.add firstn skipn app]; rewrite IH; reflexivity.
Qed.

Lemma lineStartsAt_S t : forall p,
  p < length t ->
  lineStartsAt t p = bolb (rev (firstn p t)) + lineStartsAt t (S p).
Proof.
  intros p H; unfold lineStartsAt; f_equal.
  change (skipn (S p) t) with (skipn (1 + p) t); rewrite <- skipn_skipn.
  replace (S p) with (p + 1) by lia.
  rewrite firstn_add, rev_app_distr.
  destruct (skipn p t) as [|c r] eqn:E.
  - apply (f_equal (@length ascii)) in E; rewrite length_skipn in E.
    simpl in E; lia.
  - cbn [firstn skipn rev app bolb]; unfold lineBreaks; cbn [filter].
    destruct (isLineTerminator c); reflexivity.
Qed.

Lemma lineStartsAt_mono t : forall d p,
  p + d <= length t -> lineStartsAt t (p + d) <= lineStartsAt t p.
Proof.
  induction d as [|d IH]; intros p H; [rewrite Nat.add_0_r; lia|].
  rewrite (lineStartsAt_S t p) by lia.
  replace (p + S d) with (S p + d) by lia.
  specialize (IH (S p)); lia.
Qed.

(** After a position where a line starts, there are fewer line starts left
    than from any position up to it, and at most as many as there are line
    terminators from it on. *)
Lemma lineStartsAt_after t i q :
  i < q -> q <= length t ->
  lineStartsAt t q <= lineBreaks (skipn i t).
Proof.
  intros H1 H2.
  pose proof (lineStartsAt_S t i ltac:(lia)) as E.
  unfold lineStartsAt at 1 in E.
  pose proof (lineStartsAt_mono t (q - S i) (S i)) as M.
  replace (S i + (q - S i)) with q in M by lia.
  specialize (M H2); lia.
Qed.

Lemma lineStartsAt_before t p i :
  p <= i -> i <= length t -> bolb (rev (firstn i t)) = 1 ->
  1 + lineBreaks (skipn i t) <= lineStartsAt t p.
Proof.
  intros H1 H2 Hb.
  pose proof (lineStartsAt_mono t (i - p) p) as M.
  replace (p + (i - p)) with i in M by lia.
  specialize (M H2); unfold lineStartsAt at 1 in M; lia.
Qed.

Lemma lineBreaks_imgReplacedOf a s :
  lineBreaks (imgReplacedOf a s) = lineBreaks a + lineBreaks s.
Proof.
  unfold imgReplacedOf; rewrite !lineBreaks_app.
  change (lineBreaks (str "![")) with 0.
  change (lineBreaks (str "](")) with 0.
  change (lineBreaks placeholderPrefix) with 0.
  change (lineBreaks placeholderSuffix) with 0.
  change (lineBreaks (str ")")) with 0.
  lia.
Qed.

(** What [exec] returns for [imgRegex] when it finds a match. *)
Lemma execFrom_imgRegex t li m :
  execFrom imgRegex t li = Some m ->
  exists M post,
    li <= index m /\ skipn (index m) t = M ++ post /\
    bolb (rev (firstn (index m) t)) = 1 /\
    matched m = M /\ endIndex m = index m + length M /\ 1 <= length M /\
    lineBreaks (capture 1 m) + lineBreaks (capture 2 m) <= lineBreaks M.
Proof.
  intros H; unfold execFrom in H.
  destruct (length t <? li) eqn:Hl; [discriminate H|].
  apply Nat.ltb_ge in Hl.
  destruct (search (flagM imgRegex) (pattern imgRegex) (rev (firstn li t))
              (skipn li t)) as [[i y]|] eqn:E; [|discriminate H].
  injection H as <-; cbn [index matched endIndex].
  change (flagM imgRegex) with true in E.
  apply search_leftmost in E; destruct E as [j [Hi [Hj [Hr _]]]].
  rewrite length_rev, length_firstn, Nat.min_l in Hi by exact Hl.
  rewrite <- rev_app_distr, <- firstn_add, skipn_skipn in Hr.
  rewrite (Nat.add_comm j li), <- Hi in Hr.
  apply imgRegex_success in Hr.
  destruct Hr as [Hb [a [s [tail [Ha [Hy [C1 C2]]]]]]].
  exists (str "![" ++ a ++ str "](" ++ s ++ tail), (after y).
  assert (Ly : length (before y)
               = length (str "![" ++ a ++ str "](" ++ s ++ tail) + i).
  { rewrite Hy, length_app, !length_rev, length_firstn.
    rewrite length_skipn in Hj; lia. }
  split; [lia|].
  split; [rewrite Ha, <- !app_assoc; reflexivity|].
  split; [exact Hb|].
  split.
  - rewrite Ly, Nat.add_sub, Hy, firstn_app, length_rev, Nat.sub_diag.
    rewrite firstn_O, app_nil_r, <- length_rev at 1.
    rewrite firstn_all; apply rev_involutive.
  - split; [lia|].
    split; [rewrite length_app; simpl; lia|].
    unfold capture, group; cbn [groups]; rewrite C1, C2.
    rewrite !lineBreaks_app; lia.
Qed.

Lemma imgLoop_terminates : forall fuel s,
  lineStartsFrom (target s) (lastIndex s) < fuel ->
  exists s', imgLoop fuel s = Some s'.
Proof.
  induction fuel as [|fuel IH]; intros s H; [lia|].
  rewrite imgLoop_S; unfold exec; change (flagG imgRegex) with true; cbv iota.
  destruct (execFrom imgRegex (target s) (lastIndex s)) as [m|] eqn:E;
    [|eexists; reflexivity].
  pose proof (execFrom_sound _ _ _ _ E) as [_ [_ [He _]]].
  apply execFrom_imgRegex in E.
  destruct E as [M [post [Hi [Hs [Hb [HM [HE [HL HC]]]]]]]].
  set (t := target s) in *; set (i := index m) in *.
  assert (It : i <= length t) by lia.
  assert (Old : 1 + lineBreaks M + lineBreaks post
                <= lineStartsFrom t (lastIndex s)).
  { unfold lineStartsFrom.
    destruct (length t <? lastIndex s) eqn:X;
      [apply Nat.ltb_lt in X; lia|].
    rewrite <- Nat.add_assoc, <- lineBreaks_app, <- Hs.
    apply lineStartsAt_before; [exact Hi|exact It|exact Hb]. }
  cbv zeta; destruct (isLocalSrc (capture 2 m)).
  - apply IH; cbn [target lastIndex].
    unfold lineStartsFrom.
    destruct (length (splice t m _) <? endIndex m) eqn:X; [lia|].
    apply Nat.ltb_ge in X.
    assert (Sp : skipn i (splice t m
                   (imgReplacedOf (capture 1 m) (capture 2 m)))
                 = imgReplacedOf (capture 1 m) (capture 2 m) ++ post).
    { unfold splice, slice, sliceFrom; fold i; rewrite HM.
      rewrite Nat.sub_0_r; cbn [skipn].
      rewrite skipn_app, length_firstn, Nat.min_l, Nat.sub_diag by exact It.
      rewrite skipn_all2 by (rewrite length_firstn; lia).
      cbn [skipn app]; f_equal.
      rewrite Nat.add_comm, <- skipn_skipn, Hs, skipn_app, skipn_all.
      rewrite Nat.sub_diag; reflexivity. }
    pose proof (lineStartsAt_after _ i (endIndex m) ltac:(lia) X) as New.
    rewrite Sp, lineBreaks_app, lineBreaks_imgReplacedOf in New.
    lia.
  - apply IH; cbn [target lastIndex]; fold t.
    unfold lineStartsFrom at 1.
    destruct (length t <? endIndex m) eqn:X; [lia|].
    pose proof (lineStartsAt_after t i (endIndex m) ltac:(lia) He) as New.
    rewrite Hs, lineBreaks_app in New; lia.
Qed.

Lemma lineStartsFrom_le t p : lineStartsFrom t p <= S (length t).
Proof.
  unfold lineStartsFrom, lineStartsAt; destruct (length t <? p); [lia|].
  pose proof (bolb_le (rev (firstn p t))).
  pose proof (lineBreaks_le (skipn p t)).
  rewrite length_skipn in *; lia.
Qed.

Lemma rewriteBlock_total b srcs li :
  exists b' srcs' li', rewriteBlock b srcs li = Some (b', srcs', li').
Proof.
  unfold rewriteBlock.
  assert (T : exists s', imgLoop (S (S (length (text b))))
                           (ImgState (text b) (text b) srcs li) = Some s').
  { apply imgLoop_terminates; cbn [target lastIndex].
    pose proof (lineStartsFrom_le (text b) li); lia. }
  destruct T as [s' T].
  destruct (type b); try (eexists; eexists; eexists; reflexivity);
    rewrite T; eexists; eexists; eexists; reflexivity.
Qed.

(** X18: the image loop ends on every list of blocks: the model's bound on the
    number of iterations, the length of the block plus two, is never
    reached.  Every match starts a line at or after [lastIndex], and after
    each iteration fewer line starts are left from the new [lastIndex] on,
    also when the text has grown by a replacement. *)
Theorem rewriteImages_total (l : list markdownBlock) :
  exists l' srcs, rewriteImages l = Some (l', srcs).
Proof.
  unfold rewriteImages; generalize (@nil jsstring), 0.
  induction l as [|b l IH]; intros srcs li; cbn [rewriteBlocks].
  - eexists; eexists; reflexivity.
  - destruct (rewriteBlock_total b srcs li) as [b' [srcs' [li' E]]].
    rewrite E; destruct (IH srcs' li') as [l' [srcs'' E']].
    rewrite E'; eexists; eexists; reflexivity.
Qed.

(** ** The table of contents as a forest *)

Lemma depthIs_eq d o l :
  depthIs d (TocNode o l) <-> headerLevel o = d /\ Forall (depthIs (S d)) l.
Proof.
  cbn [depthIs].
  assert (E : (fix go (l : list tocTree) : Prop :=
                 match l with
                 | [] => True
                 | t' :: l' => depthIs (S d) t' /\ go l'
                 end) l <-> Forall (depthIs (S d)) l).
  { induction l as [|t l IH]; [split; constructor|].
    split.
    - intros [H1 H2]; constructor; [exact H1|apply IH; exact H2].
    - intros H; inversion H; subst; split; [assumption|apply IH; assumption]. }
  rewrite E; reflexivity.
Qed.

Lemma addChild_level o r : headerLevel (addChild o r) = headerLevel o.
Proof. reflexivity. Qed.

Lemma tocStep_rootsOk s h s' :
  rootsOk (store s) (tocString s) ->
  tocStep s h = inr s' ->
  rootsOk (store s') (tocString s').
Proof.
  intros HR H; unfold tocStep in H.
  set (o := newHeaderObject h) in *.
  destruct (headerLevel o) as [|[|k]] eqn:EL; [discriminate| |].
  - inversion H; subst s'; clear H; cbn [store tocString].
    intros r Hr; apply in_app_or in Hr; destruct Hr as [Hr|[<-|[]]].
    + destruct (HR r Hr) as [q [E1 E2]]; exists q; split; [|exact E2].
      rewrite nth_error_app1; [exact E1|apply nth_error_Some; congruence].
    + exists o; split; [|exact EL].
      rewrite nth_error_snoc, Nat.ltb_irrefl, Nat.eqb_refl; reflexivity.
  - destruct (arrayGet (tocStack s) k) as [parent|]; [|discriminate].
    inversion H; subst s'; clear H; cbn [store tocString].
    intros r Hr; destruct (HR r Hr) as [q [E1 E2]].
    rewrite nth_error_pushChild, nth_error_app1
      by (apply nth_error_Some; congruence).
    rewrite E1; eexists; split; [reflexivity|].
    destruct (r =? parent); [rewrite addChild_level|]; exact E2.
Qed.

Lemma tocLoop_rootsOk : forall l s s',
  rootsOk (store s) (tocString s) ->
  tocLoop s l = inr s' ->
  rootsOk (store s') (tocString s').
Proof.
  induction l as [|h l IH]; intros s s' HR H; simpl in H.
  - inversion H; subst; exact HR.
  - destruct (tocStep s h) as [e|s1] eqn:E; [discriminate|].
    exact (IH s1 s' (tocStep_rootsOk s h s1 HR E) H).
Qed.

Lemma allSome_map {A B : Type} (f : A -> option B) (P : B -> Prop) :
  forall l,
    (forall x, In x l -> exists y, f x = Some y /\ P y) ->
    exists ys, allSome (map f l) = Some ys /\ Forall P ys /\
               length ys = length l.
Proof.
  induction l as [|x l IH]; intros H.
  - exists []; split; [reflexivity|split; [constructor|reflexivity]].
  - destruct (H x (or_introl eq_refl)) as [y [E Py]].
    destruct (IH (fun z Hz => H z (or_intror Hz))) as [ys [Es [Ps Ls]]].
    exists (y :: ys); cbn [map allSome]; rewrite E, Es.
    split; [reflexivity|split; [constructor; assumption|simpl; lia]].
Qed.

(** With the levels respected, a reference of the store stands for a tree:
    following the children ends, because a child was created after its
    parent. *)
Lemma treeOf_total st :
  levelsOk st ->
  forall fuel r o,
    nth_error st r = Some o -> length st - r <= fuel ->
    exists t, treeOf fuel st r = Some t /\ depthIs (headerLevel o) t.
Proof.
  intros HL; induction fuel as [|fuel IH]; intros r o Hr Hf.
  - assert (r < length st) by (apply nth_error_Some; congruence); lia.
  - cbn [treeOf]; rewrite Hr.
    destruct (allSome_map (treeOf fuel st) (depthIs (S (headerLevel o)))
                (children o)) as [ts [E [P _]]].
    { intros c Hc; destruct (HL r o c Hr Hc) as [Hlt [oc [E1 E2]]].
      destruct (IH c oc E1) as [t [Et Dt]]; [lia|].
      exists t; split; [exact Et|rewrite <- E2; exact Dt]. }
    rewrite E; eexists; split; [reflexivity|].
    apply depthIs_eq; split; [reflexivity|exact P].
Qed.

(** X19: every table of contents the build returns is a forest: each entry of
    [tocString] and each child stands for a finite tree (no reference
    dangles and none leads back to an ancestor), one tree for each entry,
    and a heading sits at the depth of its level, the roots at depth 1. *)
Theorem buildToc_forest (l : list jsstring) (s : tocState) :
  buildToc l = inr s ->
  exists trees,
    tocTrees s = Some trees /\
    length trees = length (tocString s) /\
    Forall (depthIs 1) trees.
Proof.
  intros H.
  assert (Inv : levelsOk (store s) /\ rootsOk (store s) (tocString s)).
  { unfold buildToc in H; destruct (length l <=? 2).
    - inversion H; subst s; split.
      + intros p o c Hp; destruct p; discriminate Hp.
      + intros r [].
    - split.
      + apply tocLoop_levelsOk in H; [apply H| |].
        * intros q o' c' Hq; destruct q; discriminate Hq.
        * intros k v Hk; destruct k; discriminate Hk.
      + apply tocLoop_rootsOk in H; [exact H|intros r []]. }
  destruct Inv as [HL HR]; unfold tocTrees.
  destruct (allSome_map (treeOf (S (length (store s))) (store s)) (depthIs 1)
              (tocString s)) as [ts [E [P L]]].
  { intros r Hr; destruct (HR r Hr) as [o [E1 E2]].
    destruct (treeOf_total (store s) HL (S (length (store s))) r o E1)
      as [t [Et Dt]]; [lia|].
    exists t; split; [exact Et|rewrite <- E2; exact Dt]. }
  exists ts; split; [exact E|split; [exact L|exact P]].
Qed.

Lemma buildToc_forest_witness :
  exists trees,
    tocTrees exampleToc = Some trees /\
    length trees = length (tocString exampleToc) /\
    Forall (depthIs 1) trees.
Proof.
  apply (buildToc_forest exampleTocLines exampleToc).
  vm_compute; reflexivity.
Defined.

(** ** The title of a plain heading *)

Lemma repChr_greedy_bounded p : forall a rest mn mx bef cs c z,
  forallb p a = true ->
  match rest with
  | ch :: _ => p ch = false
  | [] => True
  end ->
  mn <= length a ->
  (forall m, mx = Some m -> length a <= m) ->
  c (MState (rev a ++ bef) rest cs) = Some z ->
  repChr p true mn mx bef (a ++ rest) cs c = Some z.
Proof.
  induction a as [|x a IH]; intros rest mn mx bef cs c z Ha Hr Hm Hx Hc.
  - simpl in Hm; assert (mn = 0) by lia; subst mn.
    cbn [app rev] in *.
    destruct mx as [[|m]|]; destruct rest as [|ch rest];
      cbn [repChr negb Nat.eqb]; try rewrite Hr; exact Hc.
  - cbn [forallb] in Ha; apply andb_prop in Ha; destruct Ha as [Hpx Ha].
    assert (More : repChr p true (pred mn) (decr mx) (x :: bef) (a ++ rest) cs c
                   = Some z).
    { apply IH; [exact Ha|exact Hr|simpl in Hm; lia| |].
      - intros m Em; destruct mx as [k|]; [|discriminate Em].
        cbn [decr option_map] in Em; injection Em as <-.
        specialize (Hx k eq_refl); simpl in Hx; lia.
      - cbn [rev] in Hc; rewrite <- app_assoc in Hc; exact Hc. }
    destruct mx as [[|m]|].
    + specialize (Hx 0 eq_refl); simpl in Hx; lia.
    + cbn [app repChr]; rewrite Hpx, More; destruct mn; reflexivity.
    + cbn [app repChr]; rewrite Hpx, More; destruct mn; reflexivity.
Qed.

Lemma forallb_repeat (p : ascii -> bool) c n :
  p c = true -> forallb p (repeat c n) = true.
Proof.
  intros H; induction n as [|n IH]; [reflexivity|].
  cbn [repeat forallb]; rewrite H, IH; reflexivity.
Qed.

Lemma indexOf_skip d c s :
  startsWith d (c :: s) = false ->
  indexOf d s = None -> indexOf d (c :: s) = None.
Proof.
  intros H1 H2; cbn [indexOf]; rewrite H1, H2; reflexivity.
Qed.

Lemma search_lit_none m d r : forall aft bef,
  indexOf d aft = None -> search m (Seq (lit d) r) bef aft = None.
Proof.
  induction aft as [|ch aft IH]; intros bef H.
  - rewrite search_nil, run_Seq, run_lit_fail; [reflexivity|].
    apply (proj1 (indexOf_None _ _ H)).
  - rewrite search_S, run_Seq, run_lit_fail
      by (apply (proj1 (indexOf_None _ _ H))).
    apply IH; eapply (proj2 (indexOf_None _ _ H)); reflexivity.
Qed.

Lemma replace_comment_none s :
  includes (str "<!--") s = false -> replace commentRegex [] s = s.
Proof.
  unfold includes; intros H.
  destruct (indexOf (str "<!--") s) eqn:E; [discriminate H|].
  unfold replace, replaceWith; change (flagG commentRegex) with true; cbv iota.
  rewrite allMatches_S; unfold execFrom.
  change (length s <? 0) with false; cbv iota; cbn [firstn skipn rev].
  change (pattern commentRegex)
    with (Seq (lit (str "<!--"))
            (Seq (Group 1 (lazyStar (Chr dot))) (lit (str "-->")))).
  rewrite search_lit_none by exact E; reflexivity.
Qed.

Lemma endsWithout_tail p c s :
  endsWithout p (c :: s) = true -> endsWithout p s = true.
Proof.
  unfold endsWithout; cbn [rev].
  destruct (rev s) as [|d r]; [reflexivity|exact (fun H => H)].
Qed.

Lemma countWhile_lt p : forall s,
  s <> [] -> endsWithout p s = true -> countWhile p s < length s.
Proof.
  induction s as [|c s IH]; intros Hn H; [congruence|].
  cbn [countWhile length]; destruct (p c) eqn:Ep; [|lia].
  destruct s as [|c' s].
  - unfold endsWithout in H; cbn in H; rewrite Ep in H; discriminate H.
  - specialize (IH ltac:(discriminate) (endsWithout_tail _ _ _ H)); lia.
Qed.

Lemma search_trailingHashes_none : forall aft bef,
  endsWithout (only hash) aft = true ->
  search false (pattern trailingHashesRegex) bef aft = None.
Proof.
  change (pattern trailingHashesRegex)
    with (Seq (plus (Chr (only hash))) Eol).
  induction aft as [|ch aft IH]; intros bef H.
  - rewrite search_nil, run_Seq; unfold plus; rewrite run_Rep_Chr.
    rewrite repChr_too_short; [reflexivity|simpl; lia].
  - rewrite search_S, run_Seq; unfold plus at 1; rewrite run_Rep_Chr.
    cbn [before after caps].
    rewrite repChr_all_fail; [apply IH, (endsWithout_tail _ _ _ H)|].
    intros j Hj.
    pose proof (countWhile_lt (only hash) (ch :: aft) ltac:(discriminate) H)
      as Hlt.
    rewrite run_Eol; cbn [after].
    destruct (skipn j (ch :: aft)) as [|x r] eqn:E; [|reflexivity].
    apply (f_equal (@length ascii)) in E; rewrite length_skipn in E.
    cbn [length] in E, Hlt; exfalso; lia.
Qed.

Lemma replace_trailingHashes_none s :
  endsWithout (only hash) s = true -> replace trailingHashesRegex [] s = s.
Proof.
  intros H; unfold replace, replaceWith.
  change (flagG trailingHashesRegex) with false; cbv iota.
  unfold execFrom; change (length s <? 0) with false; cbv iota.
  cbn [firstn skipn rev]; change (flagM trailingHashesRegex) with false.
  rewrite search_trailingHashes_none by exact H; reflexivity.
Qed.

Lemma countWhile_hashes n rest :
  countWhile (only hash) (repeat hash n ++ " " :: rest) = n.
Proof.
  rewrite countWhile_app;
    [apply repeat_length|apply forallb_repeat; reflexivity|reflexivity].
Qed.

Lemma replace_leadingHashes n rest :
  1 <= n ->
  replace leadingHashesRegex [] (repeat hash n ++ " " :: rest) = " " :: rest.
Proof.
  intros Hn; unfold replace, replaceWith.
  change (flagG leadingHashesRegex) with false; cbv iota.
  unfold execFrom.
  change (length (repeat hash n ++ " " :: rest) <? 0) with false; cbv iota.
  cbn [firstn skipn rev]; change (flagM leadingHashesRegex) with false.
  change (pattern leadingHashesRegex) with (Seq Bol (plus (Chr (only hash)))).
  erewrite search_hit.
  2:{ rewrite run_Seq, run_Bol; cbn [before]; unfold plus.
      rewrite run_Rep_Chr, repChr_greedy_all; cbn [before after caps].
      rewrite countWhile_hashes.
      replace (1 <=? n) with true by (symmetry; apply Nat.leb_le; exact Hn).
      reflexivity. }
  cbn [substitute index endIndex before length app].
  unfold slice; cbn [Nat.sub firstn app]; rewrite app_nil_r, length_rev.
  rewrite firstn_app, repeat_length, Nat.sub_diag, firstn_O, app_nil_r.
  rewrite firstn_all2 by (rewrite repeat_length; lia).
  rewrite repeat_length, skipn_app, repeat_length, Nat.sub_diag.
  rewrite skipn_all2 by (rewrite repeat_length; lia).
  reflexivity.
Qed.

Lemma trimStart_id c s : isWhiteSpace c = false -> trimStart (c :: s) = c :: s.
Proof. intros H; cbn [trimStart]; rewrite H; reflexivity. Qed.

Lemma trimEnd_id s d r :
  rev s = d :: r -> isWhiteSpace d = false -> trimEnd s = s.
Proof.
  intros E H; unfold trimEnd; rewrite E, trimStart_id by exact H.
  rewrite <- E; apply rev_involutive.
Qed.

Lemma isAtxHeading_hashes n rest :
  1 <= n <= 6 -> isAtxHeading (repeat hash n ++ " " :: rest) = true.
Proof.
  intros Hn; unfold isAtxHeading.
  replace (startsWith [hash] (repeat hash n ++ " " :: rest)) with true
    by (destruct n; [lia|reflexivity]).
  cbn [andb]; unfold test, execFrom.
  change (length (repeat hash n ++ " " :: rest) <? 0) with false; cbv iota.
  cbn [firstn skipn rev]; change (flagM atxRegex) with false.
  change (pattern atxRegex)
    with (Seq Bol (Seq (between 1 6 (Chr (only hash))) (Chr (only " ")))).
  erewrite search_hit; [reflexivity|].
  rewrite run_Seq, run_Bol; cbn [before]; rewrite run_Seq; unfold between.
  rewrite run_Rep_Chr; cbn [before after caps].
  apply repChr_greedy_bounded;
    [apply forallb_repeat; reflexivity|reflexivity
    |rewrite repeat_length; lia
    |intros m Em; injection Em as <-; rewrite repeat_length; lia|].
  rewrite run_Chr; cbn [after before caps].
  change (only " " " ") with true; cbv iota; reflexivity.
Qed.

Lemma cleanTitle_plain n t :
  1 <= n ->
  plainTitle t = true ->
  includes (str "<!--") t = false ->
  cleanTitle (repeat hash n ++ " " :: t) = t.
Proof.
  intros Hn Hp Hc; unfold plainTitle in Hp.
  destruct t as [|c t]; [discriminate Hp|].
  destruct (rev (c :: t)) as [|d r] eqn:Er; [discriminate Hp|].
  apply andb_prop in Hp; destruct Hp as [Hp H3].
  apply andb_prop in Hp; destruct Hp as [H1 H2].
  apply negb_true_iff in H1, H2, H3.
  unfold cleanTitle.
  rewrite replace_comment_none.
  2:{ unfold includes in *.
      destruct (indexOf (str "<!--") (c :: t)) eqn:E; [discriminate Hc|].
      assert (X : indexOf (str "<!--") (repeat hash n ++ " " :: c :: t) = None).
      { clear Hn; induction n as [|n IH]; cbn [repeat app].
        - apply indexOf_skip; [reflexivity|exact E].
        - apply indexOf_skip; [reflexivity|exact IH]. }
      rewrite X; reflexivity. }
  assert (T : trim (repeat hash n ++ " " :: c :: t)
              = repeat hash n ++ " " :: c :: t).
  { unfold trim; destruct n as [|n]; [lia|].
    cbn [repeat app]; rewrite trimStart_id by reflexivity.
    apply (trimEnd_id _ d (r ++ " " :: rev (repeat hash (S n)))); [|exact H2].
    change (hash :: repeat hash n ++ " " :: c :: t)
      with (repeat hash (S n) ++ " " :: c :: t).
    rewrite rev_app_distr.
    change (rev (" " :: c :: t)) with (rev (c :: t) ++ [" "]).
    rewrite Er, <- app_assoc; reflexivity. }
  rewrite T, replace_leadingHashes by exact Hn.
  rewrite replace_trailingHashes_none.
  2:{ unfold endsWithout.
      change (rev (" " :: c :: t)) with (rev (c :: t) ++ [" "]).
      rewrite Er; cbn [app]; unfold only; rewrite H3; reflexivity. }
  unfold trim; cbn [trimStart].
  change (isWhiteSpace " ") with true; cbv iota.
  rewrite H1.
  apply (trimEnd_id _ d r Er H2).
Qed.

(** X20: a document that starts with a heading line made of one to six hashes,
    a space and a title without white space at its ends, without a hash at
    its end and without comment has that title: hashes inside the title
    are kept. *)
Theorem getDocumentTitle_plain_heading (n : nat) (t rest : jsstring) :
  1 <= n <= 6 ->
  plainTitle t = true ->
  includes (str "<!--") t = false ->
  noLineBreak t = true ->
  endsLine rest = true ->
  getDocumentTitle (Some ((repeat hash n ++ " " :: t) ++ rest)) = Some t.
Proof.
  intros Hn Hp Hc Hl Hr; cbn [getDocumentTitle option_map]; f_equal.
  rewrite documentTitle_lines.
  assert (L : noLineBreak (repeat hash n ++ " " :: t) = true).
  { unfold noLineBreak; rewrite forallb_app.
    rewrite forallb_repeat by reflexivity.
    cbn [forallb andb]; exact Hl. }
  destruct (lines_first _ rest L Hr) as [ls ->].
  cbn [find]; rewrite isAtxHeading_hashes by exact Hn.
  apply cleanTitle_plain; [lia|exact Hp|exact Hc].
Qed.

Lemma getDocumentTitle_plain_heading_witness :
  getDocumentTitle
    (Some ((repeat hash 2 ++ " " :: js "C# and F#: a tour") ++ js "\nbody"))
  = Some (js "C# and F#: a tour").
Proof.
  apply (getDocumentTitle_plain_heading 2 (js "C# and F#: a tour")
           (js "\nbody")); try reflexivity.
  lia.
Defined.

(** ** The output folder and plain messages *)

Lemma takeSegment_app : forall a rest,
  forallb (except "/") a = true ->
  Path.takeSegment (a ++ "/" :: rest) = a.
Proof.
  induction a as [|c a IH]; intros rest H; [reflexivity|].
  cbn [forallb] in H; apply andb_prop in H; destruct H as [Hc H].
  cbn [app Path.takeSegment].
  unfold except in Hc; rewrite Ascii.eqb_sym in Hc.
  destruct (Ascii.eqb c "/"); [discriminate Hc|].
  rewrite IH by exact H; reflexivity.
Qed.

Lemma takeSegment_all : forall a,
  forallb (except "/") a = true -> Path.takeSegment a = a.
Proof.
  induction a as [|c a IH]; intros H; [reflexivity|].
  cbn [forallb] in H; apply andb_prop in H; destruct H as [Hc H].
  cbn [Path.takeSegment].
  unfold except in Hc; rewrite Ascii.eqb_sym in Hc.
  destruct (Ascii.eqb c "/"); [discriminate Hc|].
  rewrite IH by exact H; reflexivity.
Qed.

Lemma dropSlashes_id c a :
  except "/" c = true -> Path.dropSlashes (c :: a) = c :: a.
Proof.
  intros Hc; cbn [Path.dropSlashes].
  unfold except in Hc; rewrite Ascii.eqb_sym in Hc.
  destruct (Ascii.eqb c "/"); [discriminate Hc|reflexivity].
Qed.

Lemma forallb_rev {A : Type} (p : A -> bool) l :
  forallb p (rev l) = forallb p l.
Proof.
  induction l as [|x l IH]; [reflexivity|].
  cbn [rev forallb]; rewrite forallb_app, IH; cbn [forallb].
  rewrite andb_true_r; apply andb_comm.
Qed.

(** The base name of a path that ends with a file name. *)
Lemma basename_file dir name :
  name <> [] -> forallb (except "/") name = true ->
  Path.basename (dir ++ "/" :: name) = name /\ Path.basename name = name.
Proof.
  intros Hn H; unfold Path.basename.
  assert (R : forallb (except "/") (rev name) = true)
    by (rewrite forallb_rev; exact H).
  destruct (rev name) as [|c r] eqn:E.
  - apply (f_equal (@rev ascii)) in E; rewrite rev_involutive in E.
    contradiction.
  - pose proof R as R'; cbn [forallb] in R'.
    apply andb_prop in R'; destruct R' as [Hc _].
    split.
    + rewrite rev_app_distr; cbn [rev]; rewrite <- app_assoc, E.
      cbn [app]; rewrite dropSlashes_id by exact Hc.
      change (c :: r ++ "/" :: rev dir) with ((c :: r) ++ "/" :: rev dir).
      rewrite (takeSegment_app (c :: r) (rev dir) R).
      rewrite <- E; apply rev_involutive.
    + rewrite dropSlashes_id by exact Hc.
      rewrite takeSegment_all by exact R.
      rewrite <- E; apply rev_involutive.
Qed.

(** X21: with an output folder, the page of a document goes into that folder
    under the base name of the document: the directory of the document is
    dropped, in the export of a page and in the export of a workspace, so
    that two documents of a workspace with the same file name in different
    directories are written to the same path. *)
Theorem outPath_drops_directory
  (outFolder dir1 dir2 name : jsstring) :
  outFolder <> [] ->
  name <> [] -> forallb (except "/") name = true ->
  outPathOf (Some outFolder) (dir1 ++ "/" :: name)
  = outPathOf (Some outFolder) name
  /\ workspaceOutPath (Some outFolder) (dir1 ++ "/" :: name)
     = workspaceOutPath (Some outFolder) (dir2 ++ "/" :: name).
Proof.
  intros Hf Hn H.
  destruct outFolder as [|c f]; [congruence|].
  unfold outPathOf, initialOutPath, workspaceOutPath.
  destruct (basename_file dir1 name Hn H) as [E1 E0].
  destruct (basename_file dir2 name Hn H) as [E2 _].
  rewrite E1, E2, E0; split; reflexivity.
Qed.

Lemma outPath_drops_directory_witness :
  outPathOf (Some (js "/out")) (js "/ws/a" ++ "/" :: js "x.md")
  = outPathOf (Some (js "/out")) (js "x.md")
  /\ workspaceOutPath (Some (js "/out")) (js "/ws/a" ++ "/" :: js "x.md")
     = workspaceOutPath (Some (js "/out")) (js "/ws/b" ++ "/" :: js "x.md").
Proof.
  apply outPath_drops_directory; [discriminate|discriminate|reflexivity].
Defined.

Lemma removeSgr_no_esc : forall s,
  forallb (except ESC) s = true -> removeSgr s = s.
Proof.
  unfold removeSgr; induction s as [|c s IH]; intros H; [reflexivity|].
  cbn [forallb] in H; apply andb_prop in H; destruct H as [Hc H].
  cbn [replaceGo].
  assert (E : sgrAt (c :: s) = None).
  { unfold sgrAt; destruct s as [|b rest]; [reflexivity|].
    unfold except in Hc; destruct (Ascii.eqb ESC c); [discriminate Hc|].
    reflexivity. }
  rewrite E, IH by exact H; reflexivity.
Qed.

(** X22: when [format] throws an error whose message holds no escape
    character, the warning shown ends with the message as it is. *)
Theorem formatStep_plain_message
  (format : jsstring -> formatResult)
  (warningPrefix warningMiddle title zennHtml message : jsstring)
  (shown : list jsstring) :
  format zennHtml = Throws message ->
  forallb (except ESC) message = true ->
  formatStep format warningPrefix warningMiddle title zennHtml shown
  = inr (zennHtml,
         shown ++ [warningPrefix ++ title ++ warningMiddle ++ [LF; LF]
                     ++ message]).
Proof.
  intros H Hm; unfold formatStep.
  rewrite H, replace_ansi, removeSgr_no_esc by exact Hm; reflexivity.
Qed.

Lemma formatStep_plain_message_witness :
  formatStep (fun _ => Throws (js "Unexpected closing tag (3:1)"))
    (js "<") (js "> ") (js "T") (js "<html></html>") []
  = inr (js "<html></html>",
         [] ++ [js "<" ++ js "T" ++ js "> " ++ [LF; LF]
                  ++ js "Unexpected closing tag (3:1)"]).
Proof.
  apply (formatStep_plain_message
           (fun _ => Throws (js "Unexpected closing tag (3:1)")));
    reflexivity.
Defined.

(** ** The menu of the table of contents *)

Lemma tocBody_depth : forall t d,
  depthIs d t -> tocBody t d = (tocEntry t, d).
Proof.
  apply (tocTree_nested_ind
           (fun t => forall d, depthIs d t -> tocBody t d = (tocEntry t, d))).
  intros o l IH d Hd; apply depthIs_eq in Hd; destruct Hd as [Ho Hl].
  cbn [tocBody tocEntry]; rewrite Ho.
  destruct l as [|c l]; [rewrite app_nil_l; reflexivity|].
  assert (L : forall l acc,
    Forall (fun t => forall d, depthIs d t -> tocBody t d = (tocEntry t, d)) l ->
    Forall (depthIs (S d)) l ->
    (fix childLoop (l : list tocTree) (acc : jsstring) (lvl : nat) :
       jsstring * nat :=
       match l with
       | [] => (acc, lvl)
       | child :: l' =>
           let (s, lvl') := tocBody child lvl in
           childLoop l' (acc ++ s) lvl'
       end) l acc (S d)
    = (acc ++ flat_map tocEntry l, S d)).
  { induction l0 as [|x l0 IHl]; intros acc HI HD.
    - cbn [flat_map]; rewrite app_nil_r; reflexivity.
    - rewrite (Forall_inv HI (S d) (Forall_inv HD)).
      rewrite IHl by (eapply Forall_inv_tail; eassumption).
      cbn [flat_map]; rewrite app_assoc; reflexivity. }
  rewrite (L (c :: l) _ IH Hl); cbn [pred].
  rewrite <- !app_assoc; reflexivity.
Qed.

Lemma tocHtmlStringOf_depth : forall trees acc,
  Forall (depthIs 1) trees ->
  tocHtmlStringOf trees acc 1 = (acc ++ flat_map tocEntry trees, 1).
Proof.
  induction trees as [|t trees IH]; intros acc H.
  - cbn [tocHtmlStringOf flat_map]; rewrite app_nil_r; reflexivity.
  - cbn [tocHtmlStringOf flat_map].
    rewrite (tocBody_depth t 1 (Forall_inv H)).
    rewrite IH by (eapply Forall_inv_tail; eassumption).
    rewrite app_assoc; reflexivity.
Qed.

(** X23: for every table of contents the build returns, the menu that
    [tocBody] writes gives each heading the class [toc-level-k] of its own
    level k, at any depth, and [tocLevel] is back at 1 after the loop over
    [tocString]: the counter that is raised and lowered around the children
    never drifts. *)
Theorem tocBody_level_class (l : list jsstring) (s : tocState) :
  buildToc l = inr s ->
  exists trees,
    tocTrees s = Some trees /\
    tocHtmlStringOf trees [] 1 = (flat_map tocEntry trees, 1).
Proof.
  intros H.
  assert (Inv : levelsOk (store s) /\ rootsOk (store s) (tocString s)).
  { unfold buildToc in H; destruct (length l <=? 2).
    - inversion H; subst s; split.
      + intros p o c Hp; destruct p; discriminate Hp.
      + intros r [].
    - split.
      + apply tocLoop_levelsOk in H; [apply H| |].
        * intros q o' c' Hq; destruct q; discriminate Hq.
        * intros k v Hk; destruct k; discriminate Hk.
      + apply tocLoop_rootsOk in H; [exact H|intros r []]. }
  destruct Inv as [HL HR]; unfold tocTrees.
  destruct (allSome_map (treeOf (S (length (store s))) (store s)) (depthIs 1)
              (tocString s)) as [ts [E [P _]]].
  { intros r Hr; destruct (HR r Hr) as [o [E1 E2]].
    destruct (treeOf_total (store s) HL (S (length (store s))) r o E1)
      as [t [Et Dt]]; [lia|].
    exists t; split; [exact Et|rewrite <- E2; exact Dt]. }
  exists ts; split; [exact E|].
  rewrite tocHtmlStringOf_depth by exact P; reflexivity.
Qed.

Lemma tocBody_level_class_witness :
  exists trees,
    tocTrees exampleToc = Some trees /\
    tocHtmlStringOf trees [] 1 = (flat_map tocEntry trees, 1).
Proof.
  apply (tocBody_level_class exampleTocLines exampleToc).
  vm_compute; reflexivity.
Defined.

(** ** The title, for every text *)




























